(** * Mosaic work-graph manager: the wave scheduler of
      [orchestrator/work_graph_manager.js]

    [executeBuildPipeline] is an [async] function.  Between two [await]s its
    code runs atomically on the JavaScript event loop, so the embedding is a
    transition system whose steps are exactly those atomic segments:

    - the controller (the body of [executeBuildPipeline]) is resumed by the
      action [Ctl] when its [await] resolves and by [CtlErr e] when it
      rejects with [e];
    - the [i]-th callback of [batch.map(async (nodeId) => ...)] is resumed by
      [Resume i r], where [r] is what the awaited external operation
      answered.

    The external collaborators (BullMQ task queue, local file system,
    Dev-Flow manager) are the environment: they choose the order in which
    pending awaits are resumed and the outcome of every fallible call.

    Every awaited call of a collaborator may reject, the publication of a
    progress event included: [progressQueue.add] is called when the event
    is emitted and its promise settles later, resolved or rejected.

    Assumptions of the embedding: console output is not part of the state;
    the microtask hops between the settlement of an awaited operation and
    the code that resumes are folded into the step that resumes. *)

From stdpp Require Import base strings list gmap relations.
From Stdlib Require Import ZArith Lia.

Open Scope string_scope.
Open Scope list_scope.
Open Scope nat_scope.
Set Warnings "-clear-no-such-hyp".

(** ** Data model *)

(** [node.status]: "pending", "running", "completed", "failed". *)
Inductive NodeStatus := Pending | Running | Completed | Failed.

#[global] Instance NodeStatus_eq_dec : EqDecision NodeStatus.
Proof. solve_decision. Defined.

(** An element of [workGraph.nodes] as it arrives in the job data. *)
Record WorkGraphNode := {
  node_id : string;
  node_task : string;
  node_description : string;
  node_dependsOn : list string }.

#[global] Instance WorkGraphNode_eq_dec : EqDecision WorkGraphNode.
Proof. solve_decision. Defined.

(** A value of the [nodes] Map: [{ ...node, status: "pending" }]. *)
Record Node := { node_def : WorkGraphNode; node_status : NodeStatus }.

Definition set_status (st : NodeStatus) (n : Node) : Node :=
  {| node_def := node_def n; node_status := st |}.

(** [jobData]: only [buildId] and [buildPlan.workGraph.nodes] are inspected;
    the rest of the plan is forwarded untouched to the workers. *)
Record JobData := { job_buildId : string; job_workGraph : list WorkGraphNode }.

(** Status field of a progress event: "active", "completed", "error". *)
Inductive EventStatus := EvActive | EvCompleted | EvError.

#[global] Instance EventStatus_eq_dec : EqDecision EventStatus.
Proof. solve_decision. Defined.

(** The [message] template literals handed to [emitProgress]. *)
Inductive ProgressStep :=
  | StepInit                          (* Initializing Parallel Build... *)
  | StepBatch (n : nat)               (* Starting batch of n parallel tasks... *)
  | StepStarting (nodeId : string)    (* > Starting: id *)
  | StepCompleted (nodeId : string)   (* Completed: id *)
  | StepFailed (nodeId : string)      (* FAILED: id *)
  | StepDeployed.                     (* Application deployed. Preview available. *)

#[global] Instance ProgressStep_eq_dec : EqDecision ProgressStep.
Proof. solve_decision. Defined.

(** A job of the progress queue:
    [{ jobId: buildId, event: "progress", data: { step, status, details } }]. *)
Record ProgressEvent := {
  ev_jobId : string;
  ev_step : ProgressStep;
  ev_status : EventStatus;
  ev_details : string }.

#[global] Instance ProgressEvent_eq_dec : EqDecision ProgressEvent.
Proof. solve_decision. Defined.

(** The node an event speaks about, if any. *)
Definition event_node (e : ProgressEvent) : option string :=
  match ev_step e with
  | StepStarting v | StepCompleted v | StepFailed v => Some v
  | _ => None
  end.

(** A rejected external call, as the [catch] block reads it. *)
Record JsError := { err_detail : option string; err_message : string }.

#[global] Instance JsError_eq_dec : EqDecision JsError.
Proof. solve_decision. Defined.

(** [error.response?.data?.detail || error.message] *)
Definition errorMessage (e : JsError) : string :=
  match err_detail e with
  | Some d => if decide (d = EmptyString) then err_message e else d
  | None => err_message e
  end.

(** What [executeBuildPipeline] throws. *)
Inductive PipelineError :=
  | TaskError (nodeId task msg : string)
      (* Task id (task) failed: msg *)
  | IncompleteError
      (* Build failed: Not all tasks in the work graph were completed. *)
  | JsTypeError
      (* member access on the undefined result of nodes.get *)
  | RawError (e : JsError).
      (* the error of a rejected emitProgress, thrown on as it is *)

#[global] Instance PipelineError_eq_dec : EqDecision PipelineError.
Proof. solve_decision. Defined.

Definition error_text (e : PipelineError) : string :=
  match e with
  | TaskError v t m => "Task " +:+ v +:+ " (" +:+ t +:+ ") failed: " +:+ m
  | IncompleteError =>
      "Build failed: Not all tasks in the work graph were completed."
  | JsTypeError => "Cannot set properties of undefined (setting 'status')"
  | RawError e => err_message e
  end.

(** [return { buildId, previewUrl }] *)
Record BuildResult := { res_buildId : string; res_previewUrl : option string }.

(** ** The environment *)

(** A job submitted to the task queue: [taskQueue.add(jobName, payload)]. *)
Record TaskJob := { tj_name : string; tj_taskId : string; tj_description : string }.

(** A file, addressed by build and relative path. *)
Record FileWrite := { fw_buildId : string; fw_fileName : string; fw_code : string }.

#[global] Instance FileWrite_eq_dec : EqDecision FileWrite.
Proof. solve_decision. Defined.

Record World := {
  events : list ProgressEvent;   (* jobs handed to progressQueue.add, in call order *)
  taskJobs : list TaskJob;       (* jobs accepted by the task queue *)
  localFiles : list FileWrite;   (* files written under generated_projects *)
  vmFiles : list FileWrite;      (* files uploaded to the Dev-Flow manager *)
  vmSessions : list string }.    (* environments started by the manager *)

Definition emptyWorld : World :=
  {| events := []; taskJobs := []; localFiles := []; vmFiles := [];
     vmSessions := [] |}.

Definition add_event (e : ProgressEvent) (w : World) : World :=
  {| events := events w ++ [e]; taskJobs := taskJobs w;
     localFiles := localFiles w; vmFiles := vmFiles w;
     vmSessions := vmSessions w |}.

Definition add_taskJob (j : TaskJob) (w : World) : World :=
  {| events := events w; taskJobs := taskJobs w ++ [j];
     localFiles := localFiles w; vmFiles := vmFiles w;
     vmSessions := vmSessions w |}.

Definition add_localFile (f : FileWrite) (w : World) : World :=
  {| events := events w; taskJobs := taskJobs w;
     localFiles := localFiles w ++ [f]; vmFiles := vmFiles w;
     vmSessions := vmSessions w |}.

Definition add_vmFile (f : FileWrite) (w : World) : World :=
  {| events := events w; taskJobs := taskJobs w;
     localFiles := localFiles w; vmFiles := vmFiles w ++ [f];
     vmSessions := vmSessions w |}.

Definition add_vmSession (b : string) (w : World) : World :=
  {| events := events w; taskJobs := taskJobs w;
     localFiles := localFiles w; vmFiles := vmFiles w;
     vmSessions := vmSessions w ++ [b] |}.

(** [emitProgress(buildId, message, status, details)] up to its [await]:
    the job is handed to [progressQueue.add]; for a falsy [buildId] the
    function returns before that, and nothing is published. *)
Definition emitProgress (buildId : string) (message : ProgressStep)
    (status : EventStatus) (details : string) (w : World) : World :=
  if decide (buildId = EmptyString) then w
  else add_event {| ev_jobId := buildId; ev_step := message;
                    ev_status := status; ev_details := details |} w.

(** What an awaited operation answers when it settles. *)
Inductive Outcome :=
  | Ok                                   (* resolved, value not inspected *)
  | OkFile (fileName code : string)      (* worker result { fileName, code } *)
  | OkUrl (preview_url : option string)  (* response.data.preview_url *)
  | Err (e : JsError).                   (* rejected *)

(** ** Program points *)

(** Where a callback of [batch.map] is suspended, or how it ended. *)
Inductive Pc :=
  | AwaitStartEmit                     (* emitProgress(> Starting) *)
  | AwaitJobAdd                        (* callWorker: taskQueue.add *)
  | AwaitJobFinished                   (* callWorker: job.waitUntilFinished *)
  | AwaitMkdir (fileName code : string)   (* saveCodeLocally: fs.mkdir *)
  | AwaitWrite (fileName code : string)   (* saveCodeLocally: fs.writeFile *)
  | AwaitUpload (fileName code : string)  (* streamFileToVM: axios.post *)
  | AwaitVm                            (* executeDevOpsTask: axios.post *)
  | AwaitSkip                          (* executeDevOpsTask: default branch *)
  | AwaitDoneEmit                      (* emitProgress(Completed) *)
  | AwaitFailEmit (msg : string)       (* emitProgress(FAILED) *)
  | Fulfilled
  | Rejected                           (* threw inside the catch block *)
  | RejectedStart.                     (* threw before the try block *)

#[global] Instance Pc_eq_dec : EqDecision Pc.
Proof. solve_decision. Defined.

(** One element of [promises]: the callback's closure ([nodeId] and the
    [node] object it fetched) and its program point. *)
Record Promise := { p_nodeId : string; p_node : WorkGraphNode; p_pc : Pc }.

Definition set_pc (pc : Pc) (p : Promise) : Promise :=
  {| p_nodeId := p_nodeId p; p_node := p_node p; p_pc := pc |}.

(** Where the body of [executeBuildPipeline] is suspended, or how it ended. *)
Inductive Ctrl :=
  | CtlInit                            (* emitProgress(Initializing) *)
  | CtlBatch (batch : list string)     (* emitProgress(Starting batch) *)
  | CtlWave                            (* Promise.all(promises) *)
  | CtlFinal                           (* emitProgress(deployed) *)
  | CtlSucceeded (r : BuildResult)
  | CtlFailed (e : PipelineError).

Record State := {
  buildId : string;
  workGraph : list WorkGraphNode;
  order : list string;            (* key order shared by the three Maps *)
  nodes : gmap string Node;
  inDegree : gmap string Z;
  adj : gmap string (list string);
  queue : list string;
  completedCount : nat;
  previewUrl : option string;
  promises : list Promise;
  ctrl : Ctrl;
  world : World }.

(** Field updates. *)
Definition upd_nodes (f : gmap string Node → gmap string Node) (s : State) : State :=
  {| buildId := buildId s; workGraph := workGraph s; order := order s;
     nodes := f (nodes s); inDegree := inDegree s; adj := adj s;
     queue := queue s; completedCount := completedCount s;
     previewUrl := previewUrl s; promises := promises s; ctrl := ctrl s;
     world := world s |}.

Definition set_sched (deg : gmap string Z) (q : list string) (s : State) : State :=
  {| buildId := buildId s; workGraph := workGraph s; order := order s;
     nodes := nodes s; inDegree := deg; adj := adj s;
     queue := q; completedCount := completedCount s;
     previewUrl := previewUrl s; promises := promises s; ctrl := ctrl s;
     world := world s |}.

Definition set_completedCount (c : nat) (s : State) : State :=
  {| buildId := buildId s; workGraph := workGraph s; order := order s;
     nodes := nodes s; inDegree := inDegree s; adj := adj s;
     queue := queue s; completedCount := c;
     previewUrl := previewUrl s; promises := promises s; ctrl := ctrl s;
     world := world s |}.

Definition set_previewUrl (u : option string) (s : State) : State :=
  {| buildId := buildId s; workGraph := workGraph s; order := order s;
     nodes := nodes s; inDegree := inDegree s; adj := adj s;
     queue := queue s; completedCount := completedCount s;
     previewUrl := u; promises := promises s; ctrl := ctrl s;
     world := world s |}.

Definition upd_promises (f : list Promise → list Promise) (s : State) : State :=
  {| buildId := buildId s; workGraph := workGraph s; order := order s;
     nodes := nodes s; inDegree := inDegree s; adj := adj s;
     queue := queue s; completedCount := completedCount s;
     previewUrl := previewUrl s; promises := f (promises s); ctrl := ctrl s;
     world := world s |}.

Definition set_ctrl (c : Ctrl) (s : State) : State :=
  {| buildId := buildId s; workGraph := workGraph s; order := order s;
     nodes := nodes s; inDegree := inDegree s; adj := adj s;
     queue := queue s; completedCount := completedCount s;
     previewUrl := previewUrl s; promises := promises s; ctrl := c;
     world := world s |}.

Definition upd_world (f : World → World) (s : State) : State :=
  {| buildId := buildId s; workGraph := workGraph s; order := order s;
     nodes := nodes s; inDegree := inDegree s; adj := adj s;
     queue := queue s; completedCount := completedCount s;
     previewUrl := previewUrl s; promises := promises s; ctrl := ctrl s;
     world := f (world s) |}.

(** ** Building the index (lines 150-170) *)

(** Insertion order of [new Map(workGraph.nodes.map(...))]: a repeated key
    keeps the position of its first occurrence ... *)
Definition mk_order (g : list WorkGraphNode) : list string :=
  foldl (λ ks n, if decide (node_id n ∈ ks) then ks else ks ++ [node_id n]) [] g.

(** ... and the value of its last one. *)
Definition mk_nodes (g : list WorkGraphNode) : gmap string Node :=
  foldl (λ m n, <[node_id n := {| node_def := n; node_status := Pending |}]> m) ∅ g.

Definition mk_inDegree (g : list WorkGraphNode) : gmap string Z :=
  foldl (λ m n, <[node_id n := 0%Z]> m) ∅ g.

Definition mk_adj (g : list WorkGraphNode) : gmap string (list string) :=
  foldl (λ m n, <[node_id n := []]> m) ∅ g.

(** Body of the inner loop [for (const depId of node.dependsOn)]: the edge
    is recorded only under the guard [adj.has(depId)]. *)
Definition add_edge (nodeId : string)
    (st : gmap string (list string) * gmap string Z) (depId : string)
    : gmap string (list string) * gmap string Z :=
  match st.1 !! depId with
  | Some ds =>
      (<[depId := ds ++ [nodeId]]> st.1,
       <[nodeId := (default 0 (st.2 !! nodeId) + 1)%Z]> st.2)
  | None => st
  end.

(** Body of the outer loop [for (const node of nodes.values())]. *)
Definition index_node (nds : gmap string Node)
    (st : gmap string (list string) * gmap string Z) (k : string) :=
  match nds !! k with
  | Some n => foldl (add_edge (node_id (node_def n))) st (node_dependsOn (node_def n))
  | None => st
  end.

Definition build_index (ks : list string) (nds : gmap string Node)
    (st : gmap string (list string) * gmap string Z) :=
  foldl (index_node nds) st ks.

(** [for (const [id, degree] of inDegree.entries()) if (degree === 0) queue.push(id)] *)
Definition initial_queue (ks : list string) (deg : gmap string Z) : list string :=
  filter (λ k, deg !! k = Some 0%Z) ks.

Definition build (s : State) : State :=
  let g := workGraph s in
  let ks := mk_order g in
  let nds := mk_nodes g in
  let ix := build_index ks nds (mk_adj g, mk_inDegree g) in
  {| buildId := buildId s; workGraph := g; order := ks;
     nodes := nds; inDegree := ix.2; adj := ix.1;
     queue := initial_queue ks ix.2; completedCount := 0;
     previewUrl := previewUrl s; promises := promises s; ctrl := ctrl s;
     world := world s |}.

(** ** The controller *)

(** Head of [while (queue.length > 0)] up to the next [await], and the code
    after the loop. *)
Definition loop_head (s : State) : State :=
  match queue s with
  | [] =>
      if decide (completedCount s = size (nodes s)) then
        set_ctrl CtlFinal
          (upd_world (emitProgress (buildId s) StepDeployed EvCompleted EmptyString) s)
      else set_ctrl (CtlFailed IncompleteError) s
  | batch =>
      set_ctrl (CtlBatch batch)
        (upd_world
           (emitProgress (buildId s) (StepBatch (length batch)) EvActive EmptyString)
           (set_sched (inDegree s) [] s))
  end.

(** A rejected element settles [Promise.all] at once if it is still pending;
    later rejections are not observed. *)
Definition reject (e : PipelineError) (s : State) : State :=
  match ctrl s with
  | CtlWave => set_ctrl (CtlFailed e) s
  | _ => s
  end.

(** Synchronous prefix of one callback of [batch.map]. *)
Definition spawn_one (s : State) (nodeId : string) : State :=
  match nodes s !! nodeId with
  | Some n =>
      let nd := node_def n in
      upd_promises (λ ps, ps ++ [{| p_nodeId := nodeId; p_node := nd; p_pc := AwaitStartEmit |}])
        (upd_world
           (emitProgress (buildId s) (StepStarting (node_id nd)) EvActive
              ("Task: " +:+ node_task nd))
           (upd_nodes (alter (set_status Running) nodeId) s))
  | None =>
      reject JsTypeError
        (upd_promises
           (λ ps, ps ++ [{| p_nodeId := nodeId;
                            p_node := {| node_id := nodeId; node_task := EmptyString;
                                         node_description := EmptyString;
                                         node_dependsOn := [] |};
                            p_pc := Rejected |}]) s)
  end.

(** [const promises = batch.map(...)] followed by [Promise.all(promises)]. *)
Definition spawn (batch : list string) (s : State) : State :=
  foldl spawn_one (set_ctrl CtlWave (upd_promises (λ _, []) s)) batch.

Definition is_fulfilled (p : Promise) : bool :=
  match p_pc p with Fulfilled => true | _ => false end.

(** The pending [await] of [executeBuildPipeline] resolves: the one of
    [emitProgress] at line 138, 175 or 245, or the one of [Promise.all] at
    line 236, which resolves once every callback of the wave has returned. *)
Definition step_ctl_ok (s : State) : option State :=
  match ctrl s with
  | CtlInit => Some (loop_head (build s))
  | CtlBatch batch => Some (spawn batch s)
  | CtlWave =>
      if forallb is_fulfilled (promises s) then Some (loop_head s) else None
  | CtlFinal =>
      Some (set_ctrl
              (CtlSucceeded {| res_buildId := buildId s;
                               res_previewUrl := previewUrl s |}) s)
  | CtlSucceeded _ | CtlFailed _ => None
  end.

(** The promise of [progressQueue.add] can reject only if [emitProgress]
    called it, that is under a truthy [buildId]. *)
Definition emit_can_reject (s : State) : bool := bool_decide (buildId s ≠ EmptyString).

(** The controller's [await emitProgress(...)] of line 138, 175 or 245
    rejects: no handler surrounds it, and [executeBuildPipeline] throws the
    error as it is. *)
Definition step_ctl_err (e : JsError) (s : State) : option State :=
  match ctrl s with
  | CtlInit | CtlBatch _ | CtlFinal =>
      if emit_can_reject s then Some (set_ctrl (CtlFailed (RawError e)) s) else None
  | CtlWave | CtlSucceeded _ | CtlFailed _ => None
  end.

(** [executeBuildPipeline] goes on from its pending [await], which has
    resolved ([None]) or has been rejected with an error ([Some e]).  The
    rejection of [Promise.all] is not an answer of the environment: it is
    the doing of a callback of the wave, see [reject]. *)
Definition step_ctl (r : option JsError) (s : State) : option State :=
  match r with
  | None => step_ctl_ok s
  | Some e => step_ctl_err e s
  end.

(** ** One callback of [batch.map] (lines 181-234) *)

Definition at_pc (i : nat) (pc : Pc) (s : State) : State :=
  upd_promises (alter (set_pc pc) i) s.

(** Entry of the [try] block: the branch on [node.task] up to the first
    [await] of the chosen branch. *)
Definition enter_try (i : nat) (p : Promise) (s : State) : State :=
  if String.prefix "generate-" (node_task (p_node p)) then at_pc i AwaitJobAdd s
  else if decide (node_task (p_node p) = "start-vm") then at_pc i AwaitVm s
  else at_pc i AwaitSkip s.

(** [node.status = "completed"; await emitProgress(...)] *)
Definition complete_node (i : nat) (p : Promise) (s : State) : State :=
  at_pc i AwaitDoneEmit
    (upd_world
       (emitProgress (buildId s) (StepCompleted (node_id (p_node p))) EvCompleted EmptyString)
       (upd_nodes (alter (set_status Completed) (p_nodeId p)) s)).

(** Body of [for (const dependentId of adj.get(nodeId) || [])].  A key
    missing from [inDegree] would store NaN, which never compares equal to
    zero; the map is left without the key. *)
Definition release_one (st : gmap string Z * list string) (dependentId : string)
    : gmap string Z * list string :=
  match st.1 !! dependentId with
  | Some k =>
      let deg := <[dependentId := (k - 1)%Z]> st.1 in
      if decide ((k - 1)%Z = 0%Z) then (deg, st.2 ++ [dependentId]) else (deg, st.2)
  | None => st
  end.

(** [completedCount++] and the release loop; the callback then returns. *)
Definition finish_node (i : nat) (p : Promise) (s : State) : State :=
  let r := foldl release_one (inDegree s, queue s)
             (default [] (adj s !! p_nodeId p)) in
  at_pc i Fulfilled
    (set_sched r.1 r.2 (set_completedCount (S (completedCount s)) s)).

(** The [catch] block up to its [await]. *)
Definition fail_node (i : nat) (p : Promise) (e : JsError) (s : State) : State :=
  at_pc i (AwaitFailEmit (errorMessage e))
    (upd_world
       (emitProgress (buildId s) (StepFailed (node_id (p_node p))) EvError
          (errorMessage e))
       (upd_nodes (alter (set_status Failed) (p_nodeId p)) s)).

(** [throw new Error(...)] at the end of the [catch] block. *)
Definition throw_task (i : nat) (p : Promise) (msg : string) (s : State) : State :=
  reject (TaskError (node_id (p_node p)) (node_task (p_node p)) msg)
    (at_pc i Rejected s).

(** An error that no handler of the callback catches: the callback rejects
    with the error as it is. *)
Definition throw_raw (i : nat) (pc : Pc) (e : JsError) (s : State) : State :=
  reject (RawError e) (at_pc i pc s).

(** [if (result.previewUrl)] *)
Definition truthy (u : option string) : bool :=
  match u with
  | Some x => if decide (x = EmptyString) then false else true
  | None => false
  end.

Definition file_of (s : State) (f c : string) : FileWrite :=
  {| fw_buildId := buildId s; fw_fileName := f; fw_code := c |}.

Definition job_of (p : Promise) : TaskJob :=
  {| tj_name := node_task (p_node p); tj_taskId := node_id (p_node p);
     tj_description := node_description (p_node p) |}.

Definition resume (i : nat) (p : Promise) (r : Outcome) (s : State) : option State :=
  match p_pc p, r with
  | AwaitStartEmit, Ok => Some (enter_try i p s)
  | AwaitJobAdd, Ok =>
      Some (at_pc i AwaitJobFinished (upd_world (add_taskJob (job_of p)) s))
  | AwaitJobFinished, OkFile f c => Some (at_pc i (AwaitMkdir f c) s)
  | AwaitMkdir f c, Ok => Some (at_pc i (AwaitWrite f c) s)
  | AwaitWrite f c, Ok =>
      Some (at_pc i (AwaitUpload f c) (upd_world (add_localFile (file_of s f c)) s))
  | AwaitUpload f c, Ok =>
      Some (complete_node i p (upd_world (add_vmFile (file_of s f c)) s))
  | AwaitVm, OkUrl u =>
      let s1 := upd_world (add_vmSession (buildId s)) s in
      Some (complete_node i p (if truthy u then set_previewUrl u s1 else s1))
  | AwaitSkip, Ok => Some (complete_node i p s)
  | AwaitDoneEmit, Ok => Some (finish_node i p s)
  | AwaitFailEmit msg, Ok => Some (throw_task i p msg s)
  | (AwaitJobAdd | AwaitJobFinished | AwaitMkdir _ _ | AwaitWrite _ _
     | AwaitUpload _ _ | AwaitVm), Err e => Some (fail_node i p e s)
  (* line 184 lies before the [try]: the node stays "running" *)
  | AwaitStartEmit, Err e =>
      if emit_can_reject s then Some (throw_raw i RejectedStart e s) else None
  (* line 212 lies inside the [try]: the [catch] block takes over *)
  | AwaitDoneEmit, Err e =>
      if emit_can_reject s then Some (fail_node i p e s) else None
  (* line 224 lies inside the [catch] block *)
  | AwaitFailEmit _, Err e =>
      if emit_can_reject s then Some (throw_raw i Rejected e s) else None
  | _, _ => None
  end.

(** ** The transition system *)

Inductive Action :=
  | Ctl                             (* the controller's await resolves *)
  | CtlErr (e : JsError)            (* the controller's await rejects *)
  | Resume (i : nat) (r : Outcome).

Definition step (s : State) (a : Action) : option State :=
  match a with
  | Ctl => step_ctl None s
  | CtlErr e => step_ctl (Some e) s
  | Resume i r =>
      match promises s !! i with
      | Some p => resume i p r s
      | None => None
      end
  end.

Fixpoint run (s : State) (acts : list Action) : option State :=
  match acts with
  | [] => Some s
  | a :: rest =>
      match step s a with
      | Some s' => run s' rest
      | None => None
      end
  end.

(** The state at the first [await] of [executeBuildPipeline(jobData)]. *)
Definition start (job : JobData) : State :=
  {| buildId := job_buildId job; workGraph := job_workGraph job; order := [];
     nodes := ∅; inDegree := ∅; adj := ∅; queue := []; completedCount := 0;
     previewUrl := None; promises := []; ctrl := CtlInit;
     world := emitProgress (job_buildId job) StepInit EvActive EmptyString emptyWorld |}.

Definition execute (job : JobData) (acts : list Action) : option State :=
  run (start job) acts.

Definition status_of (s : State) (v : string) : option NodeStatus :=
  node_status <$> nodes s !! v.

(** * Vocabulary of the specification *)

(** ** Graph predicates *)

Definition ids (g : list WorkGraphNode) : list string := node_id <$> g.

(** No two nodes share an id. *)
Definition unique_ids (g : list WorkGraphNode) : Prop := NoDup (ids g).

(** Every [dependsOn] entry names a node of the graph. *)
Definition no_dangling (g : list WorkGraphNode) : Prop :=
  Forall (λ n, Forall (λ d, d ∈ ids g) (node_dependsOn n)) g.

#[global] Instance unique_ids_dec g : Decision (unique_ids g).
Proof. unfold unique_ids. apply _. Defined.

#[global] Instance no_dangling_dec g : Decision (no_dangling g).
Proof. unfold no_dangling. apply _. Defined.

(** [depends g v u]: node [v] lists [u] in its [dependsOn] and [u] names a
    node, read off the [nodes] Map the scheduler builds. *)
Definition depends (g : list WorkGraphNode) (v u : string) : Prop :=
  ∃ n, mk_nodes g !! v = Some n ∧ u ∈ node_dependsOn (node_def n)
       ∧ is_Some (mk_nodes g !! u).

Definition cyclic (g : list WorkGraphNode) : Prop := ∃ v, tc (depends g) v v.
Definition acyclic (g : list WorkGraphNode) : Prop := ∀ v, ¬ tc (depends g) v v.

(** Number of occurrences of [x] in [l]. *)
Definition occ (x : string) (l : list string) : nat := length (filter (x =.) l).

(** The [dependsOn] entries of [v] that pass the guard [adj.has(depId)]. *)
Definition deps_of (g : list WorkGraphNode) (v : string) : list string :=
  match mk_nodes g !! v with
  | Some n => filter (λ u, is_Some (mk_nodes g !! u)) (node_dependsOn (node_def n))
  | None => []
  end.

(** ** The index built by the two nested loops *)

(** What the index must say about graph [g]. *)
Definition index_ok (g : list WorkGraphNode)
    (a : gmap string (list string)) (d : gmap string Z) : Prop :=
  (∀ u, is_Some (a !! u) ↔ u ∈ ids g) ∧
  (∀ u l w, a !! u = Some l → occ w l = occ u (deps_of g w)) ∧
  (∀ w, d !! w = if decide (w ∈ ids g)
                 then Some (Z.of_nat (length (deps_of g w))) else None).

(** The loop invariant after the nodes in [seen] have been indexed. *)
Definition index_upto (g : list WorkGraphNode) (seen : list string)
    (st : gmap string (list string) * gmap string Z) : Prop :=
  (∀ u, is_Some (st.1 !! u) ↔ u ∈ ids g) ∧
  (∀ u l w, st.1 !! u = Some l →
     occ w l = if decide (w ∈ seen) then occ u (deps_of g w) else 0) ∧
  (∀ w, st.2 !! w =
     if decide (w ∈ ids g)
     then Some (if decide (w ∈ seen) then Z.of_nat (length (deps_of g w)) else 0%Z)
     else None).

(** ** Invariants of the scheduler *)

(** The status a node has while its callback is at a program point. *)
Definition pc_status (pc : Pc) : NodeStatus :=
  match pc with
  | AwaitDoneEmit | Fulfilled => Completed
  | AwaitFailEmit _ | Rejected => Failed
  | _ => Running
  end.

Definition fulfilled (p : Promise) : Prop := p_pc p = Fulfilled.
Definition rejected (p : Promise) : Prop :=
  p_pc p = Rejected ∨ p_pc p = RejectedStart.
Definition settled (p : Promise) : Prop := fulfilled p ∨ rejected p.

#[global] Instance fulfilled_dec p : Decision (fulfilled p).
Proof. unfold fulfilled. apply _. Defined.

#[global] Instance rejected_dec p : Decision (rejected p).
Proof. unfold rejected. apply _. Defined.

#[global] Instance settled_dec p : Decision (settled p).
Proof. unfold settled. apply _. Defined.

(** [executeBuildPipeline] has thrown the error of a rejected
    [emitProgress]. *)
Definition raw_failed (s : State) : Prop := ∃ e, ctrl s = CtlFailed (RawError e).

(** A node has released its dependents once it is completed and its
    callback has returned. *)
Definition released (s : State) (u : string) : Prop :=
  status_of s u = Some Completed ∧
  Forall (λ p, p_nodeId p = u → p_pc p = Fulfilled) (promises s).

#[global] Instance released_dec s u : Decision (released s u).
Proof. unfold released. apply _. Defined.

(** The dependencies of [w] that still hold it back. *)
Definition blockers (g : list WorkGraphNode) (s : State) (w : string) : list string :=
  filter (λ u, ¬ released s u) (deps_of g w).

Definition batch_of (c : Ctrl) : list string :=
  match c with CtlBatch b => b | _ => [] end.

(** Nodes that are ready but whose callback has not started. *)
Definition ready (s : State) : list string := queue s ++ batch_of (ctrl s).

Record Core (g : list WorkGraphNode) (rdy : list string) (s : State) : Prop := {
  core_graph : workGraph s = g;
  core_order : order s = mk_order g;
  core_defs : set_status Pending <$> nodes s = mk_nodes g;
  core_adj_dom : ∀ u, is_Some (adj s !! u) ↔ u ∈ ids g;
  core_adj : ∀ u l w, adj s !! u = Some l → occ w l = occ u (deps_of g w);
  core_deg : ∀ w, inDegree s !! w =
               if decide (w ∈ ids g)
               then Some (Z.of_nat (length (blockers g s w))) else None;
  core_ready : ∀ w, w ∈ ids g →
               status_of s w ≠ Some Pending ∨ w ∈ rdy → inDegree s !! w = Some 0%Z;
  (* a batch whose announcement was rejected is dropped: its nodes stay
     pending and are in no list *)
  core_zero : ∀ w, w ∈ ids g → inDegree s !! w = Some 0%Z →
              status_of s w ≠ Some Pending ∨ w ∈ rdy ∨ raw_failed s;
  core_ready_NoDup : NoDup rdy;
  core_ready_pending : ∀ w, w ∈ rdy → status_of s w = Some Pending;
  core_prom_NoDup : NoDup (p_nodeId <$> promises s);
  core_prom : ∀ p, p ∈ promises s →
              ∃ n, nodes s !! p_nodeId p = Some n ∧ node_def n = p_node p
                   ∧ node_status n = pc_status (p_pc p);
  core_active : ∀ v, status_of s v = Some Running ∨ status_of s v = Some Failed →
                v ∈ p_nodeId <$> promises s;
  core_count : completedCount s = length (filter (released s) (order s)) }.

(** What the controller's program point says about the rest of the state. *)
Definition ctrl_ok (s : State) : Prop :=
  match ctrl s with
  | CtlInit => False
  | CtlBatch b => b ≠ [] ∧ queue s = [] ∧ Forall fulfilled (promises s)
  | CtlWave => Forall (λ p, ¬ rejected p) (promises s)
  | CtlFinal =>
      queue s = [] ∧ Forall fulfilled (promises s)
      ∧ completedCount s = size (nodes s)
  | CtlSucceeded r =>
      queue s = [] ∧ Forall fulfilled (promises s)
      ∧ completedCount s = size (nodes s)
      ∧ r = {| res_buildId := buildId s; res_previewUrl := previewUrl s |}
  | CtlFailed IncompleteError =>
      queue s = [] ∧ Forall fulfilled (promises s)
      ∧ completedCount s ≠ size (nodes s)
  | CtlFailed (TaskError v t m) =>
      ∃ p, p ∈ promises s ∧ p_pc p = Rejected
           ∧ node_id (p_node p) = v ∧ node_task (p_node p) = t
  | CtlFailed JsTypeError => False
  | CtlFailed (RawError e) => buildId s ≠ EmptyString
  end.

Definition Inv (job : JobData) (s : State) : Prop :=
  buildId s = job_buildId job ∧ Core (job_workGraph job) (ready s) s ∧ ctrl_ok s.

(** The state in which the publication of the initial event was rejected:
    the pipeline has thrown before it built anything. *)
Definition init_failed (job : JobData) (e : JsError) : State :=
  set_ctrl (CtlFailed (RawError e)) (start job).

(** ** Termination measure *)

(** Awaits a callback may still go through. *)
Definition pc_rank (pc : Pc) : nat :=
  match pc with
  | AwaitStartEmit => 8
  | AwaitJobAdd => 7
  | AwaitJobFinished => 6
  | AwaitMkdir _ _ => 5
  | AwaitWrite _ _ => 4
  | AwaitUpload _ _ | AwaitVm | AwaitSkip => 3
  | AwaitDoneEmit => 2
  | AwaitFailEmit _ => 1
  | Fulfilled | Rejected | RejectedStart => 0
  end.

Definition ctrl_rank (s : State) : nat :=
  match ctrl s with
  | CtlInit => 3 + 10 * length (workGraph s)
  | CtlWave => 2
  | CtlBatch _ | CtlFinal => 1
  | CtlSucceeded _ | CtlFailed _ => 0
  end.

Definition promise_work (ps : list Promise) : nat :=
  foldr (λ p n, pc_rank (p_pc p) + n) 0 ps.

Definition pending_count (s : State) : nat :=
  length (filter (λ k, status_of s k = Some Pending) (order s)).

Definition measure (s : State) : nat :=
  ctrl_rank s + promise_work (promises s) + 10 * pending_count s.

(** Upper bound on the number of steps of a run. *)
Definition step_bound (job : JobData) : nat := 3 + 10 * length (job_workGraph job).

(** ** Quiescence *)

(** No await is pending: nothing can resume the pipeline. *)
Definition quiescent (s : State) : Prop := ∀ a, step s a = None.

Definition terminal (c : Ctrl) : Prop :=
  match c with CtlSucceeded _ | CtlFailed _ => True | _ => False end.

(** An answer the environment may give to the await at [pc]. *)
Definition answer (pc : Pc) : Outcome :=
  match pc with
  | AwaitJobFinished => OkFile EmptyString EmptyString
  | AwaitVm => OkUrl None
  | _ => Ok
  end.

(** ** Task kinds and side effects *)

(** [node.task.startsWith("generate-")] *)
Definition is_generate (t : string) : bool := String.prefix "generate-" t.

(** The task kind recorded for an id in the [nodes] Map. *)
Definition task_in (g : list WorkGraphNode) (v : string) : option string :=
  (λ n, node_task (node_def n)) <$> mk_nodes g !! v.

(** Program points a callback can be at, given its task kind.  The
    [catch] block is open to every kind: the publication of the completed
    event lies inside the [try]. *)
Definition pc_fits (t : string) (pc : Pc) : Prop :=
  match pc with
  | AwaitJobAdd | AwaitJobFinished | AwaitMkdir _ _ | AwaitWrite _ _
  | AwaitUpload _ _ => is_generate t = true
  | AwaitVm => is_generate t = false ∧ t = "start-vm"
  | AwaitSkip => is_generate t = false ∧ t ≠ "start-vm"
  | AwaitStartEmit | AwaitDoneEmit | Fulfilled | AwaitFailEmit _ | Rejected
  | RejectedStart => True
  end.

Record Aux (g : list WorkGraphNode) (s : State) : Prop := {
  aux_fits : ∀ p, p ∈ promises s → pc_fits (node_task (p_node p)) (p_pc p);
  aux_written : ∀ p f c, p ∈ promises s → p_pc p = AwaitUpload f c →
                file_of s f c ∈ localFiles (world s);
  aux_jobs : ∀ j, j ∈ taskJobs (world s) →
             is_generate (tj_name j) = true ∧ task_in g (tj_taskId j) = Some (tj_name j);
  aux_preview : ∀ u, previewUrl s = Some u →
                ∃ v, task_in g v = Some "start-vm" ∧
                     (status_of s v = Some Completed ∨ status_of s v = Some Failed) }.

(** ** The file of a generation node *)



(** ** Progress events of a node *)

Definition trace_of (es : list ProgressEvent) (v : string)
    : list (ProgressStep * EventStatus) :=
  (λ e, (ev_step e, ev_status e)) <$> filter (λ e, event_node e = Some v) es.

(** The events published so far about node [v], in order. *)
Definition node_trace (s : State) (v : string) : list (ProgressStep * EventStatus) :=
  trace_of (events (world s)) v.

(** The events a node in a given status has gone through.  A node fails
    either before it is marked completed or, when the publication of its
    completed event is rejected, after it. *)
Definition trace_fits (v : string) (st : option NodeStatus)
    (t : list (ProgressStep * EventStatus)) : Prop :=
  match st with
  | Some Running => t = [(StepStarting v, EvActive)]
  | Some Completed =>
      t = [(StepStarting v, EvActive); (StepCompleted v, EvCompleted)]
  | Some Failed =>
      t = [(StepStarting v, EvActive); (StepFailed v, EvError)] ∨
      t = [(StepStarting v, EvActive); (StepCompleted v, EvCompleted);
           (StepFailed v, EvError)]
  | Some Pending | None => t = []
  end.

Definition trace_ok (s : State) : Prop :=
  ∀ v, trace_fits v (status_of s v) (node_trace s v).

(** ** Example jobs and runs *)

(** Decide a closed proposition by evaluation. *)
Ltac by_compute := apply (bool_decide_unpack _); vm_compute; exact I.

Definition state_after (job : JobData) (acts : list Action) : State :=
  default (start job) (execute job acts).

Definition mk_node (i t : string) (d : list string) : WorkGraphNode :=
  {| node_id := i; node_task := t; node_description := EmptyString; node_dependsOn := d |}.

Definition boom : JsError := {| err_detail := None; err_message := "boom" |}.

(** One generated page, the VM, and a lint task that needs both. *)
Definition job_diamond : JobData :=
  {| job_buildId := "b1";
     job_workGraph := [mk_node "A" "generate-page" []; mk_node "B" "start-vm" [];
                       mk_node "C" "lint" ["A"; "B"]] |}.

(** Both waves run to completion. *)
Definition run_diamond : list Action :=
  [Ctl; Ctl;
   Resume 0 Ok; Resume 1 Ok; Resume 1 (OkUrl (Some "http://vm"));
   Resume 0 Ok; Resume 0 (OkFile "app/page.tsx" "code");
   Resume 0 Ok; Resume 0 Ok; Resume 0 Ok; Resume 0 Ok; Resume 1 Ok;
   Ctl; Ctl; Resume 0 Ok; Resume 0 Ok; Resume 0 Ok; Ctl; Ctl].

(** The first wave is over and the second one is about to start. *)
Definition run_diamond_wave1 : list Action := take 13 run_diamond.



(** An independent page next to two pages that import each other. *)
Definition job_cycle : JobData :=
  {| job_buildId := "b3";
     job_workGraph := [mk_node "A" "generate-page" [];
                       mk_node "B" "generate-page" ["C"];
                       mk_node "C" "generate-page" ["B"]] |}.

(** Two independent pages. *)
Definition job_pair : JobData :=
  {| job_buildId := "b4";
     job_workGraph := [mk_node "A" "generate-page" [];
                       mk_node "B" "generate-page" []] |}.

(** The worker job of A fails and A is rejected while the worker of B is
    still generating. *)
Definition run_pair_early_reject : list Action :=
  [Ctl; Ctl; Resume 0 Ok; Resume 1 Ok; Resume 0 Ok; Resume 1 Ok;
   Resume 0 (Err boom); Resume 0 Ok].

(** B completes, then the worker job of A fails and A is rejected. *)
Definition run_pair_late_reject : list Action :=
  [Ctl; Ctl; Resume 0 Ok; Resume 1 Ok; Resume 0 Ok; Resume 1 Ok;
   Resume 1 (OkFile "b.tsx" "code");
   Resume 1 Ok; Resume 1 Ok; Resume 1 Ok; Resume 1 Ok;
   Resume 0 (Err boom); Resume 0 Ok].

(** A has entered its [catch] block; its error event is being published. *)
Definition run_pair_throwing : list Action :=
  [Ctl; Ctl; Resume 0 Ok; Resume 1 Ok; Resume 0 Ok; Resume 1 Ok;
   Resume 0 (Err boom)].

Definition promise_A_throwing : Promise :=
  {| p_nodeId := "A"; p_node := mk_node "A" "generate-page" [];
     p_pc := AwaitFailEmit "boom" |}.

(** A page that lists a dependency which is not a node of the graph. *)
Definition job_dangling : JobData :=
  {| job_buildId := "b5";
     job_workGraph := [mk_node "A" "lint" ["ghost"]] |}.

Definition run_dangling : list Action :=
  [Ctl; Ctl; Resume 0 Ok; Resume 0 Ok; Resume 0 Ok; Ctl; Ctl].

(** The upload of the page of A has just been issued. *)
Definition run_diamond_upload : list Action :=
  [Ctl; Ctl; Resume 0 Ok; Resume 0 Ok; Resume 0 (OkFile "app/page.tsx" "code");
   Resume 0 Ok; Resume 0 Ok].

(** A single node run under an empty build identifier. *)
Definition job_anonymous : JobData :=
  {| job_buildId := EmptyString; job_workGraph := [mk_node "A" "lint" []] |}.

(** The page outside the cycle has completed; the wave loop is about to
    test the queue again. *)
Definition run_cycle_drained : list Action :=
  [Ctl; Ctl; Resume 0 Ok; Resume 0 Ok; Resume 0 (OkFile "a.tsx" "code");
   Resume 0 Ok; Resume 0 Ok; Resume 0 Ok; Resume 0 Ok].




(** The progress queue refuses a job. *)
Definition queue_down : JsError :=
  {| err_detail := None; err_message := "progress queue down" |}.

(** Both workers fail, A first; the error event of B is accepted first,
    so B is the first callback to throw. *)
Definition run_pair_both_fail : list Action :=
  [Ctl; Ctl; Resume 0 Ok; Resume 1 Ok; Resume 0 Ok; Resume 1 Ok;
   Resume 0 (Err boom); Resume 1 (Err boom); Resume 1 Ok; Resume 0 Ok].

(** A single lint task. *)
Definition job_lint : JobData :=
  {| job_buildId := "b7"; job_workGraph := [mk_node "A" "lint" []] |}.

(** The lint task is marked completed, then the publication of its
    completed event is rejected. *)
Definition run_lint_unpublished : list Action :=
  [Ctl; Ctl; Resume 0 Ok; Resume 0 Ok; Resume 0 (Err queue_down)].

(** The worker of A fails, then the publication of the error event of A
    is rejected. *)
Definition run_pair_unreported : list Action :=
  [Ctl; Ctl; Resume 0 Ok; Resume 0 Ok; Resume 0 (Err boom); Resume 0 (Err queue_down)].

(** * Further vocabulary: the effect logs of the pipeline *)

(** The job [emitProgress] hands to the progress queue. *)
Definition mk_event (b : string) (m : ProgressStep) (st : EventStatus) (d : string)
    : ProgressEvent :=
  {| ev_jobId := b; ev_step := m; ev_status := st; ev_details := d |}.

(** [x] occurs in [l] at an earlier position than [y]. *)
Definition before {A} (x y : A) (l : list A) : Prop :=
  ∃ i j, i < j ∧ l !! i = Some x ∧ l !! j = Some y.

(** The pipeline has passed the completed-count check. *)
Definition passed (c : Ctrl) : Prop :=
  match c with CtlFinal | CtlSucceeded _ => True | _ => False end.

#[global] Instance passed_dec c : Decision (passed c).
Proof. destruct c; simpl; apply _. Defined.

(** The deployment event closes the event stream and occurs nowhere else. *)
Definition deployed_last (b : string) (s : State) : Prop :=
  ∃ es, events (world s) = es ++ [mk_event b StepDeployed EvCompleted EmptyString]
        ∧ Forall (λ e, ev_step e ≠ StepDeployed) es.

(** No deployment event has been published. *)
Definition undeployed (s : State) : Prop :=
  Forall (λ e, ev_step e ≠ StepDeployed) (events (world s)).

(** The event stream opens with the initial event.  It closes with the
    deployment event once the count check has been passed; a pipeline that
    has thrown the error of a rejected publication has published that
    event only if it was its publication that was rejected. *)
Definition frame_ok (b : string) (s : State) : Prop :=
  head (events (world s)) = Some (mk_event b StepInit EvActive EmptyString) ∧
  match ctrl s with
  | CtlFinal | CtlSucceeded _ => deployed_last b s
  | CtlFailed (RawError _) =>
      undeployed s ∨
      (deployed_last b s ∧ completedCount s = size (nodes s)
       ∧ Forall fulfilled (promises s))
  | _ => undeployed s
  end.

(** The "Completed" event of [u] has been published at an earlier position
    of [es] than position [j]. *)
Definition completed_before (es : list ProgressEvent) (u : string) (j : nat) : Prop :=
  ∃ i e, i < j ∧ es !! i = Some e ∧ ev_step e = StepCompleted u
         ∧ ev_status e = EvCompleted.

(** Every "Starting" event comes after the "Completed" events of the
    dependencies of its node. *)
Definition causal (g : list WorkGraphNode) (es : list ProgressEvent) : Prop :=
  ∀ v u j e, depends g v u → es !! j = Some e → ev_step e = StepStarting v →
             completed_before es u j.

(** The sizes announced by the "Starting batch of n parallel tasks" events,
    added up. *)
Definition announced (es : list ProgressEvent) : nat :=
  sum_list_with (λ e, match ev_step e with StepBatch n => n | _ => 0 end) es.

(** The number of "Starting" events. *)
Definition started (es : list ProgressEvent) : nat :=
  sum_list_with (λ e, match ev_step e with StepStarting _ => 1 | _ => 0 end) es.

(** The "Starting" events are covered by the announced batches, exactly
    so unless a rejected publication has ended the pipeline. *)
Definition batches_ok (s : State) : Prop :=
  started (events (world s)) + length (batch_of (ctrl s))
  ≤ announced (events (world s)) ∧
  (¬ raw_failed s →
   announced (events (world s))
   = started (events (world s)) + length (batch_of (ctrl s))).

(** The message a callback is about to throw, and the message of the error
    the pipeline has thrown, have been published as the details of an
    "error" event of the failed node. *)
Definition failure_logged (s : State) : Prop :=
  (∀ p m, p ∈ promises s → p_pc p = AwaitFailEmit m →
     mk_event (buildId s) (StepFailed (p_nodeId p)) EvError m ∈ events (world s)) ∧
  (∀ w t m, ctrl s = CtlFailed (TaskError w t m) →
     mk_event (buildId s) (StepFailed w) EvError m ∈ events (world s)).

(** The jobs submitted to the task queue: one per node at most, each with
    the payload of a node that has been dispatched; a callback that has not
    reached [taskQueue.add] has submitted nothing. *)
Definition jobs_ok (s : State) : Prop :=
  NoDup (tj_taskId <$> taskJobs (world s)) ∧
  (∀ j, j ∈ taskJobs (world s) →
     ∃ n, nodes s !! tj_taskId j = Some n ∧
          tj_name j = node_task (node_def n) ∧
          tj_description j = node_description (node_def n) ∧
          node_status n ≠ Pending) ∧
  (∀ p, p ∈ promises s → p_pc p = AwaitStartEmit ∨ p_pc p = AwaitJobAdd →
     p_nodeId p ∉ tj_taskId <$> taskJobs (world s)).

(** Every file uploaded to the VM has first been written locally, and
    every file is filed under the build identifier. *)
Definition files_ok (s : State) : Prop :=
  (∀ f, f ∈ vmFiles (world s) → f ∈ localFiles (world s)) ∧
  (∀ f, f ∈ localFiles (world s) → fw_buildId f = buildId s).

(** A stored preview URL is truthy and stems from a started VM; every VM
    session carries the build identifier. *)
Definition preview_ok (s : State) : Prop :=
  (∀ u, previewUrl s = Some u → u ≠ EmptyString ∧ vmSessions (world s) ≠ []) ∧
  (∀ b, b ∈ vmSessions (world s) → b = buildId s).

(** Every node that has been dispatched has all the nodes it depends on,
    directly or through other nodes, completed. *)
Definition deps_done (g : list WorkGraphNode) (s : State) : Prop :=
  ∀ v st u, status_of s v = Some st → st ≠ Pending → tc (depends g) v u →
            status_of s u = Some Completed.

(** No callback of the current wave belongs to a node that depends on the
    node of another callback of the wave. *)
Definition wave_independent (g : list WorkGraphNode) (s : State) : Prop :=
  ∀ p q, p ∈ promises s → q ∈ promises s →
         ¬ tc (depends g) (p_nodeId p) (p_nodeId q).

(** No node has failed. *)
Definition unfailed (s : State) : Prop := ∀ v, status_of s v ≠ Some Failed.

(** The environment does not reject the awaited call. *)
Definition benign (a : Action) : Prop :=
  match a with Resume _ (Err _) | CtlErr _ => False | _ => True end.

#[global] Instance terminal_dec c : Decision (terminal c).
Proof. destruct c; simpl; apply _. Defined.

#[global] Instance benign_dec a : Decision (benign a).
Proof. destruct a as [| |i []]; simpl; apply _. Defined.

(** ** Further example data *)

(** The "Starting" event of the lint task of [job_diamond]. *)
Definition event_starting_C : ProgressEvent :=
  mk_event "b1" (StepStarting "C") EvActive "Task: lint".

(** Two definitions of the same id. *)
Definition job_twins : JobData :=
  {| job_buildId := "b6";
     job_workGraph := [mk_node "A" "lint" []; mk_node "A" "generate-page" []] |}.


(** * The components around the work-graph manager *)

(** ** The orchestrator: [orchestrator/orchestrator.js]

    The processor of the BullMQ worker of the orchestration queue runs the
    pipeline for a job named "execute-plan" and returns
    [{ status: "completed", ...finalResult }]; an error of the pipeline is
    logged and thrown again.  For a job of any other name the body of the
    [if] is skipped and the processor returns [undefined]. *)

Inductive JobReturn :=
  | ReturnedUndefined
  | Returned (status buildId : string) (previewUrl : option string).

Inductive JobOutcome :=
  | JobReturned (r : JobReturn)
  | JobThrew (e : PipelineError).

(** The outcome of the processor and the effects it has had, once the
    pipeline has ended; [None] while the pipeline is still running, or when
    the environment's schedule [acts] is not one the pipeline can follow. *)
Definition processor (name : string) (job : JobData) (acts : list Action)
    : option (JobOutcome * World) :=
  if decide (name = "execute-plan") then
    match execute job acts with
    | Some s =>
        match ctrl s with
        | CtlSucceeded r =>
            Some (JobReturned (Returned "completed" (res_buildId r) (res_previewUrl r)),
                  world s)
        | CtlFailed e => Some (JobThrew e, world s)
        | _ => None
        end
    | None => None
    end
  else
    match acts with
    | [] => Some (JobReturned ReturnedUndefined, emptyWorld)
    | _ => None
    end.

(** [result?.previewUrl || 'N/A'] *)
Definition preview_or_na (r : JobReturn) : string :=
  match r with
  | Returned _ _ (Some u) => if decide (u = EmptyString) then "N/A" else u
  | _ => "N/A"
  end.

(** The line logged by [worker.on("completed", ...)]. *)
Definition completed_log (jobId : string) (r : JobReturn) : string :=
  "Job " +:+ jobId +:+ " has completed. Preview available at: " +:+ preview_or_na r.

(** The line logged by [worker.on("failed", ...)]. *)
Definition failed_log (jobId : string) (e : PipelineError) : string :=
  "Job " +:+ jobId +:+ " has FAILED: " +:+ error_text e.

(** ** The gateway's progress worker: [api_gateway/server.js]

    [const { jobId, event, data } = job.data;
     if (jobId) io.to(jobId).emit(event, data);]
    The jobs of the progress queue are the ones [emitProgress] adds; their
    [event] field is the constant "progress". *)




(** ** The worker service: [workers/main.js] *)

Inductive Handler :=
  | GenerateSharedCode | GenerateFrontendPage | GenerateBackendRoute
  | ValidateCode | FixCode | TestCode.

#[global] Instance Handler_eq_dec : EqDecision Handler.
Proof. solve_decision. Defined.

(** The [switch (job.name)] of the processor of the task queue; [None]
    stands for the [default] branch, which throws "Unknown job name". *)
Definition route (name : string) : option Handler :=
  if decide (name = "generate-types") then Some GenerateSharedCode
  else if decide (name = "generate-data-layer") then Some GenerateSharedCode
  else if decide (name = "generate-shared-util") then Some GenerateSharedCode
  else if decide (name = "generate-homepage") then Some GenerateFrontendPage
  else if decide (name = "generate-frontend-page") then Some GenerateFrontendPage
  else if decide (name = "generate-frontend-component") then Some GenerateFrontendPage
  else if decide (name = "generate-api-route") then Some GenerateBackendRoute
  else if decide (name = "validate-code") then Some ValidateCode
  else if decide (name = "fix-code") then Some FixCode
  else if decide (name = "test-code") then Some TestCode
  else None.

(** The handlers that generate a file. *)
Definition generator (h : Handler) : Prop :=
  h = GenerateSharedCode ∨ h = GenerateFrontendPage ∨ h = GenerateBackendRoute.

(** ** The progress list of the pipeline page:
       [frontend_ui/src/pages/PipelinePage.js] *)

(** An element of the [pipeline] state: [{ step, status }]. *)
Record Stage := { stage_step : string; stage_status : string }.

#[global] Instance Stage_eq_dec : EqDecision Stage.
Proof. solve_decision. Defined.

Definition set_stage_status (st : string) (p : Stage) : Stage :=
  {| stage_step := stage_step p; stage_status := st |}.

(** [setPipeline([{ step: `Build Queued (ID: ${buildId})`, status: 'active' }])] *)
Definition initial_pipeline (buildId : string) : list Stage :=
  [{| stage_step := "Build Queued (ID: " +:+ buildId +:+ ")";
      stage_status := "active" |}].

(** The state updater of [handleProgress], for an event with [data.step]
    and [data.status]. *)
Definition handleProgress (stepId status : string) (prev : list Stage) : list Stage :=
  let newPipeline :=
    match list_find (λ p, stage_step p = stepId) prev with
    | Some (existingIndex, _) => alter (set_stage_status status) existingIndex prev
    | None => prev ++ [{| stage_step := stepId; stage_status := status |}]
    end in
  if decide (status = "active")
  then (λ p, if decide (stage_status p = "active" ∧ stage_step p ≠ stepId)
             then set_stage_status "completed" p else p) <$> newPipeline
  else newPipeline.

(** The list after a sequence of progress events, oldest first. *)
Definition pipeline_after (buildId : string) (evs : list (string * string)) : list Stage :=
  foldl (λ l ev, handleProgress ev.1 ev.2 l) (initial_pipeline buildId) evs.

(** The stages that are shown as active. *)
Definition active_stages (l : list Stage) : list Stage :=
  filter (λ p, stage_status p = "active") l.

(** * The string helpers of the workers

    The helpers work on JavaScript strings with regular expressions that
    have no [u] flag, and with [trim]: both see a string as its sequence of
    UTF-16 code units.  A string is therefore a list of code units here. *)

Definition JsString := list N.

(** The code units of a literal made of ASCII characters. *)
Definition units (s : string) : JsString :=
  (λ a, Ascii.N_of_ascii a) <$> String.list_ascii_of_string s.

Definition backtick : N := 96.
Definition newline : N := 10.
Definition slash : N := 47.
Definition colon : N := 58.
Definition lbrace : N := 123.
Definition rbrace : N := 125.
Definition lbracket : N := 91.
Definition rbracket : N := 93.

(** [[a-zA-Z]] *)
Definition is_letter (c : N) : bool :=
  ((65 <=? c) && (c <=? 90) || (97 <=? c) && (c <=? 122))%N.

(** White space and line terminators, as [String.prototype.trim] strips
    them: TAB, LF, VT, FF, CR, SP, NBSP, U+1680, U+2000 to U+200A, LS, PS,
    U+202F, U+205F, U+3000 and the byte order mark. *)
Definition is_space (c : N) : bool :=
  ((9 <=? c) && (c <=? 13) || (c =? 32) || (c =? 160) || (c =? 5760)
   || (8192 <=? c) && (c <=? 8202) || (c =? 8232) || (c =? 8233)
   || (c =? 8239) || (c =? 8287) || (c =? 12288) || (c =? 65279))%N.

(** The longest prefix of code units that satisfy [f], and what follows it. *)
Fixpoint span (f : N → bool) (l : JsString) : JsString * JsString :=
  match l with
  | c :: r => if f c then let p := span f r in (c :: p.1, p.2) else ([], l)
  | [] => ([], [])
  end.

(** [s.replace(re, replacement)] for a global regular expression all of
    whose matches are non-empty.  [m l] says whether the expression matches
    at the head of [l]: it gives the number of code units of the match and
    what the match is replaced by.  The search goes from left to right and
    resumes behind each match; [skip] counts the code units of the current
    match that are still to be passed over. *)
Fixpoint replace_go (m : JsString → option (nat * JsString)) (skip : nat)
    (l : JsString) : JsString :=
  match l with
  | [] => []
  | c :: r =>
      match skip with
      | S k => replace_go m k r
      | 0 =>
          match m l with
          | Some (n, rep) => rep ++ replace_go m (n - 1) r
          | None => c :: replace_go m 0 r
          end
      end
  end.

Definition replace_all (m : JsString → option (nat * JsString)) (l : JsString)
    : JsString :=
  replace_go m 0 l.

(** [s.replace(/^prefix/, '')] *)
Definition strip_prefix (p l : JsString) : JsString :=
  if decide (take (length p) l = p) then drop (length p) l else l.

(** [s.replace(/suffix$/, '')] *)
Definition strip_suffix (p l : JsString) : JsString :=
  if decide (drop (length l - length p) l = p ∧ length p ≤ length l)
  then take (length l - length p) l else l.

(** [s.trim()] *)
Fixpoint trim_start (l : JsString) : JsString :=
  match l with
  | c :: r => if is_space c then trim_start r else l
  | [] => []
  end.

Definition trim (l : JsString) : JsString :=
  reverse (trim_start (reverse (trim_start l))).

(** ** [sanitizeLLMOutput] *)

(** The expression [```[a-zA-Z]*\n?] at the head of [l]. *)
Definition fence_open (l : JsString) : option (nat * JsString) :=
  match l with
  | c1 :: c2 :: c3 :: r =>
      if decide (c1 = backtick ∧ c2 = backtick ∧ c3 = backtick) then
        let p := span is_letter r in
        match p.2 with
        | c :: _ => if decide (c = newline) then Some (3 + length p.1 + 1, [])
                    else Some (3 + length p.1, [])
        | [] => Some (3 + length p.1, [])
        end
      else None
  | _ => None
  end.

(** The expression [```] at the head of [l]. *)
Definition fence (l : JsString) : option (nat * JsString) :=
  match l with
  | c1 :: c2 :: c3 :: _ =>
      if decide (c1 = backtick ∧ c2 = backtick ∧ c3 = backtick)
      then Some (3, []) else None
  | _ => None
  end.

(** [if (!rawCode) return ''; return rawCode.replace(...).replace(...).trim();]
    The empty string is the only falsy string. *)
Definition sanitizeLLMOutput (rawCode : JsString) : JsString :=
  match rawCode with
  | [] => []
  | _ => trim (replace_all fence (replace_all fence_open rawCode))
  end.

(** Three backticks in a row occur in [l]. *)
Definition has_fence (l : JsString) : Prop :=
  ∃ a b, l = a ++ [backtick; backtick; backtick] ++ b.

(** ** The result of a generating worker

    After its prompt is built, each of [generateSharedCode],
    [generateFrontendPage] and [generateBackendRoute] asks the model inside
    a [try] block, throws "LLM returned an empty response." on an empty
    sanitized answer, and in the [catch] block returns a file that only
    holds a comment with the error message. *)

(** What [model.generateContent] and [response.text()] deliver. *)
Inductive Llm :=
  | LlmText (text : JsString)
  | LlmThrows (message : JsString).

Record Generated := { gen_fileName : JsString; gen_code : JsString }.

Definition failed_file (taskId message : JsString) : Generated :=
  {| gen_fileName := taskId;
     gen_code := units "// FAILED TO GENERATE FILE: " ++ message |}.

Definition generate (taskId : JsString) (llm : Llm) : Generated :=
  match llm with
  | LlmText text =>
      match sanitizeLLMOutput text with
      | [] => failed_file taskId (units "LLM returned an empty response.")
      | code => {| gen_fileName := taskId; gen_code := code |}
      end
  | LlmThrows message => failed_file taskId message
  end.

(** ** [normalizePath] *)

(** The expression [{([^{}]+)}] at the head of [l], replaced by [[$1]]. *)
Definition brace_param (l : JsString) : option (nat * JsString) :=
  match l with
  | c :: r =>
      if decide (c = lbrace) then
        let p := span (λ x, negb (bool_decide (x = lbrace ∨ x = rbrace))) r in
        match p.1, p.2 with
        | _ :: _, d :: _ =>
            if decide (d = rbrace)
            then Some (length p.1 + 2, [lbracket] ++ p.1 ++ [rbracket]) else None
        | _, _ => None
        end
      else None
  | [] => None
  end.

(** The expression [:([^\/]+)] at the head of [l], replaced by [[$1]]. *)
Definition colon_param (l : JsString) : option (nat * JsString) :=
  match l with
  | c :: r =>
      if decide (c = colon) then
        let p := span (λ x, negb (bool_decide (x = slash))) r in
        match p.1 with
        | _ :: _ => Some (length p.1 + 1, [lbracket] ++ p.1 ++ [rbracket])
        | [] => None
        end
      else None
  | [] => None
  end.

(** [if (!path) return ''; return path.replace(...).replace(...);] *)
Definition normalizePath (path : JsString) : JsString :=
  match path with
  | [] => []
  | _ => replace_all colon_param (replace_all brace_param path)
  end.

(** ** Paths made of segments *)

(** A segment of a route: a fixed name or a parameter. *)
Inductive Segment :=
  | Fixed (name : JsString)
  | Param (name : JsString).

#[global] Instance Segment_eq_dec : EqDecision Segment.
Proof. solve_decision. Defined.

(** A name without any of the characters the expressions look for. *)
Definition plain (name : JsString) : Prop :=
  name ≠ [] ∧
  Forall (λ c, c ≠ slash ∧ c ≠ colon ∧ c ≠ lbrace ∧ c ≠ rbrace) name.

Definition plain_segment (g : Segment) : Prop :=
  match g with Fixed n | Param n => plain n end.

(** The route written as [/a/:id], as [/a/{id}] and as [/a/[id]]. *)
Definition render (open close : JsString) (segs : list Segment) : JsString :=
  mjoin ((λ g, match g with
               | Fixed n => [slash] ++ n
               | Param n => [slash] ++ open ++ n ++ close
               end) <$> segs).

Definition colon_path : list Segment → JsString := render [colon] [].
Definition brace_path : list Segment → JsString := render [lbrace] [rbrace].
Definition bracket_path : list Segment → JsString := render [lbracket] [rbracket].

(** The text of a segment of a bracket route, behind its slash. *)
Definition bracket_body (g : Segment) : JsString :=
  match g with
  | Fixed n => n
  | Param n => [lbracket] ++ n ++ [rbracket]
  end.

(** ** The specification lookup of [generateBackendRoute] *)

(** [taskId.replace(/^app/, '').replace(/\/route\.ts$/, '').replace(/\/index$/, '')] *)
Definition routePath (taskId : JsString) : JsString :=
  strip_suffix (units "/index")
    (strip_suffix (units "/route.ts") (strip_prefix (units "app") taskId)).

(** The test of the filter over [backend_apis.apis]:
    [normalizePath(api.path).replace(/\/$/, '') === normalizedTaskPath]. *)
Definition spec_matches (taskId path : JsString) : Prop :=
  strip_suffix [slash] (normalizePath path) = normalizePath (routePath taskId).

#[global] Instance spec_matches_dec taskId path : Decision (spec_matches taskId path).
Proof. unfold spec_matches. apply _. Defined.

(** The specifications the worker implements; [None] when it throws
    "Could not find any API specifications for task". *)
Definition apiSpecs (taskId : JsString) (paths : list JsString)
    : option (list JsString) :=
  match filter (spec_matches taskId) paths with
  | [] => None
  | l => Some l
  end.

(** The file of a route in the [app] directory. *)
Definition route_file (segs : list Segment) : JsString :=
  units "app" ++ bracket_path segs ++ units "/route.ts".

(** The route [/api/products/:id]. *)
Definition route_product : list Segment :=
  [Fixed (units "api"); Fixed (units "products"); Param (units "id")].

(** * Properties of the embedding *)

(** ** The Maps built from the job *)

Section build_facts.
Variable g : list WorkGraphNode.

Lemma mk_nodes_snoc l n :
  mk_nodes (l ++ [n]) = <[node_id n := {| node_def := n; node_status := Pending |}]> (mk_nodes l).
Proof. unfold mk_nodes. by rewrite foldl_app. Qed.

Lemma mk_nodes_lookup k n :
  mk_nodes g !! k = Some n →
  node_id (node_def n) = k ∧ node_def n ∈ g ∧ node_status n = Pending.
Proof.
  induction g as [|x l IH] using rev_ind; [done|].
  rewrite mk_nodes_snoc, lookup_insert. case_decide as Hk.
  - intros [= <-]; simpl. rewrite elem_of_app, list_elem_of_singleton. auto.
  - intros H. destruct (IH H) as (?&?&?). rewrite elem_of_app. auto.
Qed.

Lemma mk_nodes_is_Some k : is_Some (mk_nodes g !! k) ↔ k ∈ ids g.
Proof.
  unfold ids. induction g as [|x l IH] using rev_ind.
  - unfold mk_nodes; simpl. rewrite lookup_empty, elem_of_nil. split; [by intros [? ?]|done].
  - rewrite mk_nodes_snoc, fmap_app, elem_of_app, lookup_insert_is_Some', IH.
    simpl. rewrite list_elem_of_singleton. split; intros [?|?]; auto.
Qed.

Lemma mk_order_snoc l n :
  mk_order (l ++ [n]) =
  if decide (node_id n ∈ mk_order l) then mk_order l else mk_order l ++ [node_id n].
Proof. unfold mk_order. by rewrite foldl_app. Qed.

Lemma mk_order_elem k : k ∈ mk_order g ↔ k ∈ ids g.
Proof.
  unfold ids. revert k. induction g as [|x l IH] using rev_ind; [done|].
  intros k. rewrite mk_order_snoc, fmap_app, elem_of_app. simpl.
  rewrite list_elem_of_singleton. case_decide as Hx.
  - rewrite IH. rewrite IH in Hx. split; [auto|]. intros [?| ->]; auto.
  - rewrite elem_of_app, list_elem_of_singleton, IH. done.
Qed.

Lemma mk_order_NoDup : NoDup (mk_order g).
Proof.
  induction g as [|x l IH] using rev_ind; [constructor|].
  rewrite mk_order_snoc. case_decide as Hx; [done|].
  apply NoDup_app. split_and!; [done| |apply NoDup_singleton].
  intros y Hy Hy'. apply list_elem_of_singleton in Hy'. by subst.
Qed.

Lemma mk_adj_lookup k :
  mk_adj g !! k = if decide (k ∈ ids g) then Some [] else None.
Proof.
  unfold ids, mk_adj. induction g as [|x l IH] using rev_ind; [done|].
  rewrite foldl_app. simpl. rewrite lookup_insert, fmap_app. simpl.
  rewrite IH. destruct (decide (node_id x = k)) as [->|Hk].
  - rewrite decide_True; [done|set_solver].
  - destruct (decide (k ∈ node_id <$> l));
      [rewrite decide_True|rewrite decide_False]; set_solver.
Qed.

Lemma mk_inDegree_lookup k :
  mk_inDegree g !! k = if decide (k ∈ ids g) then Some 0%Z else None.
Proof.
  unfold ids, mk_inDegree. induction g as [|x l IH] using rev_ind; [done|].
  rewrite foldl_app. simpl. rewrite lookup_insert, fmap_app. simpl.
  rewrite IH. destruct (decide (node_id x = k)) as [->|Hk].
  - rewrite decide_True; [done|set_solver].
  - destruct (decide (k ∈ node_id <$> l));
      [rewrite decide_True|rewrite decide_False]; set_solver.
Qed.
End build_facts.

(** ** Counting occurrences *)

Lemma occ_nil x : occ x [] = 0.
Proof. done. Qed.

Lemma occ_app x l1 l2 : occ x (l1 ++ l2) = occ x l1 + occ x l2.
Proof. unfold occ. by rewrite filter_app, length_app. Qed.

Lemma occ_cons x y l : occ x (y :: l) = (if decide (x = y) then 1 else 0) + occ x l.
Proof. unfold occ. rewrite filter_cons. by case_decide. Qed.

Lemma occ_singleton x y : occ x [y] = if decide (x = y) then 1 else 0.
Proof. rewrite occ_cons, occ_nil. case_decide; lia. Qed.

Lemma occ_replicate x y n : occ x (replicate n y) = if decide (x = y) then n else 0.
Proof.
  induction n as [|n IH]; simpl.
  - by case_decide.
  - rewrite occ_cons, IH. case_decide; lia.
Qed.

Lemma occ_pos x l : 0 < occ x l ↔ x ∈ l.
Proof.
  induction l as [|y l IH]; [rewrite occ_nil, elem_of_nil; split; [lia|done]|].
  rewrite occ_cons, elem_of_cons, <- IH. case_decide.
  - split; [auto|lia].
  - split; [intros; right; lia|intros [?|?]; [done|lia]].
Qed.

Lemma occ_zero x l : occ x l = 0 ↔ x ∉ l.
Proof. rewrite <- occ_pos. lia. Qed.

Lemma occ_NoDup x l : NoDup l → x ∈ l → occ x l = 1.
Proof.
  induction 1 as [|y l Hy Hl IH]; [by rewrite elem_of_nil|].
  rewrite elem_of_cons, occ_cons. intros [->|Hx].
  - rewrite decide_True by done. apply occ_zero in Hy. lia.
  - rewrite decide_False by (intros ->; done). rewrite IH; done.
Qed.

Lemma occ_filter (P : string → Prop) `{!∀ x, Decision (P x)} x l :
  occ x (filter P l) = if decide (P x) then occ x l else 0.
Proof.
  induction l as [|y l IH]; [by case_decide|].
  rewrite filter_cons. destruct (decide (P y)) as [Hy|Hy].
  - rewrite !occ_cons, IH. repeat case_decide; subst; try done; lia.
  - rewrite occ_cons, IH. repeat case_decide; subst; try done; lia.
Qed.

(** Flipping a predicate at one point changes the filtered length by the
    number of occurrences of that point. *)
Lemma filter_length_flip (P Q : string → Prop)
    `{!∀ x, Decision (P x)} `{!∀ x, Decision (Q x)} k l :
  P k → ¬ Q k → (∀ x, x ≠ k → (P x ↔ Q x)) →
  length (filter P l) = length (filter Q l) + occ k l.
Proof.
  intros HP HQ Hext. induction l as [|y l IH]; [done|].
  rewrite !filter_cons, occ_cons. destruct (decide (k = y)) as [<-|Hne].
  - rewrite decide_True, decide_False by done. simpl. lia.
  - specialize (Hext y (λ H, Hne (eq_sym H))).
    destruct (decide (P y)), (decide (Q y)); simpl; try lia; tauto.
Qed.

Lemma filter_length_same (P Q : string → Prop)
    `{!∀ x, Decision (P x)} `{!∀ x, Decision (Q x)} l :
  (∀ x, x ∈ l → (P x ↔ Q x)) → length (filter P l) = length (filter Q l).
Proof.
  intros Hext. induction l as [|y l IH]; [done|].
  rewrite !filter_cons.
  assert (P y ↔ Q y) by (apply Hext; left).
  assert (length (filter P l) = length (filter Q l))
    by (apply IH; intros; apply Hext; by right).
  destruct (decide (P y)), (decide (Q y)); simpl; try lia; tauto.
Qed.

Lemma filter_length_zero (P : string → Prop) `{!∀ x, Decision (P x)} l :
  length (filter P l) = 0 ↔ ∀ x, x ∈ l → ¬ P x.
Proof.
  induction l as [|y l IH]; [split; [intros _ x Hx; by apply elem_of_nil in Hx|done]|].
  rewrite filter_cons. destruct (decide (P y)) as [Hy|Hy]; simpl.
  - split; [lia|]. intros Hl. destruct (Hl y); [left|done].
  - rewrite IH. split.
    + intros Hl x Hx. apply elem_of_cons in Hx as [->|Hx]; auto.
    + intros Hl x Hx. apply Hl. by right.
Qed.

Lemma filter_length_all (P : string → Prop) `{!∀ x, Decision (P x)} l :
  (∀ x, x ∈ l → P x) → length (filter P l) = length l.
Proof.
  intros Hall. induction l as [|y l IH]; [done|].
  rewrite filter_cons, decide_True by (apply Hall; left). simpl.
  f_equal. apply IH. intros x Hx. apply Hall. by right.
Qed.

(** ** The index built by the two nested loops *)

Section inner_loop.
Variable v : string.

Lemma add_edge_snoc st ds x :
  foldl (add_edge v) st (ds ++ [x]) = add_edge v (foldl (add_edge v) st ds) x.
Proof. by rewrite foldl_app. Qed.

Lemma add_edges_adj st ds u :
  (foldl (add_edge v) st ds).1 !! u
  = (λ l, l ++ replicate (occ u ds) v) <$> st.1 !! u.
Proof.
  induction ds as [|x ds IH] using rev_ind.
  - simpl. destruct (st.1 !! u); simpl; [|done]. by rewrite app_nil_r.
  - rewrite add_edge_snoc. unfold add_edge at 1.
    destruct ((foldl (add_edge v) st ds).1 !! x) as [l|] eqn:Hx; simpl.
    + rewrite lookup_insert. destruct (decide (x = u)) as [->|Hne].
      * rewrite IH in Hx. destruct (st.1 !! u) as [l0|]; simplify_eq/=.
        rewrite occ_app, occ_singleton, decide_True by done.
        by rewrite replicate_add, <- app_assoc.
      * rewrite IH, occ_app, occ_singleton, decide_False by done.
        by rewrite Nat.add_0_r.
    + rewrite IH. destruct (decide (x = u)) as [->|Hne].
      * rewrite IH in Hx. by destruct (st.1 !! u).
      * rewrite occ_app, occ_singleton, decide_False by done.
        by rewrite Nat.add_0_r.
Qed.

Lemma add_edges_deg_other st ds w :
  w ≠ v → (foldl (add_edge v) st ds).2 !! w = st.2 !! w.
Proof.
  intros Hne. induction ds as [|x ds IH] using rev_ind; [done|].
  rewrite add_edge_snoc. unfold add_edge at 1.
  destruct ((foldl (add_edge v) st ds).1 !! x); simpl; [|done].
  by rewrite lookup_insert_ne.
Qed.

Lemma add_edges_deg st ds k :
  st.2 !! v = Some k →
  (foldl (add_edge v) st ds).2 !! v
  = Some (k + Z.of_nat (length (filter (λ u, is_Some (st.1 !! u)) ds)))%Z.
Proof.
  intros Hk. induction ds as [|x ds IH] using rev_ind.
  - simpl. rewrite Hk. f_equal. lia.
  - rewrite add_edge_snoc. unfold add_edge at 1.
    rewrite filter_app, length_app, filter_cons, filter_nil.
    destruct ((foldl (add_edge v) st ds).1 !! x) as [l|] eqn:Hx; simpl.
    + rewrite lookup_insert_eq, IH. simpl.
      rewrite add_edges_adj in Hx.
      destruct (st.1 !! x) eqn:Hx'; [|done].
      rewrite decide_True by eauto. simpl. f_equal. lia.
    + rewrite IH. rewrite add_edges_adj in Hx.
      destruct (st.1 !! x) eqn:Hx'; [done|].
      rewrite decide_False by (by intros [? ?]). simpl. f_equal. lia.
Qed.
End inner_loop.

Section outer_loop.
Variable g : list WorkGraphNode.

Lemma index_upto_init : index_upto g [] (mk_adj g, mk_inDegree g).
Proof.
  split_and!; simpl.
  - intros u. rewrite mk_adj_lookup. case_decide; [|split; [by intros [? ?]|done]].
    split; eauto.
  - intros u l w. rewrite mk_adj_lookup. case_decide; [|done]. by intros [= <-].
  - intros w. rewrite mk_inDegree_lookup. by case_decide.
Qed.

Lemma index_upto_step seen st k :
  index_upto g seen st → k ∉ seen → k ∈ ids g →
  index_upto g (seen ++ [k]) (index_node (mk_nodes g) st k).
Proof.
  intros (Hdom & Hadj & Hdeg) Hk Hin. unfold index_node.
  destruct (mk_nodes g !! k) as [n|] eqn:Hn;
    [|apply mk_nodes_is_Some in Hin; rewrite Hn in Hin; by destruct Hin].
  destruct (mk_nodes_lookup _ _ _ Hn) as (Hid & _ & _). rewrite Hid.
  set (ds := node_dependsOn (node_def n)).
  assert (Hdeps : deps_of g k = filter (λ u, is_Some (st.1 !! u)) ds).
  { unfold deps_of. rewrite Hn. apply list_filter_iff. intros u.
    by rewrite Hdom, mk_nodes_is_Some. }
  split_and!.
  - intros u. rewrite add_edges_adj, fmap_is_Some. apply Hdom.
  - intros u l w. rewrite add_edges_adj. intros Hl.
    destruct (st.1 !! u) as [l0|] eqn:Hl0; simpl in Hl; [|done].
    injection Hl as <-.
    rewrite occ_app, occ_replicate, (Hadj u l0 w Hl0).
    destruct (decide (w = k)) as [Heq|Hne]; [subst w|].
    + rewrite decide_False by done. rewrite decide_True by set_solver.
      rewrite Hdeps, occ_filter, decide_True by eauto. done.
    + destruct (decide (w ∈ seen)).
      * rewrite decide_True by set_solver. lia.
      * rewrite decide_False by set_solver. lia.
  - intros w. destruct (decide (w = k)) as [Heq|Hne]; [subst w|].
    + specialize (Hdeg k). rewrite decide_True in Hdeg by done.
      rewrite decide_False in Hdeg by done.
      rewrite (add_edges_deg _ _ _ _ Hdeg), decide_True by done.
      rewrite decide_True by set_solver. rewrite Hdeps. f_equal.
    + rewrite add_edges_deg_other, Hdeg by done. case_decide; [|done].
      destruct (decide (w ∈ seen)).
      * by rewrite decide_True by set_solver.
      * by rewrite decide_False by set_solver.
Qed.

Lemma index_upto_all seen ks st :
  index_upto g seen st → NoDup (seen ++ ks) → (∀ k, k ∈ ks → k ∈ ids g) →
  index_upto g (seen ++ ks) (build_index ks (mk_nodes g) st).
Proof.
  unfold build_index. revert seen st.
  induction ks as [|k ks IH]; intros seen st Hst Hnd Hin; simpl.
  - by rewrite app_nil_r.
  - rewrite (assoc_L (++) seen [k] ks : seen ++ k :: ks = (seen ++ [k]) ++ ks).
    apply NoDup_app in Hnd as (Hs & Hdisj & Hks).
    apply NoDup_cons in Hks as (Hk & Hks).
    apply IH.
    + apply index_upto_step; [done| |apply Hin; left].
      intros Hk'. apply (Hdisj k Hk'). left.
    + apply NoDup_app. split_and!; [|set_solver|done].
      apply NoDup_app. split_and!; [done|set_solver|apply NoDup_singleton].
    + intros k' Hk'. apply Hin. by right.
Qed.

Lemma build_index_ok :
  let ix := build_index (mk_order g) (mk_nodes g) (mk_adj g, mk_inDegree g) in
  index_ok g ix.1 ix.2.
Proof.
  pose proof (index_upto_all [] (mk_order g) _ index_upto_init) as H.
  simpl in H. destruct H as (Hdom & Hadj & Hdeg).
  { apply mk_order_NoDup. }
  { intros k. by rewrite mk_order_elem. }
  split_and!; [done| |].
  - intros u l w Hl. rewrite (Hadj u l w Hl). case_decide as Hw; [done|].
    unfold deps_of. rewrite mk_order_elem, <- mk_nodes_is_Some in Hw.
    destruct (mk_nodes g !! w); [exfalso; eauto|done].
  - intros w. rewrite Hdeg. case_decide as Hw; [|done].
    by rewrite decide_True by (by apply mk_order_elem).
Qed.
End outer_loop.

(** ** The release loop of a completed node *)

Lemma release_one_snoc st l d :
  foldl release_one st (l ++ [d]) = release_one (foldl release_one st l) d.
Proof. by rewrite foldl_app. Qed.

Lemma release_loop deg q l :
  (∀ v, v ∈ l → ∃ k, deg !! v = Some k ∧ (Z.of_nat (occ v l) ≤ k)%Z) →
  (∀ v, (foldl release_one (deg, q) l).1 !! v
        = (λ k, (k - Z.of_nat (occ v l))%Z) <$> deg !! v) ∧
  ∃ pushed,
    (foldl release_one (deg, q) l).2 = q ++ pushed ∧ NoDup pushed ∧
    (∀ v, v ∈ pushed ↔ v ∈ l ∧ deg !! v = Some (Z.of_nat (occ v l))).
Proof.
  induction l as [|d l IH] using rev_ind; intros Hpre.
  - split.
    + intros v. simpl. destruct (deg !! v) as [k|]; simpl; [|done].
      f_equal. rewrite occ_nil. lia.
    + exists []. split_and!; [by rewrite app_nil_r|constructor|].
      intros v. rewrite !elem_of_nil. tauto.
  - destruct IH as (Hdeg & pushed & Hq & Hnd & Hpushed).
    { intros v Hv. destruct (Hpre v) as (k & Hk & Hle); [set_solver|].
      exists k. split; [done|]. rewrite occ_app in Hle. lia. }
    destruct (Hpre d) as (k & Hk & Hle); [set_solver|].
    rewrite occ_app, occ_singleton, decide_True in Hle by done.
    rewrite release_one_snoc.
    set (r := foldl release_one (deg, q) l) in *. unfold release_one.
    rewrite (Hdeg d), Hk. simpl.
    assert (Hnotin : d ∉ pushed).
    { rewrite Hpushed, Hk. intros [_ [= ?]]. lia. }
    split.
    + intros v. destruct (decide ((k - Z.of_nat (occ d l) - 1)%Z = 0%Z)); simpl.
      all: rewrite lookup_insert; destruct (decide (d = v)) as [<-|Hne].
      all: rewrite ?Hk, ?Hdeg, ?occ_app, ?occ_singleton; simpl.
      all: rewrite ?decide_True by done.
      all: try (f_equal; lia).
      all: rewrite decide_False by done.
      all: destruct (deg !! v); simpl; [f_equal; lia|done].
    + destruct (decide ((k - Z.of_nat (occ d l) - 1)%Z = 0%Z)) as [Hz|Hz]; simpl.
      * exists (pushed ++ [d]). rewrite Hq. split_and!.
        -- by rewrite app_assoc.
        -- apply NoDup_app. split_and!; [done|set_solver|apply NoDup_singleton].
        -- intros v. rewrite elem_of_app, list_elem_of_singleton, Hpushed.
           rewrite elem_of_app, list_elem_of_singleton, occ_app, occ_singleton.
           destruct (decide (v = d)) as [->|Hne].
           ++ rewrite Hk. split; [intros _|auto]. split; [auto|]. f_equal. lia.
           ++ rewrite Nat.add_0_r. tauto.
      * exists pushed. rewrite Hq. split_and!; [done..|].
        intros v. rewrite Hpushed.
        rewrite elem_of_app, list_elem_of_singleton, occ_app, occ_singleton.
        destruct (decide (v = d)) as [->|Hne].
        -- rewrite Hk. split; [intros [_ [= ?]]; lia|intros [_ [= ?]]; lia].
        -- rewrite Nat.add_0_r. tauto.
Qed.

(** ** The invariant and what follows from it *)

(** *** Facts that follow from [Core] *)

Section core_facts.
Context {g : list WorkGraphNode} {rdy : list string} {s : State}.
Hypothesis HC : Core g rdy s.

Lemma core_node_iff k : is_Some (nodes s !! k) ↔ k ∈ ids g.
Proof.
  rewrite <- mk_nodes_is_Some, <- (core_defs _ _ _ HC), lookup_fmap.
  by rewrite fmap_is_Some.
Qed.

Lemma core_node_def k n :
  nodes s !! k = Some n →
  mk_nodes g !! k = Some (set_status Pending n) ∧ node_id (node_def n) = k.
Proof.
  intros Hn.
  assert (H : mk_nodes g !! k = Some (set_status Pending n)).
  { by rewrite <- (core_defs _ _ _ HC), lookup_fmap, Hn. }
  split; [done|]. by destruct (mk_nodes_lookup _ _ _ H) as (? & _ & _).
Qed.

Lemma core_order_elem k : k ∈ order s ↔ k ∈ ids g.
Proof. rewrite (core_order _ _ _ HC). apply mk_order_elem. Qed.

Lemma core_order_NoDup : NoDup (order s).
Proof. rewrite (core_order _ _ _ HC). apply mk_order_NoDup. Qed.

Lemma core_size : size (nodes s) = length (order s).
Proof.
  rewrite <- (size_dom (D := gset string)).
  rewrite <- (size_list_to_set (C := gset string) (order s)) by apply core_order_NoDup.
  f_equal. apply set_eq. intros k.
  by rewrite elem_of_dom, elem_of_list_to_set, core_node_iff, core_order_elem.
Qed.

Lemma core_status k : k ∈ ids g → ∃ st, status_of s k = Some st.
Proof.
  intros Hk. apply core_node_iff in Hk as [n Hn].
  exists (node_status n). unfold status_of. by rewrite Hn.
Qed.

Lemma core_deps_ids w u : u ∈ deps_of g w → u ∈ ids g ∧ w ∈ ids g.
Proof.
  unfold deps_of. destruct (mk_nodes g !! w) eqn:Hw; [|by rewrite elem_of_nil].
  rewrite list_elem_of_filter, !(mk_nodes_is_Some g). intros [Hu _].
  split; [done|]. apply mk_nodes_is_Some. eauto.
Qed.

Lemma core_prom_status p :
  p ∈ promises s → status_of s (p_nodeId p) = Some (pc_status (p_pc p)).
Proof.
  intros Hp. destruct (core_prom _ _ _ HC p Hp) as (n & Hn & _ & Hst).
  unfold status_of. by rewrite Hn; simpl; rewrite Hst.
Qed.

Lemma core_prom_unique p q :
  p ∈ promises s → q ∈ promises s → p_nodeId p = p_nodeId q → p = q.
Proof.
  intros Hp Hq Heq.
  apply list_elem_of_lookup in Hp as [i Hi], Hq as [j Hj].
  assert (i = j) as ->; [|congruence].
  eapply NoDup_lookup; [apply (core_prom_NoDup _ _ _ HC)| |].
  - by rewrite list_lookup_fmap, Hi.
  - by rewrite list_lookup_fmap, Hj; simpl; rewrite Heq.
Qed.

(** A zero in-degree means every passing dependency has been released. *)
Lemma core_deg_zero w :
  w ∈ ids g →
  (inDegree s !! w = Some 0%Z ↔ ∀ u, u ∈ deps_of g w → released s u).
Proof.
  intros Hw. rewrite (core_deg _ _ _ HC), decide_True by done.
  unfold blockers. split.
  - intros [= Hlen] u Hu. assert (Hlen' := proj1 (Nat2Z.inj_iff _ 0) Hlen).
    destruct (decide (released s u)) as [|Hn]; [done|].
    by destruct (proj1 (filter_length_zero _ _) Hlen' u Hu).
  - intros Hall. f_equal.
    rewrite (proj2 (filter_length_zero _ _)); [done|]. intros u Hu Hn. auto.
Qed.
End core_facts.

(** *** Preservation: a callback moves on without returning *)

Lemma pc_status_not_pending pc : pc_status pc ≠ Pending.
Proof. by destruct pc. Qed.

Lemma lookup_set_status st k (m : gmap string Node) w :
  node_status <$> alter (set_status st) k m !! w
  = if decide (k = w) then (λ _, st) <$> m !! w else node_status <$> m !! w.
Proof.
  rewrite lookup_alter. case_decide; [subst|done]. by destruct (m !! w).
Qed.

Lemma fmap_set_status_alter st k (m : gmap string Node) :
  set_status Pending <$> alter (set_status st) k m = set_status Pending <$> m.
Proof.
  apply map_eq. intros w. rewrite !lookup_fmap, lookup_alter.
  case_decide; [subst|done]. by destruct (m !! w).
Qed.

Lemma fmap_nodeId_alter pc i (l : list Promise) :
  p_nodeId <$> alter (set_pc pc) i l = p_nodeId <$> l.
Proof.
  rewrite (list_fmap_alter _ (set_pc pc) id).
  - by apply list_alter_id.
  - by apply Forall_forall.
Qed.

Section update.
Context {g : list WorkGraphNode} {rdy : list string} {s s' : State}.
Context {i : nat} {p : Promise} {pc' : Pc}.
Hypothesis HC : Core g rdy s.
Hypothesis Hi : promises s !! i = Some p.
Hypothesis Hpc : p_pc p ≠ Fulfilled.
Hypothesis Hpc' : pc' ≠ Fulfilled.
Hypothesis Hnodes : nodes s' = alter (set_status (pc_status pc')) (p_nodeId p) (nodes s).
Hypothesis Hproms : promises s' = alter (set_pc pc') i (promises s).
Hypothesis Hgraph : workGraph s' = workGraph s.
Hypothesis Horder : order s' = order s.
Hypothesis Hadj : adj s' = adj s.
Hypothesis Hdeg : inDegree s' = inDegree s.
Hypothesis Hcount : completedCount s' = completedCount s.
Hypothesis Hraw : raw_failed s → raw_failed s'.

Local Lemma upd_p_in : p ∈ promises s.
Proof. apply list_elem_of_lookup. eauto. Qed.

Local Lemma upd_status w :
  status_of s' w = if decide (p_nodeId p = w) then Some (pc_status pc') else status_of s w.
Proof.
  unfold status_of. rewrite Hnodes, lookup_set_status.
  case_decide; [subst|done].
  destruct (core_prom _ _ _ HC p upd_p_in) as (n & -> & _). done.
Qed.

Local Lemma upd_status_old : status_of s (p_nodeId p) = Some (pc_status (p_pc p)).
Proof. apply (core_prom_status HC), upd_p_in. Qed.

Local Lemma upd_released u : released s' u ↔ released s u.
Proof.
  unfold released. rewrite upd_status, Hproms.
  destruct (decide (p_nodeId p = u)) as [<-|Hne].
  - split; intros [_ HF]; exfalso.
    + rewrite Forall_lookup in HF. specialize (HF i (set_pc pc' p)).
      rewrite list_lookup_alter_eq, Hi in HF. by apply Hpc', HF.
    + rewrite Forall_lookup in HF. by apply Hpc, (HF i p Hi).
  - apply and_iff_compat_l. rewrite !Forall_lookup. split; intros HF j q Hq.
    + destruct (decide (i = j)) as [<-|Hij].
      * rewrite Hi in Hq. injection Hq as <-. done.
      * apply (HF j). by rewrite list_lookup_alter_ne.
    + destruct (decide (i = j)) as [<-|Hij].
      * rewrite list_lookup_alter_eq, Hi in Hq. injection Hq as <-. done.
      * rewrite list_lookup_alter_ne in Hq by done. by apply (HF j).
Qed.

Local Lemma upd_not_pending w :
  status_of s' w ≠ Some Pending ↔ status_of s w ≠ Some Pending.
Proof.
  rewrite upd_status. case_decide as Hw; [subst w|done].
  rewrite upd_status_old. split; intros _ [= H]; by apply pc_status_not_pending in H.
Qed.

Lemma Core_update : Core g rdy s'.
Proof.
  destruct HC as [G1 G2 G3 G4 G5 G6 G7 G7b G8 G9 G10 G11 G12 G13].
  split.
  - by rewrite Hgraph.
  - by rewrite Horder.
  - by rewrite Hnodes, fmap_set_status_alter.
  - by rewrite Hadj.
  - by rewrite Hadj.
  - intros w. rewrite Hdeg, G6. case_decide; [|done]. do 2 f_equal.
    unfold blockers. apply filter_length_same. intros u _.
    by rewrite upd_released.
  - intros w Hw. rewrite Hdeg, upd_not_pending. by apply G7.
  - intros w Hw. rewrite Hdeg, upd_not_pending. intros Hz.
    destruct (G7b w Hw Hz) as [?|[?|?]]; auto.
  - done.
  - intros w Hw. rewrite upd_status. case_decide as Hk; [subst w|by apply G9].
    apply G9 in Hw. rewrite upd_status_old in Hw. injection Hw as Hw.
    by apply pc_status_not_pending in Hw.
  - by rewrite Hproms, fmap_nodeId_alter.
  - intros q Hq. rewrite Hproms in Hq.
    apply list_elem_of_lookup in Hq as [j Hj]. rewrite Hnodes.
    destruct (decide (i = j)) as [<-|Hij].
    + rewrite list_lookup_alter_eq, Hi in Hj. injection Hj as <-. simpl.
      destruct (G11 p upd_p_in) as (n & Hn & Hd & Hst).
      exists (set_status (pc_status pc') n). by rewrite lookup_alter_eq, Hn.
    + rewrite list_lookup_alter_ne in Hj by done.
      assert (Hq : q ∈ promises s) by (apply list_elem_of_lookup; eauto).
      destruct (G11 q Hq) as (n & Hn & Hd & Hst). exists n.
      rewrite lookup_alter_ne; [done|]. intros Heq. apply Hij.
      eapply NoDup_lookup; [apply G10| |].
      * by rewrite list_lookup_fmap, Hi.
      * by rewrite list_lookup_fmap, Hj; simpl; rewrite Heq.
  - intros v. rewrite Hproms, fmap_nodeId_alter, upd_status.
    case_decide as Hk; [subst v|apply G12].
    intros _. apply list_elem_of_fmap. exists p. split; [done|apply upd_p_in].
  - rewrite Hcount, Horder, G13. apply filter_length_same. intros u _.
    by rewrite upd_released.
Qed.
End update.

(** *** Preservation: a completed callback returns *)

Section finish.
Context {g : list WorkGraphNode} {s s' : State} {i : nat} {p : Promise}.
Hypothesis HC : Core g (queue s) s.
Hypothesis Hi : promises s !! i = Some p.
Hypothesis Hpc : p_pc p = AwaitDoneEmit.
Let r := foldl release_one (inDegree s, queue s) (default [] (adj s !! p_nodeId p)).
Hypothesis Hnodes : nodes s' = nodes s.
Hypothesis Hproms : promises s' = alter (set_pc Fulfilled) i (promises s).
Hypothesis Hgraph : workGraph s' = workGraph s.
Hypothesis Horder : order s' = order s.
Hypothesis Hadj : adj s' = adj s.
Hypothesis Hdeg : inDegree s' = r.1.
Hypothesis Hqueue : queue s' = r.2.
Hypothesis Hcount : completedCount s' = S (completedCount s).
Hypothesis Hraw : raw_failed s → raw_failed s'.

Local Lemma fin_p_in : p ∈ promises s.
Proof. apply list_elem_of_lookup. eauto. Qed.

Local Lemma fin_status w : status_of s' w = status_of s w.
Proof. unfold status_of. by rewrite Hnodes. Qed.

Local Lemma fin_completed : status_of s (p_nodeId p) = Some Completed.
Proof. rewrite (core_prom_status HC _ fin_p_in), Hpc. done. Qed.

Local Lemma fin_in_ids : p_nodeId p ∈ ids g.
Proof.
  apply (core_node_iff HC). pose proof fin_completed as H.
  unfold status_of in H. destruct (nodes s !! p_nodeId p); [eauto|done].
Qed.

Local Lemma fin_not_released : ¬ released s (p_nodeId p).
Proof.
  intros [_ HF]. rewrite Forall_lookup in HF.
  specialize (HF i p Hi eq_refl). by rewrite Hpc in HF.
Qed.

Local Lemma fin_index j q :
  promises s !! j = Some q → p_nodeId q = p_nodeId p → j = i.
Proof.
  intros Hj Heq. eapply NoDup_lookup; [apply (core_prom_NoDup _ _ _ HC)| |].
  - by rewrite list_lookup_fmap, Hj.
  - by rewrite list_lookup_fmap, Hi; simpl; rewrite Heq.
Qed.

Local Lemma fin_released : released s' (p_nodeId p).
Proof.
  split; [rewrite fin_status; apply fin_completed|].
  rewrite Hproms, Forall_lookup. intros j q Hq Heq.
  destruct (decide (i = j)) as [<-|Hij].
  - rewrite list_lookup_alter_eq, Hi in Hq. by injection Hq as <-.
  - rewrite list_lookup_alter_ne in Hq by done.
    by destruct Hij; symmetry; apply (fin_index j q).
Qed.

Local Lemma fin_released_other u :
  u ≠ p_nodeId p → (released s' u ↔ released s u).
Proof.
  intros Hne. unfold released. rewrite fin_status, Hproms.
  apply and_iff_compat_l. rewrite !Forall_lookup. split; intros HF j q Hq.
  - destruct (decide (i = j)) as [<-|Hij].
    + rewrite Hi in Hq. injection Hq as <-. by intros ?.
    + apply (HF j). by rewrite list_lookup_alter_ne.
  - destruct (decide (i = j)) as [<-|Hij].
    + rewrite list_lookup_alter_eq, Hi in Hq. injection Hq as <-. by intros ?.
    + rewrite list_lookup_alter_ne in Hq by done. by apply (HF j).
Qed.

Local Lemma fin_blockers w :
  length (blockers g s w) = length (blockers g s' w) + occ (p_nodeId p) (deps_of g w).
Proof.
  unfold blockers. apply filter_length_flip.
  - apply fin_not_released.
  - intros H. apply H, fin_released.
  - intros u Hu. by rewrite fin_released_other.
Qed.

Local Lemma fin_adj :
  ∃ l, adj s !! p_nodeId p = Some l ∧
       ∀ w, occ w l = occ (p_nodeId p) (deps_of g w).
Proof.
  destruct (proj2 (core_adj_dom _ _ _ HC (p_nodeId p)) fin_in_ids) as [l Hl].
  exists l. split; [done|]. intros w. by apply (core_adj _ _ _ HC _ _ _ Hl).
Qed.

Local Lemma fin_loop :
  ∃ l pushed,
    adj s !! p_nodeId p = Some l ∧
    (∀ w, occ w l = occ (p_nodeId p) (deps_of g w)) ∧
    (∀ w, inDegree s' !! w = (λ k, (k - Z.of_nat (occ w l))%Z) <$> inDegree s !! w) ∧
    queue s' = queue s ++ pushed ∧ NoDup pushed ∧
    (∀ w, w ∈ pushed ↔ w ∈ l ∧ inDegree s !! w = Some (Z.of_nat (occ w l))).
Proof.
  destruct fin_adj as (l & Hl & Hocc). exists l.
  destruct (release_loop (inDegree s) (queue s) l) as (H1 & pushed & H2 & H3 & H4).
  { intros v Hv. apply occ_pos in Hv. rewrite Hocc in Hv.
    apply occ_pos in Hv. destruct (core_deps_ids _ _ Hv) as [_ Hvin].
    rewrite (core_deg _ _ _ HC), decide_True by done. eexists. split; [done|].
    rewrite fin_blockers, Hocc. lia. }
  exists pushed. subst r. rewrite Hl in *. simpl in *.
  rewrite Hdeg, Hqueue. done.
Qed.

Lemma Core_finish : Core g (queue s') s'.
Proof.
  destruct fin_loop as (l & pushed & Hl & Hocc & Hdeg' & Hq' & Hnd & Hpushed).
  assert (Hle : ∀ w, w ∈ ids g →
    inDegree s !! w = Some (Z.of_nat (length (blockers g s' w) + occ w l))).
  { intros w Hw. rewrite (core_deg _ _ _ HC), decide_True by done.
    by rewrite fin_blockers, Hocc. }
  assert (Hlin : ∀ w, w ∈ l → w ∈ ids g).
  { intros w Hw. apply occ_pos in Hw. rewrite Hocc in Hw. apply occ_pos in Hw.
    by destruct (core_deps_ids _ _ Hw). }
  assert (Hone : occ (p_nodeId p) (order s) = 1).
  { apply occ_NoDup; [apply (core_order_NoDup HC)|].
    apply (core_order_elem HC), fin_in_ids. }
  destruct HC as [G1 G2 G3 G4 G5 G6 G7 G7b G8 G9 G10 G11 G12 G13].
  split.
  - by rewrite Hgraph.
  - by rewrite Horder.
  - by rewrite Hnodes.
  - by rewrite Hadj.
  - by rewrite Hadj.
  - intros w. rewrite Hdeg'. case_decide as Hw.
    + rewrite (Hle w Hw). simpl. f_equal. lia.
    + by rewrite G6, decide_False by done.
  - intros w Hw. rewrite Hdeg', (Hle w Hw), fin_status, Hq', elem_of_app. simpl.
    specialize (G7 w Hw). rewrite (Hle w Hw) in G7. rewrite Hpushed, (Hle w Hw).
    intros [Hs|[Hs|[_ [= Hs]]]].
    + assert (H := G7 (or_introl Hs)). injection H as H. f_equal. lia.
    + assert (H := G7 (or_intror Hs)). injection H as H. f_equal. lia.
    + f_equal. lia.
  - intros w Hw. rewrite Hdeg', (Hle w Hw), fin_status, Hq', elem_of_app. simpl.
    specialize (G7b w Hw). rewrite (Hle w Hw) in G7b. rewrite Hpushed, (Hle w Hw).
    intros [= Hz]. destruct (decide (occ w l = 0)) as [Hz'|Hz'].
    + rewrite Hz' in G7b. destruct G7b as [?|[?|?]]; [f_equal; lia|auto..].
    + right; left; right. split; [apply occ_pos; lia|f_equal; lia].
  - rewrite Hq'. apply NoDup_app. split_and!; [done| |done].
    intros w Hw Hw'. apply Hpushed in Hw' as [Hw' Hdw].
    assert (Hwin := Hlin w Hw').
    assert (H := G7 w Hwin (or_intror Hw)).
    rewrite Hdw in H. injection H as H. apply occ_pos in Hw'. lia.
  - intros w. rewrite Hq', elem_of_app, fin_status. intros [Hw|Hw]; [by apply G9|].
    apply Hpushed in Hw as [Hw Hdw]. assert (Hwin := Hlin w Hw).
    destruct (decide (status_of s w = Some Pending)) as [|Hn]; [done|].
    assert (H := G7 w Hwin (or_introl Hn)).
    rewrite Hdw in H. injection H as H. apply occ_pos in Hw. lia.
  - by rewrite Hproms, fmap_nodeId_alter.
  - intros q Hq. rewrite Hproms in Hq. rewrite Hnodes.
    apply list_elem_of_lookup in Hq as [j Hj].
    destruct (decide (i = j)) as [<-|Hij].
    + rewrite list_lookup_alter_eq, Hi in Hj. injection Hj as <-. simpl.
      destruct (G11 p fin_p_in) as (n & Hn & Hd & Hst). exists n.
      by rewrite Hst, Hpc.
    + rewrite list_lookup_alter_ne in Hj by done.
      apply G11, list_elem_of_lookup. eauto.
  - intros v. rewrite Hproms, fmap_nodeId_alter, fin_status. apply G12.
  - rewrite Hcount, Horder, G13.
    rewrite (filter_length_flip (released s') (released s) (p_nodeId p) (order s)).
    + rewrite Hone. lia.
    + apply fin_released.
    + apply fin_not_released.
    + intros u Hu. by apply fin_released_other.
Qed.
End finish.

(** *** Preservation: a wave is started *)

Lemma Core_drop_promises g rdy s :
  Core g rdy s → Forall fulfilled (promises s) → ¬ raw_failed s →
  Core g rdy (set_ctrl CtlWave (upd_promises (λ _, []) s)).
Proof.
  intros HC Hful Hnr.
  assert (Hrel : ∀ u, released (set_ctrl CtlWave (upd_promises (λ _, []) s)) u
                      ↔ released s u).
  { intros u. unfold released, status_of. simpl. apply and_iff_compat_l.
    split; [intros _|by constructor].
    eapply Forall_impl; [apply Hful|]. by intros q Hq _. }
  assert (Hact : ∀ v, ¬ (status_of s v = Some Running ∨ status_of s v = Some Failed)).
  { intros v Hv. pose proof (core_active _ _ _ HC v Hv) as Hin.
    apply list_elem_of_fmap in Hin as (q & -> & Hq).
    rewrite Forall_forall in Hful. specialize (Hful q Hq).
    rewrite (core_prom_status HC q Hq), Hful in Hv. by destruct Hv. }
  destruct HC as [G1 G2 G3 G4 G5 G6 G7 G7b G8 G9 G10 G11 G12 G13].
  split; simpl; try done.
  - intros w. rewrite G6. case_decide; [|done]. do 2 f_equal.
    unfold blockers. apply filter_length_same. intros u _. by rewrite Hrel.
  - intros w Hw Hz. destruct (G7b w Hw Hz) as [?|[?|?]]; auto.
  - constructor.
  - intros q Hq. by apply elem_of_nil in Hq.
  - intros v Hv. by destruct (Hact v).
  - rewrite G13. apply filter_length_same. intros u _. by rewrite Hrel.
Qed.

Lemma Core_spawn_one g w rest s :
  Core g (w :: rest) s → Core g rest (spawn_one s w).
Proof.
  intros HC.
  assert (Hw : status_of s w = Some Pending)
    by (apply (core_ready_pending _ _ _ HC); left).
  unfold spawn_one. unfold status_of in Hw.
  destruct (nodes s !! w) as [n|] eqn:Hn; [|done]. simpl in Hw.
  injection Hw as Hw.
  set (s' := upd_promises _ _).
  assert (Hst : ∀ u, status_of s' u =
                     if decide (w = u) then Some Running else status_of s u).
  { intros u. unfold status_of. simpl. rewrite lookup_set_status.
    case_decide; [subst u|done]. by rewrite Hn. }
  assert (Hfresh : w ∉ p_nodeId <$> promises s).
  { intros Hin. apply list_elem_of_fmap in Hin as (q & Heq & Hq).
    pose proof (core_prom_status HC q Hq) as H. rewrite <- Heq in H.
    unfold status_of in H. rewrite Hn in H. simpl in H. injection H as H.
    rewrite Hw in H. symmetry in H. by apply pc_status_not_pending in H. }
  assert (Hrel : ∀ u, released s' u ↔ released s u).
  { intros u. unfold released. rewrite Hst. simpl.
    rewrite Forall_app, Forall_singleton. simpl.
    destruct (decide (w = u)) as [<-|Hne].
    - unfold status_of. rewrite Hn. simpl. rewrite Hw. split; intros [? _]; done.
    - split; [intros [? [? _]]; done|intros [? ?]; split_and!; done]. }
  pose proof (core_node_def HC w n Hn) as [_ Hid].
  destruct HC as [G1 G2 G3 G4 G5 G6 G7 G7b G8 G9 G10 G11 G12 G13].
  split; simpl; try done.
  - by rewrite fmap_set_status_alter.
  - intros u. fold (inDegree s'). rewrite G6. case_decide; [|done]. do 2 f_equal.
    unfold blockers. apply filter_length_same. intros x _. by rewrite Hrel.
  - intros u Hu. fold (status_of s' u). rewrite Hst. intros Hor. apply (G7 u Hu).
    rewrite elem_of_cons.
    destruct (decide (w = u)) as [<-|Hne]; [right; by left|].
    destruct Hor; auto.
  - intros u Hu Hz. fold (status_of s' u). rewrite Hst.
    destruct (decide (w = u)) as [<-|Hne]; [by left|].
    destruct (G7b u Hu Hz) as [?|[Hin|?]]; auto.
    apply elem_of_cons in Hin as [?|?]; [by subst|auto].
  - by apply NoDup_cons in G8 as [_ ?].
  - intros u Hu. rewrite Hst. case_decide as Hwu; [subst u|apply G9; by right].
    apply NoDup_cons in G8 as [? _]. done.
  - rewrite fmap_app. simpl. apply NoDup_app. split_and!; [done| |apply NoDup_singleton].
    intros x Hx Hx'. apply list_elem_of_singleton in Hx'. by subst.
  - intros q Hq. apply elem_of_app in Hq as [Hq|Hq].
    + destruct (G11 q Hq) as (m & Hm & Hd & Hs). exists m.
      rewrite lookup_alter_ne; [done|]. intros ->. apply Hfresh.
      apply list_elem_of_fmap. eauto.
    + apply list_elem_of_singleton in Hq as ->. simpl.
      exists (set_status Running n). by rewrite lookup_alter_eq, Hn.
  - intros v. fold (status_of s' v). rewrite Hst, fmap_app, elem_of_app. simpl.
    case_decide as Hwv; [subst v; intros _; right; by left|].
    intros Hv. left. by apply G12.
  - rewrite G13. apply filter_length_same. intros u _. by rewrite Hrel.
Qed.

Lemma Core_spawn_loop g batch rest s :
  Core g (batch ++ rest) s → Core g rest (foldl spawn_one s batch).
Proof.
  revert s. induction batch as [|w batch IH]; intros s HC; [done|].
  simpl. apply IH. by apply Core_spawn_one.
Qed.

(** The callbacks of a wave all start at their first [await], the
    controller waits on [Promise.all], and the queue is untouched. *)
Lemma spawn_one_shape g w rest s :
  Core g (w :: rest) s →
  ctrl (spawn_one s w) = ctrl s ∧ queue (spawn_one s w) = queue s ∧
  buildId (spawn_one s w) = buildId s ∧
  ∃ n, nodes s !! w = Some n ∧
       promises (spawn_one s w) =
       promises s ++ [{| p_nodeId := w; p_node := node_def n; p_pc := AwaitStartEmit |}].
Proof.
  intros HC.
  assert (Hw : status_of s w = Some Pending)
    by (apply (core_ready_pending _ _ _ HC); left).
  unfold spawn_one. unfold status_of in Hw.
  destruct (nodes s !! w) as [n|] eqn:Hn; [|done]. simpl.
  split_and!; [done..|]. by exists n.
Qed.

Lemma spawn_loop_shape g batch rest s :
  Core g (batch ++ rest) s →
  ctrl (foldl spawn_one s batch) = ctrl s ∧
  queue (foldl spawn_one s batch) = queue s ∧
  buildId (foldl spawn_one s batch) = buildId s ∧
  ∃ ps, promises (foldl spawn_one s batch) = promises s ++ ps ∧
        p_nodeId <$> ps = batch ∧ Forall (λ p, p_pc p = AwaitStartEmit) ps.
Proof.
  revert s. induction batch as [|w batch IH]; intros s HC; simpl.
  - split_and!; [done..|]. exists []. by rewrite app_nil_r.
  - destruct (spawn_one_shape _ _ _ _ HC) as (Hc & Hq & Hb & n & Hn & Hp).
    destruct (IH (spawn_one s w) (Core_spawn_one _ _ _ _ HC)) as (Hc' & Hq' & Hb' & ps & Hps & Hids & Hall).
    rewrite Hc', Hq', Hb', Hc, Hq, Hb. split_and!; [done..|].
    eexists (_ :: ps). rewrite Hps, Hp, <- app_assoc. simpl. split_and!; [done| |].
    + simpl. f_equal. exact Hids.
    + by constructor.
Qed.

Lemma alter_status_id st k (m : gmap string Node) n :
  m !! k = Some n → node_status n = st → alter (set_status st) k m = m.
Proof.
  intros Hn Hst. apply alter_id. intros x Hx. rewrite Hn in Hx.
  injection Hx as <-. destruct n. simpl in *. by subst.
Qed.

(** A callback moves between program points of the same status. *)
Lemma Core_move g rdy s s' i p pc' :
  Core g rdy s → promises s !! i = Some p →
  p_pc p ≠ Fulfilled → pc' ≠ Fulfilled → pc_status pc' = pc_status (p_pc p) →
  nodes s' = nodes s → promises s' = alter (set_pc pc') i (promises s) →
  workGraph s' = workGraph s → order s' = order s → adj s' = adj s →
  inDegree s' = inDegree s → completedCount s' = completedCount s →
  (raw_failed s → raw_failed s') →
  Core g rdy s'.
Proof.
  intros HC Hi Hpc Hpc' Hst Hnodes. eapply Core_update; try done.
  rewrite Hnodes. symmetry.
  assert (Hp : p ∈ promises s) by (apply list_elem_of_lookup; eauto).
  destruct (core_prom _ _ _ HC p Hp) as (n & Hn & _ & Hs).
  eapply alter_status_id; [done|]. by rewrite Hst.
Qed.

(** *** Preservation: building the index and the loop head *)

Lemma Core_build job :
  let s := build (start job) in Core (job_workGraph job) (queue s) s.
Proof.
  set (g := job_workGraph job). simpl. fold g.
  pose proof (build_index_ok g) as (Hdom & Hadj & Hdeg). simpl in *.
  set (ix := build_index (mk_order g) (mk_nodes g) (mk_adj g, mk_inDegree g)) in *.
  set (s := build (start job)).
  assert (Hst : ∀ u st, status_of s u = Some st → st = Pending).
  { intros u st. unfold status_of. simpl. fold g.
    destruct (mk_nodes g !! u) as [n|] eqn:Hn; [|done]. simpl. intros [= <-].
    by destruct (mk_nodes_lookup _ _ _ Hn) as (_ & _ & ?). }
  assert (Hrel : ∀ u, ¬ released s u).
  { intros u [Hu _]. by apply Hst in Hu. }
  split; simpl; fold g; fold ix; try done.
  - apply map_eq. intros k. rewrite lookup_fmap.
    destruct (mk_nodes g !! k) as [n|] eqn:Hn; [|done]. simpl. f_equal.
    destruct (mk_nodes_lookup _ _ _ Hn) as (_ & _ & ?). destruct n. simpl in *. by subst.
  - intros w. rewrite Hdeg. case_decide; [|done]. do 2 f_equal.
    unfold blockers. symmetry. apply filter_length_all. intros u _. apply Hrel.
  - intros w Hw. unfold initial_queue. rewrite list_elem_of_filter, mk_order_elem.
    intros [Hp|[? _]]; [|done]. destruct Hp.
    apply mk_nodes_is_Some in Hw as [n Hn].
    unfold status_of. simpl. fold g. rewrite Hn. simpl.
    by destruct (mk_nodes_lookup _ _ _ Hn) as (_ & _ & ->).
  - intros w Hw Hz. right; left. unfold initial_queue.
    by rewrite list_elem_of_filter, mk_order_elem.
  - apply NoDup_filter, mk_order_NoDup.
  - intros w. unfold initial_queue. rewrite list_elem_of_filter, mk_order_elem.
    intros [_ Hw]. apply mk_nodes_is_Some in Hw as [n Hn].
    unfold status_of. simpl. fold g. rewrite Hn. simpl.
    by destruct (mk_nodes_lookup _ _ _ Hn) as (_ & _ & ->).
  - constructor.
  - intros p Hp. by apply elem_of_nil in Hp.
  - intros v [Hv|Hv]; by apply Hst in Hv.
  - symmetry. apply filter_length_zero. intros u _. apply Hrel.
Qed.

Lemma ready_loop_head s : ready (loop_head s) = queue s.
Proof.
  unfold ready, loop_head. destruct (queue s) eqn:Hq; [|done].
  case_decide; simpl; by rewrite Hq.
Qed.

Lemma Core_loop_head g rdy s :
  Core g rdy s → ¬ raw_failed s → Core g rdy (loop_head s).
Proof.
  intros [G1 G2 G3 G4 G5 G6 G7 G7b G8 G9 G10 G11 G12 G13] Hnr.
  unfold loop_head. destruct (queue s); [case_decide|]; split; try done.
  all: intros w Hw Hz; destruct (G7b w Hw Hz) as [?|[?|?]]; auto; done.
Qed.

Lemma ctrl_ok_loop_head s :
  Forall fulfilled (promises s) → ctrl_ok (loop_head s).
Proof.
  intros Hful. unfold ctrl_ok, loop_head.
  destruct (queue s) eqn:Hq; [case_decide|]; simpl; by rewrite ?Hq.
Qed.

(** *** The invariant holds in every reachable state *)

(** While a callback has not settled the controller waits on the wave or
    has thrown from inside the wave. *)
Lemma unsettled_ctrl s p :
  ctrl_ok s → p ∈ promises s → ¬ settled p →
  ready s = queue s ∧
  (ctrl s = CtlWave ∨ (∃ v t m, ctrl s = CtlFailed (TaskError v t m)) ∨ raw_failed s).
Proof.
  unfold ctrl_ok, ready, settled, raw_failed. intros Hok Hp Hns.
  destruct (ctrl s) as [|b| | |r|[v t m| | |e]]; simpl; try done.
  - destruct Hok as (_ & _ & HF). rewrite Forall_forall in HF. destruct Hns; auto.
  - rewrite app_nil_r; auto.
  - destruct Hok as (_ & HF & _). rewrite Forall_forall in HF. destruct Hns; auto.
  - destruct Hok as (_ & HF & _). rewrite Forall_forall in HF. destruct Hns; auto.
  - rewrite app_nil_r. split; [done|]. right; left. eauto.
  - destruct Hok as (_ & HF & _). rewrite Forall_forall in HF. destruct Hns; auto.
  - rewrite app_nil_r. split; [done|]. right; right. eauto.
Qed.

Lemma ctrl_ok_update s s' i p pc' :
  ctrl_ok s → promises s !! i = Some p → ¬ settled p →
  pc' ≠ Rejected → pc' ≠ RejectedStart → buildId s' = buildId s →
  ctrl s' = ctrl s → promises s' = alter (set_pc pc') i (promises s) →
  ctrl_ok s'.
Proof.
  intros Hok Hi Hns Hpc' Hpc'' Hbid Hctrl Hproms.
  assert (Hp : p ∈ promises s) by (apply list_elem_of_lookup; eauto).
  destruct (unsettled_ctrl s p Hok Hp Hns) as [_ [Hc|[(v & t & m & Hc)|[e Hc]]]];
    unfold ctrl_ok in *; rewrite Hctrl, Hc in *; rewrite ?Hproms, ?Hbid.
  - rewrite Forall_lookup in *. intros j q Hq.
    destruct (decide (i = j)) as [<-|Hij].
    + rewrite list_lookup_alter_eq, Hi in Hq. injection Hq as <-.
      unfold rejected. simpl. by intros [?|?].
    + rewrite list_lookup_alter_ne in Hq by done. eauto.
  - destruct Hok as (q & Hq & Hrej & Hv & Ht). exists q. split_and!; try done.
    apply list_elem_of_lookup in Hq as [j Hj]. apply list_elem_of_lookup. exists j.
    rewrite list_lookup_alter_ne; [done|]. intros <-. rewrite Hi in Hj.
    injection Hj as <-. apply Hns. right. by left.
  - done.
Qed.

Lemma buildId_loop_head s : buildId (loop_head s) = buildId s.
Proof. unfold loop_head. destruct (queue s); [by case_decide|done]. Qed.

Lemma forallb_fulfilled ps :
  forallb is_fulfilled ps = true → Forall fulfilled ps.
Proof.
  rewrite forallb_forall, Forall_forall. intros H p Hp.
  apply list_elem_of_In, H in Hp. unfold is_fulfilled, fulfilled in *.
  by destruct (p_pc p).
Qed.

Lemma Core_set_ctrl g rdy s c :
  Core g rdy s → (raw_failed s → raw_failed (set_ctrl c s)) →
  Core g rdy (set_ctrl c s).
Proof.
  intros [G1 G2 G3 G4 G5 G6 G7 G7b G8 G9 G10 G11 G12 G13] Hraw.
  split; try done.
  intros w Hw Hz. destruct (G7b w Hw Hz) as [?|[?|?]]; auto.
Qed.

(** The pipeline throws a raw error: what was ready is dropped. *)
Lemma Core_halt g rdy s e :
  Core g rdy s → Core g [] (set_ctrl (CtlFailed (RawError e)) s).
Proof.
  intros [G1 G2 G3 G4 G5 G6 G7 G7b G8 G9 G10 G11 G12 G13].
  split; try done.
  - intros w Hw [Hs|Hin]; [|by apply elem_of_nil in Hin]. apply G7; auto.
  - intros w Hw Hz. right; right. by exists e.
  - constructor.
  - intros w Hw. by apply elem_of_nil in Hw.
Qed.

Lemma Inv_init job : Inv job (loop_head (build (start job))).
Proof.
  split_and!.
  - by rewrite buildId_loop_head.
  - rewrite ready_loop_head. apply Core_loop_head; [apply Core_build|].
    by intros [e He].
  - apply ctrl_ok_loop_head. constructor.
Qed.

Lemma Inv_ctl job s s' : Inv job s → step_ctl_ok s = Some s' → Inv job s'.
Proof.
  intros (Hb & HC & Hok). unfold step_ctl_ok. unfold ctrl_ok, ready in *.
  destruct (ctrl s) as [|b| | |r|e] eqn:Hc; simpl in *; try done.
  - intros [= <-]. destruct Hok as (Hne & Hq & Hful). rewrite Hq in HC. simpl in HC.
    assert (Hnr : ¬ raw_failed s) by (intros [e He]; congruence).
    pose proof (Core_drop_promises _ _ _ HC Hful Hnr) as HC0.
    rewrite <- (app_nil_r b) in HC0.
    pose proof (Core_spawn_loop _ _ _ _ HC0) as HC1.
    destruct (spawn_loop_shape _ _ _ _ HC0) as (Hc1 & Hq1 & Hb1 & ps & Hps & Hids & Hall).
    fold (spawn b s) in *. simpl in *.
    split; [|split].
    + by rewrite Hb1.
    + unfold ready. by rewrite Hq1, Hq, Hc1.
    + unfold ctrl_ok. rewrite Hc1, Hps. simpl.
      eapply Forall_impl; [apply Hall|]. intros p Hp [Hr|Hr]; congruence.
  - destruct (forallb is_fulfilled (promises s)) eqn:Hf; [|done].
    assert (Hnr : ¬ raw_failed s) by (intros [e He]; congruence).
    intros [= <-]. rewrite app_nil_r in HC. split_and!.
    + by rewrite buildId_loop_head.
    + rewrite ready_loop_head. by apply Core_loop_head.
    + by apply ctrl_ok_loop_head, forallb_fulfilled.
  - intros [= <-]. split; [done|split].
    + unfold ready. simpl. rewrite app_nil_r in *. apply Core_set_ctrl; [done|].
      intros [e He]. congruence.
    + unfold ctrl_ok. simpl. by destruct Hok as (? & ? & ?).
Qed.

Lemma emit_can_reject_true s : emit_can_reject s = true → buildId s ≠ EmptyString.
Proof. unfold emit_can_reject. by intros ?%bool_decide_eq_true. Qed.

(** A rejected publication of the controller ends the pipeline. *)
Lemma step_ctl_err_inv e s s' :
  step_ctl_err e s = Some s' →
  buildId s ≠ EmptyString ∧ s' = set_ctrl (CtlFailed (RawError e)) s ∧
  (ctrl s = CtlInit ∨ (∃ b, ctrl s = CtlBatch b) ∨ ctrl s = CtlFinal).
Proof.
  unfold step_ctl_err. intros H.
  destruct (ctrl s); try done; destruct (emit_can_reject s) eqn:Hcan; try done.
  all: injection H as <-; apply emit_can_reject_true in Hcan; split_and!; eauto.
Qed.

Lemma Inv_ctl_err job e s s' : Inv job s → step_ctl_err e s = Some s' → Inv job s'.
Proof.
  intros (Hb & HC & Hok) Hstep.
  destruct (step_ctl_err_inv _ _ _ Hstep) as (Hne & -> & Hc).
  assert (Hq : queue s = []).
  { unfold ctrl_ok in Hok. destruct Hc as [Hc|[[b Hc]|Hc]]; rewrite Hc in Hok;
      [done|by destruct Hok as (_ & ? & _)|by destruct Hok as (? & _)]. }
  split_and!; [done| |done]. unfold ready. simpl. rewrite Hq. by eapply Core_halt.
Qed.

Lemma reject_ctrl e s :
  ctrl (reject e s) = match ctrl s with CtlWave => CtlFailed e | c => c end.
Proof. unfold reject. destruct (ctrl s) eqn:Hc; simpl; by rewrite ?Hc. Qed.

Lemma reject_fields e s :
  nodes (reject e s) = nodes s ∧ workGraph (reject e s) = workGraph s ∧
  order (reject e s) = order s ∧ adj (reject e s) = adj s ∧
  inDegree (reject e s) = inDegree s ∧ queue (reject e s) = queue s ∧
  completedCount (reject e s) = completedCount s ∧ buildId (reject e s) = buildId s ∧
  previewUrl (reject e s) = previewUrl s ∧ world (reject e s) = world s ∧
  promises (reject e s) = promises s.
Proof. unfold reject. by destruct (ctrl s). Qed.

Lemma reject_raw_failed e s : raw_failed s → raw_failed (reject e s).
Proof. intros [e' He]. exists e'. by rewrite reject_ctrl, He. Qed.

Lemma throw_task_ctrl s i p msg :
  ctrl (throw_task i p msg s) =
  match ctrl s with
  | CtlWave => CtlFailed (TaskError (node_id (p_node p)) (node_task (p_node p)) msg)
  | c => c
  end.
Proof. unfold throw_task. by rewrite reject_ctrl. Qed.

Lemma throw_task_promises s i p msg :
  promises (throw_task i p msg s) = alter (set_pc Rejected) i (promises s).
Proof.
  unfold throw_task. by destruct (reject_fields
    (TaskError (node_id (p_node p)) (node_task (p_node p)) msg) (at_pc i Rejected s))
    as (_&_&_&_&_&_&_&_&_&_&->).
Qed.

Lemma throw_task_fields s i p msg :
  let s' := throw_task i p msg s in
  nodes s' = nodes s ∧ workGraph s' = workGraph s ∧ order s' = order s ∧
  adj s' = adj s ∧ inDegree s' = inDegree s ∧ queue s' = queue s ∧
  completedCount s' = completedCount s ∧ buildId s' = buildId s ∧
  previewUrl s' = previewUrl s ∧ world s' = world s.
Proof.
  unfold throw_task. destruct (reject_fields
    (TaskError (node_id (p_node p)) (node_task (p_node p)) msg) (at_pc i Rejected s))
    as (->&->&->&->&->&->&->&->&->&->&_). done.
Qed.

Lemma throw_raw_ctrl s i pc e :
  ctrl (throw_raw i pc e s) =
  match ctrl s with CtlWave => CtlFailed (RawError e) | c => c end.
Proof. unfold throw_raw. by rewrite reject_ctrl. Qed.

Lemma throw_raw_promises s i pc e :
  promises (throw_raw i pc e s) = alter (set_pc pc) i (promises s).
Proof.
  unfold throw_raw.
  by destruct (reject_fields (RawError e) (at_pc i pc s)) as (_&_&_&_&_&_&_&_&_&_&->).
Qed.

Lemma throw_raw_fields s i pc e :
  let s' := throw_raw i pc e s in
  nodes s' = nodes s ∧ workGraph s' = workGraph s ∧ order s' = order s ∧
  adj s' = adj s ∧ inDegree s' = inDegree s ∧ queue s' = queue s ∧
  completedCount s' = completedCount s ∧ buildId s' = buildId s ∧
  previewUrl s' = previewUrl s ∧ world s' = world s.
Proof.
  unfold throw_raw. destruct (reject_fields (RawError e) (at_pc i pc s))
    as (->&->&->&->&->&->&->&->&->&->&_). done.
Qed.

(** A callback rejects: the controller, if it waits on the wave, throws
    the callback's error. *)
Lemma ctrl_ok_reject s i p pc err :
  ctrl_ok s → promises s !! i = Some p → ¬ settled p →
  pc = Rejected ∨ pc = RejectedStart →
  match err with
  | TaskError v t _ => pc = Rejected ∧ v = node_id (p_node p) ∧ t = node_task (p_node p)
  | RawError _ => buildId s ≠ EmptyString
  | _ => False
  end →
  ctrl_ok (reject err (at_pc i pc s)).
Proof.
  intros Hok Hi Hns Hpc Herr.
  assert (Hp : p ∈ promises s) by (apply list_elem_of_lookup; eauto).
  destruct (reject_fields err (at_pc i pc s)) as (_&_&_&_&_&_&_&Hbid&_&_&Hps).
  unfold ctrl_ok. rewrite reject_ctrl, Hps, Hbid. simpl.
  destruct (unsettled_ctrl s p Hok Hp Hns) as [_ [Hc|[(v & t & m & Hc)|[e Hc]]]];
    unfold ctrl_ok in Hok; rewrite Hc in *.
  - destruct err as [v t m| | |e]; try done.
    destruct Herr as (-> & -> & ->).
    exists (set_pc Rejected p). split_and!; try done.
    apply list_elem_of_lookup. exists i. by rewrite list_lookup_alter_eq, Hi.
  - destruct Hok as (q & Hq & Hrej & Hv & Ht). exists q. split_and!; try done.
    apply list_elem_of_lookup in Hq as [j Hj]. apply list_elem_of_lookup. exists j.
    rewrite list_lookup_alter_ne; [done|]. intros <-. rewrite Hi in Hj.
    injection Hj as <-. apply Hns. right. by left.
  - done.
Qed.

Lemma ctrl_ok_throw s i p msg :
  ctrl_ok s → promises s !! i = Some p → ¬ settled p →
  ctrl_ok (throw_task i p msg s).
Proof.
  intros Hok Hi Hns. unfold throw_task.
  eapply ctrl_ok_reject; [done|done|done|by left|done].
Qed.

Lemma ctrl_ok_throw_raw s i p pc e :
  ctrl_ok s → promises s !! i = Some p → ¬ settled p →
  pc = Rejected ∨ pc = RejectedStart → buildId s ≠ EmptyString →
  ctrl_ok (throw_raw i pc e s).
Proof.
  intros Hok Hi Hns Hpc Hne. unfold throw_raw.
  eapply ctrl_ok_reject; [done|done|done|done|done].
Qed.

Lemma Core_throw g s i p pc' err :
  Core g (queue s) s → promises s !! i = Some p →
  p_pc p ≠ Fulfilled → pc' ≠ Fulfilled → pc_status pc' = pc_status (p_pc p) →
  Core g (queue (reject err (at_pc i pc' s))) (reject err (at_pc i pc' s)).
Proof.
  intros HC Hi Hpc Hpc' Hst.
  destruct (reject_fields err (at_pc i pc' s)) as (F1&F2&F3&F4&F5&F6&F7&F8&F9&F10&F11).
  rewrite F6. eapply (Core_move _ _ _ _ _ _ pc');
    [exact HC|exact Hi|done|done|done|done..|].
  intros H. apply reject_raw_failed. exact H.
Qed.

Lemma ctrl_throw s i p msg :
  batch_of (ctrl (throw_task i p msg s)) = batch_of (ctrl s).
Proof. rewrite throw_task_ctrl. by destruct (ctrl s). Qed.

Lemma ctrl_throw_raw s i pc e :
  batch_of (ctrl (throw_raw i pc e s)) = batch_of (ctrl s).
Proof. rewrite throw_raw_ctrl. by destruct (ctrl s). Qed.

Lemma resume_unsettled_pc i p r s s' : resume i p r s = Some s' → ¬ settled p.
Proof.
  intros Hres [H|[H|H]]; unfold fulfilled in *; unfold resume in Hres;
    rewrite H in Hres; by destruct r.
Qed.

Lemma Inv_resume job s i p r s' :
  Inv job s → promises s !! i = Some p → resume i p r s = Some s' → Inv job s'.
Proof.
  intros (Hb & HC & Hok) Hi Hres.
  assert (Hp : p ∈ promises s) by (apply list_elem_of_lookup; eauto).
  assert (Hns : ¬ settled p) by (by eapply resume_unsettled_pc).
  destruct (unsettled_ctrl s p Hok Hp Hns) as [Hrdy Hctl].
  rewrite Hrdy in HC.
  assert (Hbatch : batch_of (ctrl s) = [])
    by (by destruct Hctl as [->|[(?&?&?& ->)|[? ->]]]).
  unfold resume in Hres.
  destruct (p_pc p) eqn:Hpc, r; try done.
  all: try (destruct (emit_can_reject s) eqn:Hcan; [|done];
            apply emit_can_reject_true in Hcan).
  all: injection Hres as <-.
  all: try (progress unfold enter_try;
            destruct (String.prefix "generate-" (node_task (p_node p)));
            [|destruct (decide (node_task (p_node p) = "start-vm"))]).
  all: try match goal with |- context [truthy ?u] => destruct (truthy u) end.
  all: (split;
        [first [done
               |by match goal with
                   | |- context [throw_task _ _ ?m _] =>
                       destruct (throw_task_fields s i p m) as (_&_&_&_&_&_&_&->&_)
                   | |- context [throw_raw _ ?pc ?e _] =>
                       destruct (throw_raw_fields s i pc e) as (_&_&_&_&_&_&_&->&_)
                   end]
        |split]).
  all: unfold complete_node, fail_node, finish_node.
  all: try match goal with
       | |- ctrl_ok (at_pc _ ?pc _) =>
           eapply (ctrl_ok_update _ _ _ _ pc);
           [exact Hok|exact Hi|exact Hns|done|done|reflexivity|reflexivity|reflexivity]
       end.
  all: try (by apply ctrl_ok_throw).
  all: try (apply (ctrl_ok_throw_raw _ _ p); [done|done|done|by auto|done]).
  all: unfold ready; rewrite ?ctrl_throw, ?ctrl_throw_raw; simpl;
       rewrite ?Hbatch, ?app_nil_r.
  all: unfold complete_node, fail_node.
  all: try match goal with
       | |- Core _ _ (at_pc _ ?pc _) =>
           first [ eapply (Core_move _ _ _ _ _ _ pc);
                   [exact HC|exact Hi|by rewrite Hpc|done|by rewrite Hpc
                   |reflexivity..|by intros ?]
                 | eapply (Core_update (pc' := pc));
                   [exact HC|exact Hi|by rewrite Hpc|done|reflexivity..|by intros ?] ]
       end.
  all: try (apply (Core_throw _ _ _ p);
            [exact HC|exact Hi|by rewrite Hpc|done|by rewrite Hpc]).
  match goal with
  | |- Core _ _ ?s1 =>
      apply (Core_finish (s := s) (s' := s1) (i := i) (p := p));
      [exact HC|exact Hi|exact Hpc|reflexivity..|by intros ?]
  end.
Qed.

Lemma Inv_step job s a s' : Inv job s → step s a = Some s' → Inv job s'.
Proof.
  intros HI. destruct a as [|e|i r]; simpl.
  - by apply Inv_ctl.
  - by apply Inv_ctl_err.
  - destruct (promises s !! i) as [p|] eqn:Hi; [|done]. by apply Inv_resume.
Qed.

Lemma Inv_run job s acts s' : Inv job s → run s acts = Some s' → Inv job s'.
Proof.
  revert s. induction acts as [|a acts IH]; intros s HI; simpl.
  - by intros [= <-].
  - destruct (step s a) as [s1|] eqn:Hs; [|done]. apply IH. by eapply Inv_step.
Qed.

Lemma init_failed_quiescent job e a : step (init_failed job e) a = None.
Proof. by destruct a as [| |[|i] r]. Qed.

Lemma run_quiescent s acts s' :
  (∀ a, step s a = None) → run s acts = Some s' → acts = [] ∧ s' = s.
Proof.
  intros Hq. destruct acts as [|a acts]; simpl; [by intros [= <-]|].
  by rewrite Hq.
Qed.

(** Every state reached by a run is the start state, the state in which
    the initial publication was rejected, or satisfies [Inv]. *)
Lemma execute_cases job acts s :
  execute job acts = Some s →
  (acts = [] ∧ s = start job) ∨
  (∃ e, acts = [CtlErr e] ∧ job_buildId job ≠ EmptyString ∧ s = init_failed job e) ∨
  (∃ acts', acts = Ctl :: acts' ∧ Inv job s).
Proof.
  unfold execute. destruct acts as [|a acts]; simpl; [intros [= <-]; by left|].
  destruct a as [|e|i r]; simpl; [| |done].
  - intros Hrun. right; right. exists acts. split; [done|].
    eapply Inv_run; [apply Inv_init|done].
  - unfold step_ctl_err. simpl.
    destruct (emit_can_reject (start job)) eqn:Hcan; [|done]. intros Hrun.
    apply emit_can_reject_true in Hcan.
    destruct (run_quiescent _ _ _ (init_failed_quiescent job e) Hrun) as [-> ->].
    right; left. by exists e.
Qed.

Theorem Inv_reachable job acts s :
  execute job (Ctl :: acts) = Some s → Inv job s.
Proof.
  intros Hex. destruct (execute_cases _ _ _ Hex) as [[? _]|[(e & ? & _)|(a' & _ & HI)]];
    done.
Qed.

(** ** What one step changes *)

Lemma spawn_one_status g w rest s v :
  Core g (w :: rest) s →
  status_of (spawn_one s w) v = if decide (w = v) then Some Running else status_of s v.
Proof.
  intros HC.
  assert (Hw : status_of s w = Some Pending)
    by (apply (core_ready_pending _ _ _ HC); left).
  unfold spawn_one. unfold status_of in *.
  destruct (nodes s !! w) as [n|] eqn:Hn; [|done]. simpl.
  rewrite lookup_set_status. case_decide; [subst v|done]. by rewrite Hn.
Qed.

Lemma spawn_loop_status g batch rest s v :
  Core g (batch ++ rest) s →
  status_of (foldl spawn_one s batch) v
  = if decide (v ∈ batch) then Some Running else status_of s v.
Proof.
  revert s. induction batch as [|w batch IH]; intros s HC; simpl.
  - done.
  - rewrite (IH _ (Core_spawn_one _ _ _ _ HC)), (spawn_one_status _ _ _ _ _ HC).
    destruct (decide (v ∈ batch)).
    + by rewrite decide_True by (by right).
    + destruct (decide (w = v)) as [->|Hne].
      * by rewrite decide_True by left.
      * rewrite decide_False; [done|]. rewrite elem_of_cons. naive_solver.
Qed.

(** Fields a wave start never touches. *)
Lemma spawn_one_frame s w :
  let s' := spawn_one s w in
  workGraph s' = workGraph s ∧ order s' = order s ∧ adj s' = adj s ∧
  inDegree s' = inDegree s ∧ queue s' = queue s ∧
  completedCount s' = completedCount s ∧ previewUrl s' = previewUrl s ∧
  buildId s' = buildId s.
Proof.
  unfold spawn_one. destruct (nodes s !! w); simpl; [done|].
  unfold reject. simpl. by destruct (ctrl s).
Qed.

Lemma spawn_loop_frame batch s :
  let s' := foldl spawn_one s batch in
  workGraph s' = workGraph s ∧ order s' = order s ∧ adj s' = adj s ∧
  inDegree s' = inDegree s ∧ queue s' = queue s ∧
  completedCount s' = completedCount s ∧ previewUrl s' = previewUrl s ∧
  buildId s' = buildId s.
Proof.
  revert s. induction batch as [|w batch IH]; intros s; simpl; [done|].
  destruct (IH (spawn_one s w)) as (->&->&->&->&->&->&->&->).
  apply spawn_one_frame.
Qed.

Lemma loop_head_frame s :
  let s' := loop_head s in
  workGraph s' = workGraph s ∧ order s' = order s ∧ nodes s' = nodes s ∧
  adj s' = adj s ∧ inDegree s' = inDegree s ∧ promises s' = promises s ∧
  completedCount s' = completedCount s ∧ previewUrl s' = previewUrl s ∧
  buildId s' = buildId s.
Proof. unfold loop_head. destruct (queue s); [by case_decide|done]. Qed.

(** How a resumed callback writes [node.status]. *)
Lemma resume_nodes i p r s s' :
  resume i p r s = Some s' →
  nodes s' = nodes s ∨
  (pc_status (p_pc p) = Running ∧
   ∃ st, (st = Completed ∨ st = Failed) ∧
         nodes s' = alter (set_status st) (p_nodeId p) (nodes s)) ∨
  (p_pc p = AwaitDoneEmit ∧ (∃ e, r = Err e) ∧
   nodes s' = alter (set_status Failed) (p_nodeId p) (nodes s)).
Proof.
  unfold resume. destruct (p_pc p) eqn:Hpc, r; try done.
  all: try (destruct (emit_can_reject s); [|done]).
  all: intros [= <-].
  all: try (progress unfold enter_try;
            destruct (String.prefix "generate-" (node_task (p_node p)));
            [|destruct (decide (node_task (p_node p) = "start-vm"))]).
  all: try match goal with |- context [truthy ?u] => destruct (truthy u) end.
  all: try (by left).
  all: try (right; left; split; [done|]; exists Completed; by split; [left|]).
  all: try (right; left; split; [done|]; exists Failed; by split; [right|]).
  all: try (right; right; split_and!; [done|by eexists|done]).
  all: left.
  - by destruct (throw_raw_fields s i RejectedStart e) as (->&_).
  - by destruct (throw_task_fields s i p msg) as (->&_).
  - by destruct (throw_raw_fields s i Rejected e) as (->&_).
Qed.

(** The status of a node only moves along
    pending -> running -> completed | failed, and each move is made by the
    code that owns it. *)
Lemma step_status job s a s' v :
  Inv job s → step s a = Some s' →
  status_of s' v = status_of s v
  ∨ (a = Ctl ∧ v ∈ batch_of (ctrl s) ∧
     status_of s v = Some Pending ∧ status_of s' v = Some Running)
  ∨ (∃ i r p, a = Resume i r ∧ promises s !! i = Some p ∧ p_nodeId p = v ∧
       status_of s v = Some Running ∧
       (status_of s' v = Some Completed ∨ status_of s' v = Some Failed))
  ∨ (∃ i e p, a = Resume i (Err e) ∧ promises s !! i = Some p ∧ p_nodeId p = v ∧
       p_pc p = AwaitDoneEmit ∧
       status_of s v = Some Completed ∧ status_of s' v = Some Failed).
Proof.
  intros (Hb & HC & Hok) Hstep. destruct a as [|e|i r]; simpl in Hstep.
  - unfold step_ctl_ok in Hstep. unfold ctrl_ok, ready in *.
    destruct (ctrl s) as [|b| | |r|e] eqn:Hc; simpl in *; try done.
    + injection Hstep as <-. destruct Hok as (Hne & Hq & Hful).
      rewrite Hq in HC. simpl in HC.
      assert (Hnr : ¬ raw_failed s) by (intros [e He]; congruence).
      pose proof (Core_drop_promises _ _ _ HC Hful Hnr) as HC0.
      rewrite <- (app_nil_r b) in HC0. unfold spawn.
      rewrite (spawn_loop_status _ _ _ _ v HC0).
      destruct (decide (v ∈ b)) as [Hv|Hv]; [|by left].
      right; left. split_and!; try done.
      rewrite app_nil_r in HC0. by apply (core_ready_pending _ _ _ HC).
    + destruct (forallb is_fulfilled (promises s)); [|done].
      injection Hstep as <-. left. unfold status_of.
      by destruct (loop_head_frame s) as (_&_&->&_).
    + injection Hstep as <-. by left.
  - destruct (step_ctl_err_inv _ _ _ Hstep) as (_ & -> & _). by left.
  - destruct (promises s !! i) as [p|] eqn:Hi; [|done].
    assert (Hp : p ∈ promises s) by (apply list_elem_of_lookup; eauto).
    pose proof (core_prom_status HC p Hp) as Hst.
    destruct (resume_nodes _ _ _ _ _ Hstep)
      as [Hn|[(Hrun & st & Hst' & Hn)|(Hpc & [e ->] & Hn)]].
    + left. unfold status_of. by rewrite Hn.
    + destruct (decide (p_nodeId p = v)) as [<-|Hne].
      * right; right; left. exists i, r, p. rewrite Hst, Hrun. split_and!; try done.
        unfold status_of in *. rewrite Hn, lookup_set_status, decide_True by done.
        destruct (nodes s !! p_nodeId p); [|done]. simpl. destruct Hst' as [->| ->]; auto.
      * left. unfold status_of. by rewrite Hn, lookup_set_status, decide_False.
    + destruct (decide (p_nodeId p = v)) as [<-|Hne].
      * right; right; right. exists i, e, p. rewrite Hst, Hpc. split_and!; try done.
        unfold status_of in *. rewrite Hn, lookup_set_status, decide_True by done.
        by destruct (nodes s !! p_nodeId p).
      * left. unfold status_of. by rewrite Hn, lookup_set_status, decide_False.
Qed.

(** ** Every step decreases the measure *)

Lemma promise_work_app ps qs :
  promise_work (ps ++ qs) = promise_work ps + promise_work qs.
Proof. induction ps as [|p ps IH]; simpl; [done|]. rewrite IH. lia. Qed.

Lemma promise_work_alter pc i ps p :
  ps !! i = Some p →
  promise_work (alter (set_pc pc) i ps) + pc_rank (p_pc p)
  = promise_work ps + pc_rank pc.
Proof.
  revert i. induction ps as [|q ps IH]; intros [|i]; simpl; try done.
  - intros [= ->]. lia.
  - intros Hi. specialize (IH i Hi). unfold alter in IH. lia.
Qed.

Lemma promise_work_fulfilled ps : Forall fulfilled ps → promise_work ps = 0.
Proof.
  induction 1 as [|p ps Hp _ IH]; simpl; [done|].
  unfold fulfilled in Hp. by rewrite Hp, IH.
Qed.

Lemma promise_work_started ps :
  Forall (λ p, p_pc p = AwaitStartEmit) ps → promise_work ps = 8 * length ps.
Proof.
  induction 1 as [|p ps Hp _ IH]; simpl; [done|]. rewrite Hp, IH. simpl. lia.
Qed.

Lemma mk_order_length g : length (mk_order g) ≤ length g.
Proof.
  induction g as [|x l IH] using rev_ind; [done|].
  rewrite mk_order_snoc, !length_app. simpl. case_decide; [lia|].
  rewrite length_app. simpl. lia.
Qed.

Lemma pending_count_spawn g batch rest s :
  Core g (batch ++ rest) s →
  pending_count (foldl spawn_one s batch) + length batch = pending_count s.
Proof.
  revert s. induction batch as [|w batch IH]; intros s HC; simpl; [lia|].
  specialize (IH _ (Core_spawn_one _ _ _ _ HC)).
  assert (pending_count s = pending_count (spawn_one s w) + 1); [|lia].
  unfold pending_count. destruct (spawn_one_frame s w) as (_ & -> & _).
  assert (Hw : status_of s w = Some Pending)
    by (apply (core_ready_pending _ _ _ HC); left).
  rewrite (filter_length_flip _ (λ k, status_of (spawn_one s w) k = Some Pending) w).
  - rewrite occ_NoDup; [done|apply (core_order_NoDup HC)|].
    apply (core_order_elem HC), (core_node_iff HC).
    unfold status_of in Hw. destruct (nodes s !! w); [eauto|done].
  - done.
  - by rewrite (spawn_one_status _ _ _ _ _ HC), decide_True.
  - intros x Hx. by rewrite (spawn_one_status _ _ _ _ _ HC), decide_False.
Qed.

Lemma resume_rank i p r s s' :
  resume i p r s = Some s' →
  ∃ pc', promises s' = alter (set_pc pc') i (promises s) ∧
         pc_rank pc' < pc_rank (p_pc p) ∧
         order s' = order s ∧ ctrl_rank s' ≤ ctrl_rank s.
Proof.
  unfold resume. destruct (p_pc p) eqn:Hpc, r; try done.
  all: try (destruct (emit_can_reject s); [|done]).
  all: intros [= <-].
  all: try (progress unfold enter_try;
            destruct (String.prefix "generate-" (node_task (p_node p)));
            [|destruct (decide (node_task (p_node p) = "start-vm"))]).
  all: try match goal with |- context [truthy ?u] => destruct (truthy u) end.
  all: unfold complete_node, fail_node, finish_node.
  all: try match goal with
       | |- context [at_pc _ ?pc _] =>
           exists pc; split_and!; [reflexivity|simpl; lia|reflexivity|done]
       end.
  all: try match goal with
       | |- context [throw_raw _ ?pc ?e _] =>
           exists pc; rewrite throw_raw_promises;
           destruct (throw_raw_fields s i pc e) as (_&F2&F3&_);
           split_and!; [done|simpl; lia|done|];
           unfold ctrl_rank; rewrite throw_raw_ctrl, F2; destruct (ctrl s); simpl; lia
       end.
  exists Rejected. rewrite throw_task_promises.
  destruct (throw_task_fields s i p msg) as (_&F2&F3&_).
  split_and!; [done|simpl; lia|done|].
  unfold ctrl_rank. rewrite throw_task_ctrl, F2. destruct (ctrl s); simpl; lia.
Qed.

Lemma pending_count_resume job i p r s s' :
  Inv job s → promises s !! i = Some p → resume i p r s = Some s' →
  pending_count s' = pending_count s.
Proof.
  intros (_ & HC & _) Hi Hres.
  destruct (resume_rank _ _ _ _ _ Hres) as (_ & _ & _ & Ho & _).
  assert (Hp : p ∈ promises s) by (apply list_elem_of_lookup; eauto).
  pose proof (core_prom_status HC p Hp) as Hst.
  unfold pending_count. rewrite Ho. apply filter_length_same. intros k _.
  destruct (resume_nodes _ _ _ _ _ Hres)
    as [Hn|[(Hrun & st & Hst' & Hn)|(Hpc & _ & Hn)]];
    unfold status_of in *; rewrite Hn; [done| |].
  - rewrite lookup_set_status. case_decide as Hk; [subst k|done].
    rewrite Hst, Hrun. destruct (nodes s !! p_nodeId p); [|done]. simpl.
    destruct Hst' as [-> | ->]; split; intros [=].
  - rewrite lookup_set_status. case_decide as Hk; [subst k|done].
    rewrite Hst, Hpc. destruct (nodes s !! p_nodeId p); [|done]. simpl.
    split; intros [=].
Qed.

Lemma measure_init job :
  measure (loop_head (build (start job))) < measure (start job).
Proof.
  unfold measure at 2. unfold ctrl_rank. simpl.
  set (s := build (start job)).
  destruct (loop_head_frame s) as (F1&F2&F3&F4&F5&F6&F7&F8&F9).
  unfold measure, pending_count. rewrite F6, F2. simpl.
  assert (length (filter (λ k, status_of (loop_head s) k = Some Pending)
                    (mk_order (job_workGraph job))) ≤ length (job_workGraph job)).
  { etrans; [apply length_filter|apply mk_order_length]. }
  assert (ctrl_rank (loop_head s) ≤ 1); [|lia].
  unfold ctrl_rank, loop_head. destruct (queue s); [case_decide|]; simpl; lia.
Qed.

Lemma measure_step job s a s' :
  Inv job s → step s a = Some s' → measure s' < measure s.
Proof.
  intros HI Hstep. pose proof HI as (Hb & HC & Hok).
  destruct a as [|e|i r]; simpl in Hstep.
  - unfold step_ctl_ok in Hstep. unfold ctrl_ok, ready in *.
    destruct (ctrl s) as [|b| | |r|e] eqn:Hc; simpl in *; try done.
    + injection Hstep as <-. destruct Hok as (Hne & Hq & Hful).
      rewrite Hq in HC. simpl in HC.
      assert (Hnr : ¬ raw_failed s) by (intros [e He]; congruence).
      pose proof (Core_drop_promises _ _ _ HC Hful Hnr) as HC0.
      rewrite <- (app_nil_r b) in HC0.
      pose proof (pending_count_spawn _ _ _ _ HC0) as Hpend.
      destruct (spawn_loop_shape _ _ _ _ HC0) as (Hc1 & _ & _ & ps & Hps & Hids & Hall).
      unfold measure, ctrl_rank. fold (spawn b s) in *.
      rewrite Hc, Hc1, Hps, (promise_work_fulfilled _ Hful). simpl.
      rewrite (promise_work_started _ Hall).
      assert (length ps = length b) by (by rewrite <- Hids, length_fmap).
      assert (pending_count (set_ctrl CtlWave (upd_promises (λ _, []) s))
              = pending_count s) as Heq by done.
      rewrite Heq in Hpend. destruct b; [done|]. simpl in *. lia.
    + destruct (forallb is_fulfilled (promises s)); [|done].
      injection Hstep as <-.
      destruct (loop_head_frame s) as (F1&F2&F3&F4&F5&F6&F7&F8&F9).
      unfold measure, pending_count, status_of. rewrite F6, F2, F3.
      assert (ctrl_rank (loop_head s) ≤ 1).
      { unfold ctrl_rank, loop_head. destruct (queue s); [case_decide|]; simpl; lia. }
      unfold ctrl_rank at 2. rewrite Hc. lia.
    + injection Hstep as <-. set (s1 := set_ctrl _ s).
      assert (Hp1 : promises s1 = promises s) by done.
      assert (Hn1 : pending_count s1 = pending_count s) by done.
      unfold measure, ctrl_rank. rewrite Hp1, Hn1, Hc. simpl ctrl. cbv iota. lia.
  - destruct (step_ctl_err_inv _ _ _ Hstep) as (_ & -> & Hc).
    set (s1 := set_ctrl _ s).
    assert (Hp1 : promises s1 = promises s) by done.
    assert (Hn1 : pending_count s1 = pending_count s) by done.
    unfold measure, ctrl_rank. rewrite Hp1, Hn1. simpl ctrl. cbv iota.
    unfold ctrl_ok in Hok.
    destruct Hc as [Hc|[[b Hc]|Hc]]; rewrite Hc in *; [done|lia|lia].
  - destruct (promises s !! i) as [p|] eqn:Hi; [|done].
    destruct (resume_rank _ _ _ _ _ Hstep) as (pc' & Hps & Hlt & _ & Hle).
    pose proof (promise_work_alter pc' _ _ _ Hi).
    unfold measure. rewrite (pending_count_resume _ _ _ _ _ _ HI Hi Hstep), Hps. lia.
Qed.

(** Every run is shorter than [step_bound]. *)
Lemma run_measure job s acts s' :
  Inv job s → run s acts = Some s' → length acts + measure s' ≤ measure s.
Proof.
  revert s. induction acts as [|a acts IH]; intros s HI; simpl.
  - intros [= <-]. lia.
  - destruct (step s a) as [s1|] eqn:Hs; [|done]. intros Hrun.
    pose proof (measure_step _ _ _ _ HI Hs).
    pose proof (IH _ (Inv_step _ _ _ _ HI Hs) Hrun). lia.
Qed.

Lemma execute_bounded job acts s :
  execute job acts = Some s → length acts + measure s ≤ step_bound job.
Proof.
  intros Hex.
  assert (Hm : measure (start job) = step_bound job).
  { unfold measure, step_bound, ctrl_rank, pending_count. simpl. lia. }
  destruct (execute_cases _ _ _ Hex) as [[-> ->]|[(e & -> & _ & ->)|(acts' & -> & _)]].
  - simpl. lia.
  - unfold measure, step_bound, ctrl_rank, pending_count. simpl. lia.
  - unfold execute in Hex. simpl in Hex.
    pose proof (measure_init job) as Hlt.
    pose proof (run_measure _ _ _ _ (Inv_init job) Hex). simpl. lia.
Qed.

(** ** Quiescence and progress *)

Lemma resume_enabled i p s :
  ¬ settled p → is_Some (resume i p (answer (p_pc p)) s).
Proof.
  unfold settled, fulfilled, rejected, resume.
  destruct (p_pc p); simpl; try (intros _; by eexists).
  all: intros H; exfalso; apply H; auto.
Qed.

Lemma settled_quiescent s :
  terminal (ctrl s) → Forall settled (promises s) → quiescent s.
Proof.
  intros Ht Hs [|e|i r]; simpl.
  - unfold step_ctl_ok. by destruct (ctrl s).
  - unfold step_ctl_err. by destruct (ctrl s).
  - destruct (promises s !! i) as [p|] eqn:Hi; [|done].
    rewrite Forall_lookup in Hs. specialize (Hs i p Hi).
    unfold resume. by destruct Hs as [-> | [-> | ->]]; destruct r.
Qed.

Lemma quiescent_settled job s :
  Inv job s → quiescent s → terminal (ctrl s) ∧ Forall settled (promises s).
Proof.
  intros (Hb & HC & Hok) Hq.
  assert (Hs : Forall settled (promises s)).
  { apply Forall_lookup. intros i p Hi.
    destruct (decide (settled p)) as [|Hn]; [done|].
    destruct (resume_enabled i p s Hn) as [s' Hs'].
    specialize (Hq (Resume i (answer (p_pc p)))). simpl in Hq.
    rewrite Hi, Hs' in Hq. done. }
  split; [|done]. specialize (Hq Ctl). simpl in Hq.
  unfold step_ctl_ok, ctrl_ok in *. destruct (ctrl s); try done.
  assert (forallb is_fulfilled (promises s) = true) as Hf; [|by rewrite Hf in Hq].
  apply forallb_forall. intros p Hp. apply list_elem_of_In in Hp.
  rewrite Forall_forall in Hs, Hok. unfold is_fulfilled.
  destruct (Hs p Hp) as [-> | Hr]; [done|]. by destruct (Hok p Hp).
Qed.

(** Once every callback of the wave has settled, the pipeline itself goes
    on, unless it has ended. *)
Lemma ctl_enabled job s :
  Inv job s → ¬ terminal (ctrl s) → Forall settled (promises s) →
  ∃ s', step s Ctl = Some s'.
Proof.
  intros (_ & _ & Hok) Hnt Hs. simpl.
  unfold step_ctl_ok, ctrl_ok, terminal in *. destruct (ctrl s); try done; eauto.
  assert (forallb is_fulfilled (promises s) = true) as ->; [|eauto].
  apply forallb_forall. intros p Hp. apply list_elem_of_In in Hp.
  rewrite Forall_forall in Hs, Hok. unfold is_fulfilled.
  destruct (Hs p Hp) as [-> | Hr]; [done|]. by destruct (Hok p Hp).
Qed.

(** A pipeline that has not ended can always take a step. *)
Lemma progress job acts s :
  execute job acts = Some s → ¬ terminal (ctrl s) → ∃ a s', step s a = Some s'.
Proof.
  intros Hex Hnt.
  destruct (execute_cases _ _ _ Hex) as [[-> ->]|[(e & -> & _ & ->)|(acts' & -> & HI)]].
  - exists Ctl. simpl. eauto.
  - by destruct Hnt.
  - destruct (decide (Forall settled (promises s))) as [Hs|Hs].
    + exists Ctl. by apply (ctl_enabled job).
    + apply not_Forall_Exists in Hs; [|apply _].
      apply Exists_exists in Hs as (p & Hp & Hn).
      apply list_elem_of_lookup in Hp as [i Hi].
      destruct (resume_enabled i p s Hn) as [s' Hs'].
      exists (Resume i (answer (p_pc p))), s'. simpl. by rewrite Hi.
Qed.

(** ** Statuses never go back *)

Lemma step_status_stable job s a s' v st :
  Inv job s → step s a = Some s' → status_of s v = Some st → st ≠ Pending →
  ∃ st', status_of s' v = Some st' ∧ st' ≠ Pending ∧
         (st = Failed → st' = Failed) ∧
         (st = Completed → st' = Completed ∨ st' = Failed).
Proof.
  intros HI Hstep Hst Hne.
  destruct (step_status _ _ _ _ v HI Hstep)
    as [Heq|[(_ & _ & Hp & _)|[(i & r & p & _ & _ & _ & Hr & Hc)
                               |(i & e & p & _ & _ & _ & _ & Hc & Hf)]]].
  - exists st. rewrite Heq. auto.
  - rewrite Hst in Hp. by injection Hp.
  - rewrite Hst in Hr. injection Hr as ->.
    destruct Hc as [Hc|Hc]; eexists; (split; [exact Hc|]); split_and!; done.
  - rewrite Hst in Hc. injection Hc as ->. exists Failed. split_and!; auto.
Qed.

Lemma run_status_stable job s acts s' v st :
  Inv job s → run s acts = Some s' → status_of s v = Some st → st ≠ Pending →
  ∃ st', status_of s' v = Some st' ∧ st' ≠ Pending ∧
         (st = Failed → st' = Failed) ∧
         (st = Completed → st' = Completed ∨ st' = Failed).
Proof.
  revert s st. induction acts as [|a acts IH]; intros s st HI; simpl.
  - intros [= <-] Hst Hne. exists st. auto.
  - destruct (step s a) as [s1|] eqn:Hs; [|done]. intros Hrun Hst Hne.
    destruct (step_status_stable _ _ _ _ _ _ HI Hs Hst Hne)
      as (st1 & H1 & Hne1 & Hf1 & Hc1).
    destruct (IH _ _ (Inv_step _ _ _ _ HI Hs) Hrun H1 Hne1)
      as (st2 & H2 & Hne2 & Hf2 & Hc2).
    exists st2. split_and!; [done..| |].
    + intros ->. auto.
    + intros ->. destruct (Hc1 eq_refl) as [->| ->]; auto.
Qed.


(** ** Cycles and acyclic graphs *)

Lemma depends_deps_of g v u : depends g v u ↔ u ∈ deps_of g v.
Proof.
  unfold depends, deps_of. split.
  - intros (n & -> & Hu & Hs). by apply list_elem_of_filter.
  - destruct (mk_nodes g !! v) as [n|]; [|by rewrite elem_of_nil].
    rewrite list_elem_of_filter. intros [Hs Hu]. eauto.
Qed.

Lemma depends_ids g v u : depends g v u → v ∈ ids g ∧ u ∈ ids g.
Proof.
  intros (n & Hn & _ & Hu). rewrite <- !mk_nodes_is_Some. eauto.
Qed.

(** A node on a cycle depends on a node that is on a cycle too. *)
Lemma cycle_pred g v : tc (depends g) v v → ∃ u, depends g v u ∧ tc (depends g) u u.
Proof.
  intros Hc. inversion Hc as [? ? Hd|? u ? Hd Ht]; subst.
  - eauto.
  - exists u. split; [done|]. by eapply tc_r.
Qed.

Lemma tc_depends_ids g v u : tc (depends g) v u → v ∈ ids g ∧ u ∈ ids g.
Proof.
  induction 1 as [? ? Hd|? ? ? Hd _ IH].
  - by apply depends_ids in Hd.
  - apply depends_ids in Hd. tauto.
Qed.

(** A ranking that decreases along [dependsOn] rules cycles out. *)
Lemma acyclic_ranked g (rank : string → nat) :
  Forall (λ n, Forall (λ u, u ∈ ids g → rank u < rank (node_id n)) (node_dependsOn n)) g →
  acyclic g.
Proof.
  intros Hr.
  assert (Hd : ∀ v u, depends g v u → rank u < rank v).
  { intros v u (n & Hn & Hu & Hs).
    destruct (mk_nodes_lookup _ _ _ Hn) as (Hid & Hin & _).
    rewrite Forall_forall in Hr. specialize (Hr _ Hin).
    rewrite Forall_forall in Hr. rewrite <- Hid. apply Hr; [done|].
    by apply mk_nodes_is_Some. }
  assert (Ht : ∀ v u, tc (depends g) v u → rank u < rank v).
  { induction 1 as [? ? H|? ? ? H _ IH]; [by apply Hd|]. apply Hd in H. lia. }
  intros v Hv. apply Ht in Hv. lia.
Qed.

Section cycles.
Context {job : JobData} {s : State}.
Let g := job_workGraph job.
Hypothesis HI : Inv job s.

(** While the nodes on cycles are pending, none of them is ready. *)
Lemma cycle_not_ready v :
  (∀ u, tc (depends g) u u → status_of s u = Some Pending) →
  tc (depends g) v v → v ∉ ready s.
Proof.
  intros Hpend Hv Hr. destruct HI as (_ & HC & _).
  destruct (cycle_pred _ _ Hv) as (u & Hd & Hu).
  destruct (depends_ids _ _ _ Hd) as [Hvid _].
  assert (Hz : inDegree s !! v = Some 0%Z)
    by (apply (core_ready _ _ _ HC v Hvid); by right).
  apply depends_deps_of in Hd.
  destruct (proj1 (core_deg_zero HC v Hvid) Hz u Hd) as [Hrel _].
  rewrite (Hpend u Hu) in Hrel. done.
Qed.
End cycles.

Lemma cycle_pending_step job s a s' :
  Inv job s → step s a = Some s' →
  (∀ u, tc (depends (job_workGraph job)) u u → status_of s u = Some Pending) →
  (∀ u, tc (depends (job_workGraph job)) u u → status_of s' u = Some Pending).
Proof.
  intros HI Hstep Hpend u Hu.
  destruct (step_status _ _ _ _ u HI Hstep)
    as [Heq|[(_ & Hb & _ & _)|[(i & r & p & _ & _ & _ & Hr & _)
                               |(i & e & p & _ & _ & _ & _ & Hr & _)]]].
  - rewrite Heq. by apply Hpend.
  - destruct (cycle_not_ready HI u Hpend Hu). unfold ready.
    apply elem_of_app. by right.
  - rewrite (Hpend u Hu) in Hr. done.
  - rewrite (Hpend u Hu) in Hr. done.
Qed.

Lemma cycle_pending_init job u :
  u ∈ ids (job_workGraph job) →
  status_of (loop_head (build (start job))) u = Some Pending.
Proof.
  intros Hu. unfold status_of. destruct (loop_head_frame (build (start job))) as (_&_&->&_).
  simpl. apply mk_nodes_is_Some in Hu as [n Hn]. rewrite Hn. simpl.
  by destruct (mk_nodes_lookup _ _ _ Hn) as (_ & _ & ->).
Qed.

Lemma cycle_pending_run job s acts s' :
  Inv job s → run s acts = Some s' →
  (∀ u, tc (depends (job_workGraph job)) u u → status_of s u = Some Pending) →
  (∀ u, tc (depends (job_workGraph job)) u u → status_of s' u = Some Pending).
Proof.
  revert s. induction acts as [|a acts IH]; intros s HI; simpl.
  - by intros [= <-].
  - destruct (step s a) as [s1|] eqn:Hs; [|done]. intros Hrun Hpend.
    apply (IH s1); [by eapply Inv_step|done|]. by eapply cycle_pending_step.
Qed.

(** The nodes of a cycle are never dispatched. *)
Lemma cycle_pending job acts s v :
  execute job (Ctl :: acts) = Some s →
  tc (depends (job_workGraph job)) v v → status_of s v = Some Pending.
Proof.
  unfold execute. simpl. intros Hrun.
  revert v. eapply cycle_pending_run; [by eapply Inv_init|done|].
  intros u Hu. eapply cycle_pending_init.
  by destruct (tc_depends_ids _ _ _ Hu).
Qed.

(** Released nodes are counted by [completedCount]: a full count means
    every node is released. *)
Lemma filter_length_full (P : string → Prop) `{!∀ x, Decision (P x)} l :
  length (filter P l) = length l → ∀ x, x ∈ l → P x.
Proof.
  induction l as [|y l IH]; [intros _ x Hx; by apply elem_of_nil in Hx|].
  rewrite filter_cons. destruct (decide (P y)) as [Hy|Hy]; simpl.
  - intros [= Hl] x Hx. apply elem_of_cons in Hx as [->|Hx]; auto.
  - intros Hl. pose proof (length_filter P l). lia.
Qed.

Lemma full_count_all_released job s :
  Inv job s → completedCount s = size (nodes s) →
  ∀ v, v ∈ ids (job_workGraph job) → released s v.
Proof.
  intros (_ & HC & _) Hcnt v Hv.
  rewrite (core_count _ _ _ HC), (core_size HC) in Hcnt.
  apply (filter_length_full _ _ Hcnt). by apply (core_order_elem HC).
Qed.

Lemma all_released_full_count job s :
  Inv job s → (∀ v, v ∈ ids (job_workGraph job) → released s v) →
  completedCount s = size (nodes s).
Proof.
  intros (_ & HC & _) Hall.
  rewrite (core_count _ _ _ HC), (core_size HC).
  apply filter_length_all. intros v Hv. by apply Hall, (core_order_elem HC).
Qed.

(** On an acyclic graph with nothing in flight and nothing ready, every
    node has been released. *)
Lemma acyclic_all_released job s :
  Inv job s → acyclic (job_workGraph job) → ¬ raw_failed s →
  ready s = [] → Forall fulfilled (promises s) →
  ∀ v, v ∈ ids (job_workGraph job) → released s v.
Proof.
  intros (_ & HC & _) Hac Hnr Hrdy Hful v Hv.
  assert (Hsn : sn (depends (job_workGraph job)) v).
  { apply tc_finite_sn; [exact Hac|]. exists (ids (job_workGraph job)).
    intros u Hu. by destruct (tc_depends_ids _ _ _ Hu). }
  induction Hsn as [v _ IH].
  assert (Hz : inDegree s !! v = Some 0%Z).
  { apply (core_deg_zero HC v Hv). intros u Hu. apply IH.
    - by apply depends_deps_of.
    - by destruct (core_deps_ids _ _ Hu). }
  apply (core_zero _ _ _ HC v Hv) in Hz. rewrite Hrdy in Hz.
  destruct Hz as [Hz|[Hz|Hz]]; [|by apply elem_of_nil in Hz|done].
  destruct (core_status HC v Hv) as [st Hst].
  assert (Hall : Forall (λ p, p_nodeId p = v → p_pc p = Fulfilled) (promises s)).
  { eapply Forall_impl; [exact Hful|]. by intros p Hp _. }
  split; [|done].
  destruct st; [by rewrite Hst in Hz| |done|].
  all: assert (Hin : v ∈ p_nodeId <$> promises s)
         by (apply (core_active _ _ _ HC); auto).
  all: apply list_elem_of_fmap in Hin as (p & -> & Hp).
  all: rewrite Forall_forall in Hful; specialize (Hful p Hp).
  all: rewrite (core_prom_status HC p Hp), Hful in Hst; done.
Qed.

(** ** Task kinds and side effects are kept apart *)

Lemma emit_taskJobs b m st d w : taskJobs (emitProgress b m st d w) = taskJobs w.
Proof. unfold emitProgress. by case_decide. Qed.
Lemma emit_localFiles b m st d w : localFiles (emitProgress b m st d w) = localFiles w.
Proof. unfold emitProgress. by case_decide. Qed.
Lemma emit_vmFiles b m st d w : vmFiles (emitProgress b m st d w) = vmFiles w.
Proof. unfold emitProgress. by case_decide. Qed.
Lemma emit_vmSessions b m st d w : vmSessions (emitProgress b m st d w) = vmSessions w.
Proof. unfold emitProgress. by case_decide. Qed.
Lemma emit_events b m st d w :
  events (emitProgress b m st d w) =
  events w ++ if decide (b = EmptyString) then []
              else [{| ev_jobId := b; ev_step := m; ev_status := st; ev_details := d |}].
Proof. unfold emitProgress. case_decide; simpl; by rewrite ?app_nil_r. Qed.

Lemma loop_head_world s :
  let s' := loop_head s in
  taskJobs (world s') = taskJobs (world s) ∧ localFiles (world s') = localFiles (world s)
  ∧ vmFiles (world s') = vmFiles (world s) ∧ vmSessions (world s') = vmSessions (world s).
Proof.
  unfold loop_head. destruct (queue s); [case_decide|]; simpl;
    by rewrite ?emit_taskJobs, ?emit_localFiles, ?emit_vmFiles, ?emit_vmSessions.
Qed.

Lemma spawn_one_world s w :
  let s' := spawn_one s w in
  taskJobs (world s') = taskJobs (world s) ∧ localFiles (world s') = localFiles (world s)
  ∧ vmFiles (world s') = vmFiles (world s) ∧ vmSessions (world s') = vmSessions (world s).
Proof.
  unfold spawn_one. destruct (nodes s !! w); simpl.
  - by rewrite ?emit_taskJobs, ?emit_localFiles, ?emit_vmFiles, ?emit_vmSessions.
  - unfold reject. simpl. by destruct (ctrl s).
Qed.

Lemma spawn_loop_world batch s :
  let s' := foldl spawn_one s batch in
  taskJobs (world s') = taskJobs (world s) ∧ localFiles (world s') = localFiles (world s)
  ∧ vmFiles (world s') = vmFiles (world s) ∧ vmSessions (world s') = vmSessions (world s).
Proof.
  revert s. induction batch as [|w batch IH]; intros s; simpl; [done|].
  destruct (IH (spawn_one s w)) as (-> & -> & -> & ->). apply spawn_one_world.
Qed.

(** A node that has ended, completed or failed, stays so. *)
Lemma ended_step job s a s' v :
  Inv job s → step s a = Some s' →
  status_of s v = Some Completed ∨ status_of s v = Some Failed →
  status_of s' v = Some Completed ∨ status_of s' v = Some Failed.
Proof.
  intros HI Hstep [Hv|Hv].
  - destruct (step_status_stable _ _ _ _ _ _ HI Hstep Hv) as (st & -> & _ & _ & Hk);
      [done|]. destruct (Hk eq_refl) as [-> | ->]; auto.
  - destruct (step_status_stable _ _ _ _ _ _ HI Hstep Hv) as (st & -> & _ & Hk & _);
      [done|]. rewrite (Hk eq_refl). auto.
Qed.

(** The closure of a callback holds the node stored under its id. *)
Lemma promise_node job s p :
  Inv job s → p ∈ promises s →
  node_id (p_node p) = p_nodeId p ∧
  task_in (job_workGraph job) (p_nodeId p) = Some (node_task (p_node p)).
Proof.
  intros (_ & HC & _) Hp.
  destruct (core_prom _ _ _ HC p Hp) as (n & Hn & <- & _).
  destruct (core_node_def HC _ _ Hn) as [Hm Hid]. split; [done|].
  unfold task_in. by rewrite Hm.
Qed.

Lemma elem_of_alter_pc pc i (ps : list Promise) p q :
  ps !! i = Some p → q ∈ alter (set_pc pc) i ps → q = set_pc pc p ∨ q ∈ ps.
Proof.
  intros Hi Hq. apply list_elem_of_lookup in Hq as [j Hj].
  destruct (decide (i = j)) as [<-|Hne].
  - rewrite list_lookup_alter_eq, Hi in Hj. injection Hj as <-. by left.
  - rewrite list_lookup_alter_ne in Hj by done. right.
    apply list_elem_of_lookup. eauto.
Qed.

Lemma elem_of_alter_pc_other pc i (ps : list Promise) p q :
  NoDup (p_nodeId <$> ps) → ps !! i = Some p → q ∈ alter (set_pc pc) i ps →
  q = set_pc pc p ∨ (q ∈ ps ∧ p_nodeId q ≠ p_nodeId p).
Proof.
  intros HN Hi Hq. apply list_elem_of_lookup in Hq as [j Hj].
  destruct (decide (i = j)) as [<-|Hne].
  - rewrite list_lookup_alter_eq, Hi in Hj. left. by injection Hj.
  - rewrite list_lookup_alter_ne in Hj by done. right.
    split; [apply list_elem_of_lookup; eauto|]. intros Heq. apply Hne.
    eapply NoDup_lookup; [exact HN| |].
    + by rewrite list_lookup_fmap, Hi.
    + by rewrite list_lookup_fmap, Hj; simpl; rewrite Heq.
Qed.

Lemma Aux_init job : Aux (job_workGraph job) (loop_head (build (start job))).
Proof.
  set (s := build (start job)).
  destruct (loop_head_frame s) as (F1&F2&F3&F4&F5&F6&F7&F8&F9).
  destruct (loop_head_world s) as (W1&W2&W3&W4).
  split.
  - rewrite F6. intros p Hp. by apply elem_of_nil in Hp.
  - rewrite F6. intros p f c Hp. by apply elem_of_nil in Hp.
  - rewrite W1. simpl. rewrite emit_taskJobs. intros j Hj. by apply elem_of_nil in Hj.
  - rewrite F8. done.
Qed.

Lemma Aux_ctl job s s' :
  Inv job s → Aux (job_workGraph job) s → step_ctl_ok s = Some s' →
  Aux (job_workGraph job) s'.
Proof.
  intros HI [A1 A2 A3 A4] Hstep. pose proof HI as (Hb & HC & Hok).
  assert (Hcomp : ∀ v, status_of s v = Some Completed ∨ status_of s v = Some Failed →
                       status_of s' v = Some Completed ∨ status_of s' v = Some Failed).
  { intros v Hv. by eapply (ended_step job s Ctl). }
  unfold step_ctl_ok in Hstep. unfold ctrl_ok, ready in *.
  destruct (ctrl s) as [|b| | |r|e] eqn:Hc; simpl in *; try done.
  - injection Hstep as <-. destruct Hok as (Hne & Hq & Hful).
    rewrite Hq in HC. simpl in HC.
    assert (Hnr : ¬ raw_failed s) by (intros [e He]; congruence).
    pose proof (Core_drop_promises _ _ _ HC Hful Hnr) as HC0.
    rewrite <- (app_nil_r b) in HC0.
    destruct (spawn_loop_shape _ _ _ _ HC0) as (_ & _ & Hb1 & ps & Hps & Hids & Hall).
    destruct (spawn_loop_frame b (set_ctrl CtlWave (upd_promises (λ _, []) s)))
      as (F1&F2&F3&F4&F5&F6&F7&F8).
    destruct (spawn_loop_world b (set_ctrl CtlWave (upd_promises (λ _, []) s)))
      as (W1&W2&W3&W4).
    fold (spawn b s) in *. simpl in *. split.
    + rewrite Hps. intros p Hp. rewrite Forall_forall in Hall.
      by rewrite (Hall p Hp).
    + rewrite Hps. intros p f c Hp. rewrite Forall_forall in Hall.
      by rewrite (Hall p Hp).
    + by rewrite W1.
    + rewrite F7. intros u Hu. destruct (A4 u Hu) as (v & Hv & Hst). eauto.
  - destruct (forallb is_fulfilled (promises s)); [|done]. injection Hstep as <-.
    destruct (loop_head_frame s) as (F1&F2&F3&F4&F5&F6&F7&F8&F9).
    destruct (loop_head_world s) as (W1&W2&W3&W4).
    split.
    + by rewrite F6.
    + rewrite F6. intros p f c Hp Hpc. unfold file_of. rewrite F9, W2.
      by apply A2 with p.
    + by rewrite W1.
    + rewrite F8. intros u Hu. destruct (A4 u Hu) as (v & Hv & Hst). eauto.
  - injection Hstep as <-. by split.
Qed.

Lemma Aux_reject g e s : Aux g s → Aux g (reject e s).
Proof. intros [A1 A2 A3 A4]. unfold reject. destruct (ctrl s); by split. Qed.

Lemma Aux_resume job s i p r s' :
  Inv job s → Aux (job_workGraph job) s →
  promises s !! i = Some p → resume i p r s = Some s' →
  Aux (job_workGraph job) s'.
Proof.
  intros HI [A1 A2 A3 A4] Hi Hres.
  assert (Hp : p ∈ promises s) by (apply list_elem_of_lookup; eauto).
  destruct (promise_node _ _ _ HI Hp) as [Hid Htask].
  pose proof (A1 p Hp) as Hfit.
  assert (Hcomp : ∀ v, status_of s v = Some Completed ∨ status_of s v = Some Failed →
                       status_of s' v = Some Completed ∨ status_of s' v = Some Failed).
  { intros v Hv. eapply (ended_step job s (Resume i r)); [done| |done].
    by simpl; rewrite Hi. }
  assert (Hnode : ∃ n, nodes s !! p_nodeId p = Some n).
  { destruct HI as (_ & HC & _).
    destruct (core_prom _ _ _ HC p Hp) as (n & Hn & _). eauto. }
  unfold resume in Hres.
  destruct (p_pc p) eqn:Hpc, r; try done.
  all: try (destruct (emit_can_reject s); [|done]).
  all: injection Hres as <-.
  all: try (progress unfold enter_try; unfold is_generate in *;
            destruct (String.prefix "generate-" (node_task (p_node p))) eqn:Hgen;
            [|destruct (decide (node_task (p_node p) = "start-vm")) as [Hvm|Hvm]]).
  all: try match goal with |- context [truthy ?u] => destruct (truthy u) eqn:Htr end.
  all: unfold throw_task, throw_raw in *; try apply Aux_reject.
  all: split; simpl;
       rewrite ?emit_taskJobs, ?emit_localFiles, ?emit_vmFiles, ?emit_vmSessions.
  (* aux_fits *)
  all: try (intros q Hq; apply (elem_of_alter_pc _ _ _ p) in Hq as [->|Hq];
            [simpl; unfold is_generate in *; simpl in Hfit; tauto|by apply A1|done]).
  (* aux_written *)
  all: try (intros q f' c' Hq Hqpc;
            apply (elem_of_alter_pc _ _ _ p) in Hq as [->|Hq]; [| |done];
            [simpl in Hqpc; try done
            |rewrite ?elem_of_app; try left; by apply (A2 q)]).
  (* aux_jobs *)
  all: try exact A3.
  (* aux_preview *)
  all: try (intros u' Hu'; destruct (A4 u' Hu') as (v & Hv & Hst); exists v;
            split; [done|]; first [exact Hst|by apply Hcomp]).
  - intros j Hj. apply elem_of_app in Hj as [Hj|Hj]; [by apply A3|].
    apply list_elem_of_singleton in Hj as ->. simpl. rewrite Hid. auto.
  - injection Hqpc as <- <-. apply elem_of_app. right. by left.
  - intros u' _. exists (p_nodeId p). destruct Hfit as [_ Hvm].
    rewrite Htask, Hvm. split; [done|]. left.
    destruct Hnode as [n Hn]. unfold status_of. simpl.
    by rewrite lookup_alter_eq, Hn.
Qed.

Lemma Aux_step job s a s' :
  Inv job s → Aux (job_workGraph job) s → step s a = Some s' →
  Aux (job_workGraph job) s'.
Proof.
  intros HI HA. destruct a as [|e|i r]; simpl.
  - by apply Aux_ctl.
  - intros Hstep. destruct (step_ctl_err_inv _ _ _ Hstep) as (_ & -> & _).
    by destruct HA.
  - destruct (promises s !! i) as [p|] eqn:Hi; [|done]. by apply Aux_resume.
Qed.

Lemma InvAux_run job s acts s' :
  Inv job s → Aux (job_workGraph job) s → run s acts = Some s' →
  Aux (job_workGraph job) s'.
Proof.
  revert s. induction acts as [|a acts IH]; intros s HI HA; simpl.
  - by intros [= <-].
  - destruct (step s a) as [s1|] eqn:Hs; [|done].
    apply IH; [by eapply Inv_step|by eapply Aux_step].
Qed.

Lemma Aux_reachable job acts s :
  execute job (Ctl :: acts) = Some s → Aux (job_workGraph job) s.
Proof.
  unfold execute. simpl. intros Hrun.
  eapply InvAux_run; [by eapply Inv_init|by eapply Aux_init|done].
Qed.

(** ** The events of a node follow its status *)

Lemma trace_of_snoc es e v :
  trace_of (es ++ [e]) v =
  trace_of es v ++ if decide (event_node e = Some v)
                   then [(ev_step e, ev_status e)] else [].
Proof.
  unfold trace_of. rewrite filter_app, fmap_app, filter_cons, filter_nil.
  by case_decide.
Qed.

Lemma node_trace_emit_other b m st d s v (f : State → State) :
  (∀ w, m ≠ StepStarting w ∧ m ≠ StepCompleted w ∧ m ≠ StepFailed w) →
  trace_of (events (emitProgress b m st d (world s))) v = node_trace s v.
Proof.
  intros Hm. rewrite emit_events. case_decide; [by rewrite app_nil_r|].
  rewrite trace_of_snoc, decide_False; [by rewrite app_nil_r|].
  unfold event_node. simpl. destruct m; try done; intros [= ->]; by destruct (Hm v) as (?&?&?).
Qed.

Lemma trace_ok_loop_head s : trace_ok s → trace_ok (loop_head s).
Proof.
  intros Hok v. specialize (Hok v).
  assert (Hst : status_of (loop_head s) v = status_of s v).
  { unfold status_of. by destruct (loop_head_frame s) as (_&_&->&_). }
  assert (Htr : node_trace (loop_head s) v = node_trace s v).
  { unfold node_trace, loop_head. destruct (queue s); [case_decide|]; simpl; try done.
    all: rewrite emit_events; case_decide; rewrite ?app_nil_r; try done.
    all: by rewrite trace_of_snoc, app_nil_r. }
  by rewrite Hst, Htr.
Qed.

Lemma trace_ok_init job : trace_ok (loop_head (build (start job))).
Proof.
  apply trace_ok_loop_head.
  intros v. unfold node_trace, status_of. simpl.
  assert (trace_of (events (emitProgress (job_buildId job) StepInit EvActive EmptyString
            emptyWorld)) v = []) as ->.
  { rewrite emit_events. by case_decide. }
  destruct (mk_nodes (job_workGraph job) !! v) as [n|] eqn:Hn; [|done]. simpl.
  by destruct (mk_nodes_lookup _ _ _ Hn) as (_ & _ & ->).
Qed.

Lemma trace_ok_spawn_one g w rest s :
  buildId s ≠ EmptyString → Core g (w :: rest) s → trace_ok s → trace_ok (spawn_one s w).
Proof.
  intros Hb HC Hok v. rewrite (spawn_one_status _ _ _ _ _ HC).
  assert (Hw : status_of s w = Some Pending)
    by (apply (core_ready_pending _ _ _ HC); left).
  specialize (Hok v). unfold node_trace in *. unfold spawn_one.
  pose proof Hw as Hw'. unfold status_of in Hw'.
  destruct (nodes s !! w) as [n|] eqn:Hn; [|done]. simpl.
  destruct (core_node_def HC _ _ Hn) as [_ Hid].
  rewrite emit_events, (decide_False (P := buildId s = EmptyString)) by done.
  rewrite trace_of_snoc, Hid. unfold event_node. simpl.
  destruct (decide (w = v)) as [->|Hne].
  - rewrite decide_True by done. rewrite Hw in Hok. simpl in Hok. by rewrite Hok.
  - rewrite decide_False by congruence. by rewrite app_nil_r.
Qed.

Lemma trace_ok_spawn_loop g batch rest s :
  buildId s ≠ EmptyString → Core g (batch ++ rest) s → trace_ok s →
  trace_ok (foldl spawn_one s batch).
Proof.
  revert s. induction batch as [|w batch IH]; intros s Hb HC Hok; [done|].
  simpl. apply IH.
  - by destruct (spawn_one_frame s w) as (_&_&_&_&_&_&_&->).
  - by apply Core_spawn_one.
  - by eapply trace_ok_spawn_one.
Qed.

Lemma trace_ok_ctl job s s' :
  buildId s ≠ EmptyString → Inv job s → trace_ok s → step_ctl_ok s = Some s' → trace_ok s'.
Proof.
  intros Hne (Hb & HC & Hok) Htr Hstep.
  unfold step_ctl_ok in Hstep. unfold ctrl_ok, ready in *.
  destruct (ctrl s) as [|b| | |r|e] eqn:Hc; simpl in *; try done.
  - injection Hstep as <-. destruct Hok as (_ & Hq & Hful).
    rewrite Hq in HC. simpl in HC.
    assert (Hnr : ¬ raw_failed s) by (intros [e He]; congruence).
    pose proof (Core_drop_promises _ _ _ HC Hful Hnr) as HC0.
    rewrite <- (app_nil_r b) in HC0.
    by apply (trace_ok_spawn_loop _ b [] (set_ctrl CtlWave (upd_promises (λ _, []) s)) Hne HC0).
  - destruct (forallb is_fulfilled (promises s)); [|done]. injection Hstep as <-.
    by apply trace_ok_loop_head.
  - by injection Hstep as <-.
Qed.

(** A callback that only moves on leaves statuses and events alone. *)
Lemma trace_ok_frame s s' :
  nodes s' = nodes s → events (world s') = events (world s) →
  trace_ok s → trace_ok s'.
Proof.
  intros Hn Hw Htr v. specialize (Htr v).
  unfold node_trace, status_of in *. by rewrite Hn, Hw.
Qed.

Lemma trace_ok_resume job s i p r s' :
  buildId s ≠ EmptyString → Inv job s → trace_ok s →
  promises s !! i = Some p → resume i p r s = Some s' → trace_ok s'.
Proof.
  intros Hne HI Htr Hi Hres.
  assert (Hp : p ∈ promises s) by (apply list_elem_of_lookup; eauto).
  destruct (promise_node _ _ _ HI Hp) as [Hid _].
  pose proof HI as (_ & HC & _).
  pose proof (core_prom_status HC p Hp) as Hst.
  destruct (core_prom _ _ _ HC p Hp) as (n & Hn & _).
  unfold resume in Hres.
  destruct (p_pc p) eqn:Hpc, r; try done.
  all: try (destruct (emit_can_reject s); [|done]).
  all: injection Hres as <-.
  all: try (progress unfold enter_try;
            destruct (String.prefix "generate-" (node_task (p_node p)));
            [|destruct (decide (node_task (p_node p) = "start-vm"))]).
  all: try match goal with |- context [truthy ?u] => destruct (truthy u) end.
  all: try (by apply (trace_ok_frame s)).
  all: try (match goal with
            | |- context [throw_task _ _ ?m _] =>
                destruct (throw_task_fields s i p m) as (Fn&_&_&_&_&_&_&_&_&Fw)
            | |- context [throw_raw _ ?pc ?e _] =>
                destruct (throw_raw_fields s i pc e) as (Fn&_&_&_&_&_&_&_&_&Fw)
            end; apply (trace_ok_frame s); [done|by rewrite Fw|done]).
  all: intros v; specialize (Htr v); unfold node_trace in *.
  all: unfold fail_node, complete_node.
  all: unfold status_of in *; simpl; rewrite emit_events, decide_False by done.
  all: rewrite trace_of_snoc, Hid, lookup_set_status; unfold event_node; simpl.
  all: destruct (decide (p_nodeId p = v)) as [<-|Hv];
       [rewrite decide_True by done|rewrite decide_False by congruence].
  all: rewrite ?app_nil_r; try exact Htr.
  all: rewrite Hst in Htr; rewrite Hn; simpl in *; rewrite Htr; auto.
Qed.

Lemma trace_ok_step job s a s' :
  buildId s ≠ EmptyString → Inv job s → trace_ok s → step s a = Some s' → trace_ok s'.
Proof.
  intros Hne HI HA. destruct a as [|e|i r]; simpl.
  - by apply (trace_ok_ctl job).
  - intros Hstep. destruct (step_ctl_err_inv _ _ _ Hstep) as (_ & -> & _).
    by apply (trace_ok_frame s).
  - destruct (promises s !! i) as [p|] eqn:Hi; [|done]. by apply (trace_ok_resume job).
Qed.

Lemma trace_ok_run job s acts s' :
  Inv job s → job_buildId job ≠ EmptyString → trace_ok s → run s acts = Some s' → trace_ok s'.
Proof.
  revert s. induction acts as [|a acts IH]; intros s HI Hne Htr; simpl.
  - by intros [= <-].
  - destruct (step s a) as [s1|] eqn:Hs; [|done].
    apply IH; [by eapply Inv_step|done|].
    eapply trace_ok_step; [|done..]. destruct HI as (-> & _). done.
Qed.

Lemma trace_ok_start job : job_buildId job ≠ EmptyString → trace_ok (start job).
Proof.
  intros Hne v. unfold node_trace, status_of. simpl.
  rewrite emit_events, decide_False by done. done.
Qed.

Lemma trace_ok_reachable job acts s :
  job_buildId job ≠ EmptyString → execute job acts = Some s → trace_ok s.
Proof.
  intros Hne Hex.
  destruct (execute_cases _ _ _ Hex) as [[-> ->]|[(e & -> & _ & ->)|(acts' & -> & HI)]].
  - by apply trace_ok_start.
  - apply (trace_ok_frame (start job)); [done..|]. by apply trace_ok_start.
  - unfold execute in Hex. simpl in Hex.
    eapply trace_ok_run; [by eapply Inv_init|done|by eapply trace_ok_init|done].
Qed.

(** ** Release is permanent *)

Lemma released_step job s a s' u :
  Inv job s → step s a = Some s' → released s u → released s' u.
Proof.
  intros HI Hstep [Hst Hall]. pose proof HI as (Hb & HC & Hok).
  split.
  { destruct (step_status _ _ _ _ u HI Hstep)
      as [Heq|[(_ & _ & Hp & _)|[(i & r & p & _ & _ & _ & Hr & _)
                                 |(i & e & p & _ & Hi & Hu & Hpc & _)]]].
    - by rewrite Heq.
    - rewrite Hst in Hp. done.
    - rewrite Hst in Hr. done.
    - rewrite Forall_lookup in Hall. specialize (Hall i p Hi Hu). congruence. }
  destruct a as [|e|i r]; simpl in Hstep.
  - unfold step_ctl_ok in Hstep. unfold ctrl_ok, ready in *.
    destruct (ctrl s) as [|b| | |r|e] eqn:Hc; simpl in *; try done.
    + injection Hstep as <-. destruct Hok as (Hne & Hq & Hful).
      rewrite Hq in HC. simpl in HC.
      assert (Hnr : ¬ raw_failed s) by (intros [e He]; congruence).
      pose proof (Core_drop_promises _ _ _ HC Hful Hnr) as HC0.
      rewrite <- (app_nil_r b) in HC0.
      destruct (spawn_loop_shape _ _ _ _ HC0) as (_ & _ & _ & ps & Hps & Hids & _).
      fold (spawn b s) in *. rewrite Hps. simpl.
      apply Forall_forall. intros p Hp Hpu. exfalso.
      assert (Hub : u ∈ b).
      { rewrite <- Hids, <- Hpu. apply list_elem_of_fmap. eauto. }
      apply (core_ready_pending _ _ _ HC) in Hub. rewrite Hst in Hub. done.
    + destruct (forallb is_fulfilled (promises s)); [|done]. injection Hstep as <-.
      by destruct (loop_head_frame s) as (_&_&_&_&_&->&_).
    + by injection Hstep as <-.
  - by destruct (step_ctl_err_inv _ _ _ Hstep) as (_ & -> & _).
  - destruct (promises s !! i) as [p|] eqn:Hi; [|done].
    destruct (resume_rank _ _ _ _ _ Hstep) as (pc' & -> & Hlt & _).
    rewrite Forall_lookup in *. intros j q Hq Hqu.
    destruct (decide (i = j)) as [<-|Hne].
    + rewrite list_lookup_alter_eq, Hi in Hq. injection Hq as <-. simpl in *.
      rewrite (Hall i p Hi Hqu) in Hlt. simpl in Hlt. lia.
    + rewrite list_lookup_alter_ne in Hq by done. by apply (Hall j).
Qed.

(** An in-degree that has reached zero stays at zero. *)
Lemma deg_zero_step job s a s' v :
  Inv job s → step s a = Some s' →
  inDegree s !! v = Some 0%Z → inDegree s' !! v = Some 0%Z.
Proof.
  intros HI Hstep Hz. pose proof HI as (_ & HC & _).
  pose proof (Inv_step _ _ _ _ HI Hstep) as (_ & HC' & _).
  assert (Hv : v ∈ ids (job_workGraph job)).
  { rewrite (core_deg _ _ _ HC) in Hz. by case_decide. }
  apply (core_deg_zero HC' v Hv). intros u Hu.
  eapply released_step; [done..|]. by apply (core_deg_zero HC v Hv).
Qed.

Lemma deg_zero_run job s acts s' v :
  Inv job s → run s acts = Some s' →
  inDegree s !! v = Some 0%Z → inDegree s' !! v = Some 0%Z.
Proof.
  revert s. induction acts as [|a acts IH]; intros s HI; simpl.
  - by intros [= <-].
  - destruct (step s a) as [s1|] eqn:Hs; [|done]. intros Hrun Hz.
    apply (IH s1); [by eapply Inv_step|done|by eapply deg_zero_step].
Qed.

(** ** The controller after a failure *)

Lemma failed_ctrl job s v :
  Inv job s → status_of s v = Some Failed →
  (ctrl s = CtlWave ∨ (∃ w t m, ctrl s = CtlFailed (TaskError w t m)) ∨ raw_failed s) ∧
  step s Ctl = None.
Proof.
  intros (_ & HC & Hok) Hv.
  assert (Hin : v ∈ p_nodeId <$> promises s) by (apply (core_active _ _ _ HC); auto).
  apply list_elem_of_fmap in Hin as (p & -> & Hp).
  pose proof (core_prom_status HC p Hp) as Hst. rewrite Hv in Hst.
  assert (Hnf : ¬ fulfilled p).
  { unfold fulfilled. intros Hf. rewrite Hf in Hst. done. }
  assert (Hnb : forallb is_fulfilled (promises s) = false).
  { apply not_true_is_false. intros Hf. apply forallb_fulfilled in Hf.
    rewrite Forall_forall in Hf. auto. }
  simpl. unfold step_ctl_ok, ctrl_ok, raw_failed in *.
  destruct (ctrl s) as [|b| | |r|[w t m| | |e]]; try done.
  - destruct Hok as (_ & _ & Hf). rewrite Forall_forall in Hf. by destruct Hnf; auto.
  - rewrite Hnb. auto.
  - destruct Hok as (_ & Hf & _). rewrite Forall_forall in Hf. by destruct Hnf; auto.
  - destruct Hok as (_ & Hf & _). rewrite Forall_forall in Hf. by destruct Hnf; auto.
  - split; [|done]. right; left. eauto.
  - destruct Hok as (_ & Hf & _). rewrite Forall_forall in Hf. by destruct Hnf; auto.
  - split; [|done]. right; right. eauto.
Qed.

Lemma resume_ctrl i p r s s' :
  resume i p r s = Some s' →
  ctrl s' = ctrl s ∨
  (ctrl s = CtlWave ∧ ∃ msg, p_pc p = AwaitFailEmit msg ∧ r = Ok ∧
     ctrl s' = CtlFailed (TaskError (node_id (p_node p)) (node_task (p_node p)) msg)) ∨
  (ctrl s = CtlWave ∧ ∃ e, r = Err e ∧ ctrl s' = CtlFailed (RawError e) ∧
     (p_pc p = AwaitStartEmit ∨ ∃ msg, p_pc p = AwaitFailEmit msg)).
Proof.
  unfold resume. destruct (p_pc p) eqn:Hpc, r; try done.
  all: try (destruct (emit_can_reject s); [|done]).
  all: intros [= <-].
  all: try (progress unfold enter_try;
            destruct (String.prefix "generate-" (node_task (p_node p)));
            [|destruct (decide (node_task (p_node p) = "start-vm"))]).
  all: try match goal with |- context [truthy ?u] => destruct (truthy u) end.
  all: try (by left).
  all: rewrite ?throw_task_ctrl, ?throw_raw_ctrl; destruct (ctrl s) eqn:Hc;
       try (by left).
  - right; right. split; [done|]. exists e. eauto.
  - right; left. split; [done|]. by exists msg.
  - right; right. split; [done|]. exists e. eauto.
Qed.

(** Once the pipeline has thrown, nothing changes its result and no node
    is dispatched any more. *)
Lemma failed_step job s a s' e :
  Inv job s → ctrl s = CtlFailed e → step s a = Some s' →
  ctrl s' = CtlFailed e ∧
  ∀ u, status_of s u = Some Pending → status_of s' u = Some Pending.
Proof.
  intros HI Hc Hstep. split.
  - destruct a as [|e'|i r]; simpl in Hstep.
    + unfold step_ctl_ok in Hstep. by rewrite Hc in Hstep.
    + unfold step_ctl_err in Hstep. by rewrite Hc in Hstep.
    + destruct (promises s !! i) as [p|] eqn:Hi; [|done].
      destruct (resume_ctrl _ _ _ _ _ Hstep) as [->|[[Hw _]|[Hw _]]]; [done| |].
      all: rewrite Hc in Hw; done.
  - intros u Hu.
    destruct (step_status _ _ _ _ u HI Hstep)
      as [Heq|[(_ & Hb & _ & _)|[(i & r & p & _ & _ & _ & Hr & _)
                                 |(i & e' & p & _ & _ & _ & _ & Hr & _)]]].
    + by rewrite Heq.
    + rewrite Hc in Hb. by apply elem_of_nil in Hb.
    + rewrite Hu in Hr. done.
    + rewrite Hu in Hr. done.
Qed.

Lemma failed_run job s acts s' e :
  Inv job s → ctrl s = CtlFailed e → run s acts = Some s' →
  ctrl s' = CtlFailed e ∧
  ∀ u, status_of s u = Some Pending → status_of s' u = Some Pending.
Proof.
  revert s. induction acts as [|a acts IH]; intros s HI Hc; simpl.
  - intros [= <-]. auto.
  - destruct (step s a) as [s1|] eqn:Hs; [|done]. intros Hrun.
    destruct (failed_step _ _ _ _ _ HI Hc Hs) as [Hc1 Hp1].
    destruct (IH s1 (Inv_step _ _ _ _ HI Hs) Hc1 Hrun) as [Hc2 Hp2]. auto.
Qed.

(** Once a node has failed, no pending node is ever dispatched. *)
Lemma no_dispatch_after_failure job s acts s' v :
  Inv job s → status_of s v = Some Failed → run s acts = Some s' →
  ∀ u, status_of s u = Some Pending → status_of s' u = Some Pending.
Proof.
  revert s. induction acts as [|a acts IH]; intros s HI Hv; simpl.
  - by intros [= <-].
  - destruct (step s a) as [s1|] eqn:Hs; [|done]. intros Hrun u Hu.
    destruct (step_status_stable _ _ _ _ _ _ HI Hs Hv) as (st & Hv1 & _ & Hk & _);
      [done|].
    rewrite Hk in Hv1 by auto.
    apply (IH s1 (Inv_step _ _ _ _ HI Hs) Hv1 Hrun).
    destruct (step_status _ _ _ _ u HI Hs)
      as [Heq|[(-> & Hb & _ & _)|[(i & r & p & _ & _ & _ & Hr & _)
                                  |(i & e' & p & _ & _ & _ & _ & Hr & _)]]].
    + by rewrite Heq.
    + destruct (failed_ctrl _ _ _ HI Hv) as [_ Hnone]. rewrite Hs in Hnone. done.
    + rewrite Hu in Hr. done.
    + rewrite Hu in Hr. done.
Qed.

(** ** Entering the ready queue *)

Lemma run_snoc s acts a s1 s2 :
  run s acts = Some s1 → step s1 a = Some s2 → run s (acts ++ [a]) = Some s2.
Proof.
  revert s. induction acts as [|b acts IH]; intros s; simpl.
  - intros [= ->] ->. done.
  - destruct (step s b); [|done]. apply IH.
Qed.

Lemma enqueued_zero job s v :
  Inv job s → v ∈ queue s → inDegree s !! v = Some 0%Z.
Proof.
  intros (_ & HC & _) Hv.
  assert (Hr : v ∈ ready s) by (unfold ready; apply elem_of_app; by left).
  assert (Hp := core_ready_pending _ _ _ HC v Hr).
  assert (Hid : v ∈ ids (job_workGraph job)).
  { apply (core_node_iff HC). unfold status_of in Hp.
    destruct (nodes s !! v); [eauto|done]. }
  apply (core_ready _ _ _ HC v Hid). by right.
Qed.

(** The release loop pushes an id only when its counter comes down to
    zero from above. *)
Lemma release_not_pushed l deg q v k :
  deg !! v = Some k → (k ≤ 0)%Z → v ∉ q →
  v ∉ (foldl release_one (deg, q) l).2.
Proof.
  revert deg q k. induction l as [|w l IH]; intros deg q k Hk Hle Hq; [done|].
  simpl. unfold release_one at 2. simpl.
  destruct (deg !! w) as [kw|] eqn:Hw; [|by eapply IH].
  destruct (decide (w = v)) as [->|Hne].
  - rewrite Hk in Hw. injection Hw as <-.
    rewrite decide_False by lia.
    apply (IH _ _ (k - 1)%Z); [by rewrite lookup_insert_eq|lia|done].
  - case_decide.
    + apply (IH _ _ k); [by rewrite lookup_insert_ne|done|].
      rewrite elem_of_app, list_elem_of_singleton. intros [?|?]; [done|congruence].
    + apply (IH _ _ k); [by rewrite lookup_insert_ne|done..].
Qed.

(** Only the release loop of a returning callback adds to the queue. *)
Lemma resume_queue i p r s s' :
  resume i p r s = Some s' →
  queue s' = queue s ∨
  queue s' = (foldl release_one (inDegree s, queue s)
                (default [] (adj s !! p_nodeId p))).2.
Proof.
  unfold resume. destruct (p_pc p) eqn:Hpc, r; try done.
  all: try (destruct (emit_can_reject s); [|done]).
  all: intros [= <-].
  all: try (progress unfold enter_try;
            destruct (String.prefix "generate-" (node_task (p_node p)));
            [|destruct (decide (node_task (p_node p) = "start-vm"))]).
  all: try match goal with |- context [truthy ?u] => destruct (truthy u) end.
  all: try (by left).
  all: try (by right).
  all: left.
  - by destruct (throw_raw_fields s i RejectedStart e) as (_&_&_&_&_&->&_).
  - by destruct (throw_task_fields s i p msg) as (_&_&_&_&_&->&_).
  - by destruct (throw_raw_fields s i Rejected e) as (_&_&_&_&_&->&_).
Qed.

(** A node whose in-degree is already zero is not pushed again. *)
Lemma not_requeued job s a s' v :
  Inv job s → inDegree s !! v = Some 0%Z → v ∉ queue s →
  step s a = Some s' → v ∉ queue s'.
Proof.
  intros HI Hz Hq Hstep. destruct a as [|e|i r]; simpl in Hstep.
  - unfold step_ctl_ok in Hstep. destruct (ctrl s) as [|b| | |r|e] eqn:Hc; try done.
    + destruct HI as (_ & _ & Hok). unfold ctrl_ok in Hok. by rewrite Hc in Hok.
    + injection Hstep as <-. unfold spawn.
      destruct (spawn_loop_frame b (set_ctrl CtlWave (upd_promises (λ _, []) s)))
        as (_&_&_&_&->&_). done.
    + destruct (forallb is_fulfilled (promises s)); [|done]. injection Hstep as <-.
      unfold loop_head. destruct (queue s) eqn:Hqs; [by case_decide; simpl; rewrite Hqs|].
      simpl. apply not_elem_of_nil.
    + by injection Hstep as <-.
  - by destruct (step_ctl_err_inv _ _ _ Hstep) as (_ & -> & _).
  - destruct (promises s !! i) as [p|] eqn:Hi; [|done].
    destruct (resume_queue _ _ _ _ _ Hstep) as [-> | ->]; [done|].
    by eapply release_not_pushed.
Qed.

(** ** Graphs with a cycle cannot succeed *)

Lemma cyclic_no_success job acts s :
  cyclic (job_workGraph job) → execute job acts = Some s →
  ctrl s ≠ CtlFinal ∧ ∀ r, ctrl s ≠ CtlSucceeded r.
Proof.
  intros [c Hc] Hex.
  destruct (execute_cases _ _ _ Hex) as [[-> ->]|[(e & -> & _ & ->)|(acts' & -> & HI)]];
    [done..|].
  assert (Hno : completedCount s ≠ size (nodes s)).
  { intros Hcnt. destruct (tc_depends_ids _ _ _ Hc) as [Hcid _].
    destruct (full_count_all_released _ _ HI Hcnt c Hcid) as [Hst _].
    rewrite (cycle_pending _ _ _ c Hex) in Hst; done. }
  destruct HI as (_ & _ & Hok). unfold ctrl_ok in Hok.
  split; [|intros r]; intros Hctl; rewrite Hctl in Hok; destruct Hno;
    by destruct Hok as (_&_&?&_) || by destruct Hok as (_&_&?).
Qed.

(** The loop test either yields a batch or leaves the loop, and leaving it
    ends in the final event or in the count-mismatch error. *)
Lemma loop_head_ctrl s :
  (∃ b, ctrl (loop_head s) = CtlBatch b) ∨ ctrl (loop_head s) = CtlFinal
  ∨ ctrl (loop_head s) = CtlFailed IncompleteError.
Proof.
  unfold loop_head. destruct (queue s); [case_decide|]; simpl; eauto.
Qed.

(** ** The preview URL *)


Lemma enter_try_nodes i p s : nodes (enter_try i p s) = nodes s.
Proof.
  unfold enter_try. destruct (String.prefix "generate-" (node_task (p_node p)));
    [done|]. by destruct (decide (node_task (p_node p) = "start-vm")).
Qed.

(** ** Nothing is published under a falsy build identifier *)

Lemma emit_silent m st d w : emitProgress EmptyString m st d w = w.
Proof. unfold emitProgress. by rewrite decide_True. Qed.

Lemma events_step s a s' :
  buildId s = EmptyString → step s a = Some s' →
  events (world s') = events (world s) ∧ buildId s' = EmptyString.
Proof.
  intros Hb. destruct a as [|e|i r]; simpl.
  - unfold step_ctl_ok. destruct (ctrl s) as [|b| | |r|e]; try done.
    + intros [= <-]. destruct (loop_head_frame (build s)) as (_&_&_&_&_&_&_&_&->).
      split; [|done]. unfold loop_head. simpl.
      destruct (initial_queue _ _); [case_decide|]; simpl; by rewrite ?Hb, ?emit_silent.
    + intros [= <-]. unfold spawn.
      destruct (spawn_loop_frame b (set_ctrl CtlWave (upd_promises (λ _, []) s)))
        as (_&_&_&_&_&_&_&->). split; [|done].
      assert (Hloop : ∀ l s0, buildId s0 = EmptyString →
                events (world (foldl spawn_one s0 l)) = events (world s0)).
      { induction l as [|w l IH]; intros s0 Hs0; [done|]. simpl.
        rewrite IH.
        - unfold spawn_one. destruct (nodes s0 !! w); simpl.
          + by rewrite Hs0, emit_silent.
          + unfold reject. simpl. by destruct (ctrl s0).
        - by destruct (spawn_one_frame s0 w) as (_&_&_&_&_&_&_&->). }
      by rewrite Hloop.
    + destruct (forallb is_fulfilled (promises s)); [|done]. intros [= <-].
      destruct (loop_head_frame s) as (_&_&_&_&_&_&_&_&->). split; [|done].
      unfold loop_head. destruct (queue s); [case_decide|]; simpl;
        by rewrite ?Hb, ?emit_silent.
    + by intros [= <-].
  - intros Hstep. destruct (step_ctl_err_inv _ _ _ Hstep) as (Hne & _). done.
  - destruct (promises s !! i) as [p|] eqn:Hi; [|done]. unfold resume.
    assert (Hcan : emit_can_reject s = false).
    { unfold emit_can_reject. apply bool_decide_eq_false. auto. }
    destruct (p_pc p) eqn:Hpc, r; try done; rewrite ?Hcan; try done; intros [= <-].
    all: try (progress unfold enter_try;
              destruct (String.prefix "generate-" (node_task (p_node p)));
              [|destruct (decide (node_task (p_node p) = "start-vm"))]).
    all: try match goal with |- context [truthy ?u] => destruct (truthy u) end.
    all: try (by split).
    all: try (unfold complete_node, fail_node; simpl; by rewrite Hb, emit_silent).
    by destruct (throw_task_fields s i p msg) as (_&_&_&_&_&_&_&->&_&->).
Qed.

Lemma events_silent job acts s :
  job_buildId job = EmptyString → execute job acts = Some s → events (world s) = [].
Proof.
  intros Hb. unfold execute.
  assert (Hrun : ∀ l s0, buildId s0 = EmptyString → run s0 l = Some s →
                         events (world s) = events (world s0)).
  { induction l as [|a l IH]; intros s0 Hs0; simpl.
    - by intros [= <-].
    - destruct (step s0 a) as [s1|] eqn:Hs; [|done]. intros Hr.
      destruct (events_step _ _ _ Hs0 Hs) as [He Hb1].
      by rewrite (IH s1 Hb1 Hr). }
  intros Hex. rewrite (Hrun acts (start job) Hb Hex). simpl.
  by rewrite Hb, emit_silent.
Qed.


(** ** Files are only added *)

Lemma resume_files i p r s s' :
  resume i p r s = Some s' →
  buildId s' = buildId s ∧
  (localFiles (world s') = localFiles (world s)
   ∨ ∃ f c, p_pc p = AwaitWrite f c ∧ r = Ok ∧
            localFiles (world s') = localFiles (world s) ++ [file_of s f c]) ∧
  (vmFiles (world s') = vmFiles (world s)
   ∨ ∃ f c, p_pc p = AwaitUpload f c ∧ r = Ok ∧
            vmFiles (world s') = vmFiles (world s) ++ [file_of s f c]).
Proof.
  unfold resume. intros Hres.
  destruct (p_pc p) eqn:Hpc, r; try done.
  all: try (destruct (emit_can_reject s); [|done]).
  all: injection Hres as <-.
  all: try (progress unfold enter_try;
            destruct (String.prefix "generate-" (node_task (p_node p)));
            [|destruct (decide (node_task (p_node p) = "start-vm"))]).
  all: try (match goal with
            | |- context [throw_task _ _ ?m _] =>
                destruct (throw_task_fields s i p m) as (_&_&_&_&_&_&_&Fb&_&Fw)
            | |- context [throw_raw _ ?pc ?e _] =>
                destruct (throw_raw_fields s i pc e) as (_&_&_&_&_&_&_&Fb&_&Fw)
            end; rewrite Fw, Fb; split_and!; [done|by left|by left]).
  all: unfold complete_node, fail_node, finish_node.
  all: try match goal with |- context [truthy ?u] => destruct (truthy u) end.
  all: simpl; rewrite ?emit_localFiles, ?emit_vmFiles; simpl.
  all: split_and!; [done|first [by left|right; eauto]|first [by left|right; eauto]].
Qed.

Lemma ctl_world job s s' :
  Inv job s → step_ctl_ok s = Some s' →
  taskJobs (world s') = taskJobs (world s) ∧ localFiles (world s') = localFiles (world s)
  ∧ vmFiles (world s') = vmFiles (world s) ∧ vmSessions (world s') = vmSessions (world s)
  ∧ previewUrl s' = previewUrl s ∧ buildId s' = buildId s.
Proof.
  intros (_ & _ & Hok) Hstep. unfold step_ctl_ok in Hstep.
  destruct (ctrl s) as [|b| | |r|e] eqn:Hc; simpl in *; try done.
  - unfold ctrl_ok in Hok. by rewrite Hc in Hok.
  - injection Hstep as <-.
    destruct (spawn_loop_world b (set_ctrl CtlWave (upd_promises (λ _, []) s)))
      as (H1 & H2 & H3 & H4).
    destruct (spawn_loop_frame b (set_ctrl CtlWave (upd_promises (λ _, []) s)))
      as (_&_&_&_&_&_&H5&H6).
    by split_and!.
  - destruct (forallb is_fulfilled (promises s)); [|done]. injection Hstep as <-.
    destruct (loop_head_world s) as (H1 & H2 & H3 & H4).
    destruct (loop_head_frame s) as (_&_&_&_&_&_&_&H5&H6).
    by split_and!.
  - by injection Hstep as <-.
Qed.


(** ** The file of a generation node *)






(** * The claims *)

(** A completed node becomes failed only by the rejected publication of
    its completed event. *)
Lemma completed_to_failed job s a s' v :
  Inv job s → step s a = Some s' →
  status_of s v = Some Completed → status_of s' v = Some Failed →
  ∃ i e p, a = Resume i (Err e) ∧ promises s !! i = Some p ∧
           p_nodeId p = v ∧ p_pc p = AwaitDoneEmit.
Proof.
  intros HI Hstep Hc Hf.
  destruct (step_status _ _ _ _ v HI Hstep)
    as [Heq|[(_ & _ & Hp & _)|[(i & r & p & _ & _ & _ & Hr & _)
                               |(i & e & p & -> & Hi & Hv & Hpc & _)]]].
  - rewrite Heq, Hc in Hf. done.
  - rewrite Hc in Hp. done.
  - rewrite Hc in Hr. done.
  - by exists i, e, p.
Qed.

(** C5: the pipeline declares success only when [completedCount] equals
    [nodes.size]; then every node of the graph is completed.  When the wave
    loop ends without a new batch and the two counts differ, the pipeline
    throws the count-mismatch error instead of reporting success. *)
Theorem C5_success_needs_full_count job acts s :
  execute job acts = Some s →
  (ctrl s = CtlFinal ∨ (∃ r, ctrl s = CtlSucceeded r) →
     completedCount s = size (nodes s) ∧
     ∀ v n, nodes s !! v = Some n → node_status n = Completed) ∧
  (∀ s', step s Ctl = Some s' → ctrl s = CtlInit ∨ ctrl s = CtlWave →
     (∀ b, ctrl s' ≠ CtlBatch b) → completedCount s' ≠ size (nodes s') →
     ctrl s' = CtlFailed IncompleteError).
Proof.
  intros Hex. split.
  - intros Hc.
    destruct (execute_cases _ _ _ Hex)
      as [[-> ->]|[(e & -> & _ & ->)|(acts' & -> & HI)]].
    { destruct Hc as [Hc|[r Hc]]; done. }
    { destruct Hc as [Hc|[r Hc]]; done. }
    pose proof HI as (_ & HC & Hok). unfold ctrl_ok in Hok.
    assert (Hcnt : completedCount s = size (nodes s)).
    { destruct Hc as [Hc|[r Hc]]; rewrite Hc in Hok; destruct Hok as (_&_&H);
        first [exact H|exact (proj1 H)]. }
    split; [done|]. intros v n Hn.
    assert (Hv : v ∈ ids (job_workGraph job)) by (apply (core_node_iff HC); eauto).
    destruct (full_count_all_released _ _ HI Hcnt v Hv) as [Hst _].
    unfold status_of in Hst. rewrite Hn in Hst. by injection Hst.
  - intros s' Hstep Hc Hnb Hne. simpl in Hstep. unfold step_ctl_ok in Hstep.
    assert (Hlh : ∀ s0, s' = loop_head s0 → ctrl s' = CtlFailed IncompleteError).
    { intros s0 ->. unfold loop_head in *. destruct (queue s0) eqn:Hq.
      - case_decide as Hd; [|done]. simpl in Hne. done.
      - by destruct (Hnb (s1 :: l)). }
    destruct Hc as [Hc|Hc]; rewrite Hc in Hstep.
    + injection Hstep as Hs. by eapply Hlh.
    + destruct (forallb is_fulfilled (promises s)); [|done].
      injection Hstep as Hs. by eapply Hlh.
Qed.

(** C5 at the end of the successful run of [job_diamond]. *)
Lemma C5_witness :
  let s := state_after job_diamond run_diamond in
  execute job_diamond run_diamond = Some s ∧
  (ctrl s = CtlFinal ∨ (∃ r, ctrl s = CtlSucceeded r) →
     completedCount s = size (nodes s) ∧
     ∀ v n, nodes s !! v = Some n → node_status n = Completed) ∧
  (∀ s', step s Ctl = Some s' → ctrl s = CtlInit ∨ ctrl s = CtlWave →
     (∀ b, ctrl s' ≠ CtlBatch b) → completedCount s' ≠ size (nodes s') →
     ctrl s' = CtlFailed IncompleteError).
Proof.
  assert (H : execute job_diamond run_diamond
              = Some (state_after job_diamond run_diamond))
    by (vm_compute; reflexivity).
  exact (conj H (C5_success_needs_full_count job_diamond run_diamond _ H)).
Defined.




Lemma job_cycle_cyclic : cyclic (job_workGraph job_cycle).
Proof.
  exists "B". apply tc_l with "C"; [|apply tc_once].
  - eexists. split_and!; [vm_compute; reflexivity|by left|vm_compute; eauto].
  - eexists. split_and!; [vm_compute; reflexivity|by left|vm_compute; eauto].
Qed.

(** C2 (as stated it fails): no validation precedes the first wave; on a
    graph with a cycle the node outside the cycle has been dispatched while
    no error has been raised. *)
Lemma C2_counterexample :
  let s := state_after job_cycle [Ctl; Ctl] in
  cyclic (job_workGraph job_cycle) ∧
  execute job_cycle [Ctl; Ctl] = Some s ∧
  status_of s "A" = Some Running ∧ ctrl s = CtlWave.
Proof.
  split_and!; [apply job_cycle_cyclic|by vm_compute..].
Qed.

(** C2 (amended): on a graph with a dependency cycle the nodes on a cycle
    are never dispatched, the pipeline never reports success, it rests only
    in the failed state, with the count-mismatch error, a task error or the
    error of a rejected publication of a progress event, and it does not
    hang: while it has not ended some await can be resumed, and no run is
    longer than [step_bound]. *)
Theorem C2_cycle_never_succeeds job acts s :
  cyclic (job_workGraph job) → execute job acts = Some s →
  (∀ v st, tc (depends (job_workGraph job)) v v →
     status_of s v = Some st → st = Pending) ∧
  ctrl s ≠ CtlFinal ∧ (∀ r, ctrl s ≠ CtlSucceeded r) ∧
  (quiescent s →
     ctrl s = CtlFailed IncompleteError ∨
     (∃ w t m, ctrl s = CtlFailed (TaskError w t m)) ∨
     (∃ e, ctrl s = CtlFailed (RawError e) ∧ job_buildId job ≠ EmptyString)) ∧
  (¬ terminal (ctrl s) → ∃ a s', step s a = Some s') ∧
  length acts ≤ step_bound job.
Proof.
  intros Hcyc Hex.
  destruct (cyclic_no_success _ _ _ Hcyc Hex) as [Hnf Hns].
  split_and!; [|done|done| |by eapply progress|].
  - intros v st Hv Hst.
    destruct (execute_cases _ _ _ Hex)
      as [[-> ->]|[(e & -> & _ & ->)|(acts' & -> & HI)]]; [done..|].
    rewrite (cycle_pending _ _ _ v Hex) in Hst by done. by injection Hst.
  - intros Hq.
    destruct (execute_cases _ _ _ Hex)
      as [[-> ->]|[(e & -> & Hne & ->)|(acts' & -> & HI)]].
    + specialize (Hq Ctl). done.
    + right; right. by exists e.
    + destruct (quiescent_settled _ _ HI Hq) as [Hterm _].
      unfold terminal in Hterm. destruct HI as (Hb & _ & Hok). unfold ctrl_ok in Hok.
      destruct (ctrl s) as [| | | |r|[w t m| | |e]]; try done;
        [by destruct (Hns r)|right; left; eauto|by left|].
      right; right. exists e. by rewrite <- Hb.
  - pose proof (execute_bounded _ _ _ Hex). lia.
Qed.

(** C2 (amended) at [job_cycle], after the first wave has been started. *)
Lemma C2_witness :
  let job := job_cycle in
  let acts := [Ctl; Ctl] in
  let s := state_after job acts in
  (cyclic (job_workGraph job) ∧ execute job acts = Some s) ∧
  (∀ v st, tc (depends (job_workGraph job)) v v →
     status_of s v = Some st → st = Pending) ∧
  ctrl s ≠ CtlFinal ∧ (∀ r, ctrl s ≠ CtlSucceeded r) ∧
  (quiescent s →
     ctrl s = CtlFailed IncompleteError ∨
     (∃ w t m, ctrl s = CtlFailed (TaskError w t m)) ∨
     (∃ e, ctrl s = CtlFailed (RawError e) ∧ job_buildId job ≠ EmptyString)) ∧
  (¬ terminal (ctrl s) → ∃ a s', step s a = Some s') ∧
  length acts ≤ step_bound job.
Proof.
  assert (H : execute job_cycle [Ctl; Ctl] = Some (state_after job_cycle [Ctl; Ctl]))
    by (vm_compute; reflexivity).
  exact (conj (conj job_cycle_cyclic H)
           (C2_cycle_never_succeeds job_cycle [Ctl; Ctl] _ job_cycle_cyclic H)).
Defined.

(** C3 (as stated it fails): both pages of [job_pair] fail, A first.  The
    error event of B is accepted first, so the callback of B is the first
    to throw: the pipeline has failed and is at rest, A is a failed node,
    and the cause names B.  And when A fails and the publication of its
    error event is rejected, the pipeline fails with the error of the
    progress queue, which names no node. *)
Lemma C3_counterexample :
  let s := state_after job_pair run_pair_both_fail in
  let s' := state_after job_pair run_pair_unreported in
  (execute job_pair run_pair_both_fail = Some s ∧
   status_of s "A" = Some Failed ∧ quiescent s ∧
   ctrl s = CtlFailed (TaskError "B" "generate-page" "boom")) ∧
  (execute job_pair run_pair_unreported = Some s' ∧
   status_of s' "A" = Some Failed ∧
   ctrl s' = CtlFailed (RawError queue_down)).
Proof.
  split.
  - split_and!; [by vm_compute|by vm_compute| |by vm_compute].
    apply settled_quiescent.
    + by vm_compute.
    + by_compute.
  - split_and!; by vm_compute.
Qed.

(** C3 (amended): once a node has failed, the controller is still waiting
    on the wave of that node or has thrown, a task error or the error of a
    rejected publication; a thrown task error names the id and the task
    kind of a failed node, which is the node of the first callback to
    throw: it names the given node when its callback throws while the
    controller is waiting.  From then on, whatever the other nodes of the
    wave do, the node stays failed, the pipeline never succeeds, it has
    failed whenever it is at rest, the controller cannot start another
    wave and no pending node is dispatched any more. *)
Theorem C3_failure_is_fatal job acts s v :
  execute job acts = Some s → status_of s v = Some Failed →
  (ctrl s = CtlWave ∨ (∃ w t m, ctrl s = CtlFailed (TaskError w t m))
   ∨ ∃ e, ctrl s = CtlFailed (RawError e)) ∧
  (∀ w t m, ctrl s = CtlFailed (TaskError w t m) →
     ∃ n, nodes s !! w = Some n ∧ node_status n = Failed ∧
          t = node_task (node_def n)) ∧
  (∀ i p msg s',
     promises s !! i = Some p → p_nodeId p = v → p_pc p = AwaitFailEmit msg →
     ctrl s = CtlWave → step s (Resume i Ok) = Some s' →
     ∃ n, nodes s !! v = Some n ∧
          ctrl s' = CtlFailed (TaskError v (node_task (node_def n)) msg)) ∧
  (∀ acts' s' u, run s acts' = Some s' →
     status_of s' v = Some Failed ∧
     (∀ r, ctrl s' ≠ CtlSucceeded r) ∧
     (quiescent s' → ∃ e, ctrl s' = CtlFailed e) ∧
     step s' Ctl = None ∧
     (status_of s u = Some Pending → status_of s' u = Some Pending)).
Proof.
  intros Hex Hv.
  destruct (execute_cases _ _ _ Hex)
    as [[-> ->]|[(e & -> & _ & ->)|(acts' & -> & HI)]]; [done..|].
  destruct (failed_ctrl _ _ _ HI Hv) as [Hctl Hnone].
  pose proof HI as (_ & HC & Hok).
  split_and!; [done| | |].
  - intros w t m He. unfold ctrl_ok in Hok. rewrite He in Hok.
    destruct Hok as (p & Hp & Hr & <- & <-).
    destruct (core_prom _ _ _ HC p Hp) as (n & Hn & Hd & Hst).
    destruct (core_node_def HC _ _ Hn) as [_ Hid].
    exists n. rewrite <- Hd, Hid, Hst, Hr. done.
  - intros i p msg s' Hi Hpv Hpc Hw Hstep.
    assert (Hp : p ∈ promises s) by (apply list_elem_of_lookup; eauto).
    destruct (core_prom _ _ _ HC p Hp) as (n & Hn & Hd & Hst).
    destruct (core_node_def HC _ _ Hn) as [_ Hid].
    exists n. rewrite <- Hpv. split; [done|].
    simpl in Hstep. rewrite Hi in Hstep. unfold resume in Hstep.
    rewrite Hpc in Hstep. injection Hstep as <-.
    by rewrite throw_task_ctrl, Hw, <- Hd, Hid.
  - intros acts0 s' u Hrun.
    pose proof (Inv_run _ _ _ _ HI Hrun) as HI'.
    assert (Hv' : status_of s' v = Some Failed).
    { destruct (run_status_stable _ _ _ _ _ _ HI Hrun Hv) as (st' & Hv' & _ & Hk & _);
        [done|]. by rewrite (Hk eq_refl) in Hv'. }
    destruct (failed_ctrl _ _ _ HI' Hv') as [Hctl' Hnone'].
    split_and!; [done| | |done|].
    + intros r Hr. destruct Hctl' as [Hw|[(w & t & m & Hf)|[e Hf]]]; congruence.
    + intros Hq. destruct (quiescent_settled _ _ HI' Hq) as [Hterm _].
      destruct Hctl' as [Hw|[(w & t & m & Hf)|[e Hf]]];
        [by rewrite Hw in Hterm|eauto..].
    + by eapply no_dispatch_after_failure.
Qed.

(** C3 (amended) at [job_pair], where B has completed and A has failed. *)
Lemma C3_witness :
  let s := state_after job_pair run_pair_late_reject in
  let v := "A" in
  (execute job_pair run_pair_late_reject = Some s ∧ status_of s v = Some Failed) ∧
  (ctrl s = CtlWave ∨ (∃ w t m, ctrl s = CtlFailed (TaskError w t m))
   ∨ ∃ e, ctrl s = CtlFailed (RawError e)) ∧
  (∀ w t m, ctrl s = CtlFailed (TaskError w t m) →
     ∃ n, nodes s !! w = Some n ∧ node_status n = Failed ∧
          t = node_task (node_def n)) ∧
  (∀ i p msg s',
     promises s !! i = Some p → p_nodeId p = v → p_pc p = AwaitFailEmit msg →
     ctrl s = CtlWave → step s (Resume i Ok) = Some s' →
     ∃ n, nodes s !! v = Some n ∧
          ctrl s' = CtlFailed (TaskError v (node_task (node_def n)) msg)) ∧
  (∀ acts' s' u, run s acts' = Some s' →
     status_of s' v = Some Failed ∧
     (∀ r, ctrl s' ≠ CtlSucceeded r) ∧
     (quiescent s' → ∃ e, ctrl s' = CtlFailed e) ∧
     step s' Ctl = None ∧
     (status_of s u = Some Pending → status_of s' u = Some Pending)).
Proof.
  assert (H1 : execute job_pair run_pair_late_reject
               = Some (state_after job_pair run_pair_late_reject))
    by (vm_compute; reflexivity).
  assert (H2 : status_of (state_after job_pair run_pair_late_reject) "A" = Some Failed)
    by (vm_compute; reflexivity).
  exact (conj (conj H1 H2) (C3_failure_is_fatal job_pair run_pair_late_reject _ "A" H1 H2)).
Defined.

(** C4 (as stated it fails): [Promise.all] rejects with the first rejected
    callback.  The pipeline has already failed while the sibling B is
    still running, with the answer of its worker outstanding. *)
Lemma C4_counterexample :
  let s := state_after job_pair run_pair_early_reject in
  execute job_pair run_pair_early_reject = Some s ∧
  ctrl s = CtlFailed (TaskError "A" "generate-page" "boom") ∧
  status_of s "B" = Some Running ∧
  p_pc <$> promises s !! 1 = Some AwaitJobFinished.
Proof. split_and!; by vm_compute. Qed.

(** C4 (amended): when a callback of the wave throws while the controller
    waits on the wave, the controller fails at once with that node's id,
    task kind and message; the other callbacks of the wave are left as they
    are, neither awaited nor cancelled; each of them can still be resumed
    to its own outcome; the result stays failed and no pending node is
    dispatched afterwards. *)
Theorem C4_rejection_is_immediate job acts s i p msg s' :
  execute job acts = Some s →
  promises s !! i = Some p → p_pc p = AwaitFailEmit msg → ctrl s = CtlWave →
  step s (Resume i Ok) = Some s' →
  ctrl s' = CtlFailed (TaskError (p_nodeId p) (node_task (p_node p)) msg) ∧
  (∀ j, j ≠ i → promises s' !! j = promises s !! j) ∧
  (∀ j q, promises s' !! j = Some q → ¬ settled q →
     ∃ r s2, step s' (Resume j r) = Some s2) ∧
  (∀ acts' s2, run s' acts' = Some s2 →
     ctrl s2 = ctrl s' ∧
     ∀ u, status_of s' u = Some Pending → status_of s2 u = Some Pending).
Proof.
  intros Hex Hi Hpc Hc Hstep.
  destruct (execute_cases _ _ _ Hex)
    as [[-> ->]|[(e & -> & _ & ->)|(acts' & -> & HI)]]; [done..|].
  assert (HI' : Inv job s') by (by eapply Inv_step).
  assert (Hp : p ∈ promises s) by (apply list_elem_of_lookup; eauto).
  destruct (promise_node _ _ _ HI Hp) as [Hid _].
  simpl in Hstep. rewrite Hi in Hstep. unfold resume in Hstep.
  rewrite Hpc in Hstep. injection Hstep as <-.
  assert (Hc' : ctrl (throw_task i p msg s)
                = CtlFailed (TaskError (p_nodeId p) (node_task (p_node p)) msg)).
  { by rewrite throw_task_ctrl, Hc, Hid. }
  split_and!; [done| | |].
  - intros j Hj. rewrite throw_task_promises. by apply list_lookup_alter_ne.
  - intros j q Hq Hns. destruct (resume_enabled j q (throw_task i p msg s) Hns) as [s2 Hs2].
    exists (answer (p_pc q)), s2. simpl. by rewrite Hq.
  - intros acts0 s2 Hrun. rewrite Hc'. by eapply failed_run.
Qed.

(** C4 (amended) at [job_pair], at the step in which A throws. *)
Lemma C4_witness :
  let s := state_after job_pair run_pair_throwing in
  let p := promise_A_throwing in
  let s' := state_after job_pair run_pair_early_reject in
  (execute job_pair run_pair_throwing = Some s ∧ promises s !! 0 = Some p ∧
   p_pc p = AwaitFailEmit "boom" ∧ ctrl s = CtlWave ∧
   step s (Resume 0 Ok) = Some s') ∧
  ctrl s' = CtlFailed (TaskError (p_nodeId p) (node_task (p_node p)) "boom") ∧
  (∀ j, j ≠ 0 → promises s' !! j = promises s !! j) ∧
  (∀ j q, promises s' !! j = Some q → ¬ settled q →
     ∃ r s2, step s' (Resume j r) = Some s2) ∧
  (∀ acts' s2, run s' acts' = Some s2 →
     ctrl s2 = ctrl s' ∧
     ∀ u, status_of s' u = Some Pending → status_of s2 u = Some Pending).
Proof.
  assert (H1 : execute job_pair run_pair_throwing
               = Some (state_after job_pair run_pair_throwing))
    by (vm_compute; reflexivity).
  assert (H2 : promises (state_after job_pair run_pair_throwing) !! 0
               = Some promise_A_throwing)
    by (vm_compute; reflexivity).
  assert (H3 : p_pc promise_A_throwing = AwaitFailEmit "boom") by reflexivity.
  assert (H4 : ctrl (state_after job_pair run_pair_throwing) = CtlWave)
    by (vm_compute; reflexivity).
  assert (H5 : step (state_after job_pair run_pair_throwing) (Resume 0 Ok)
               = Some (state_after job_pair run_pair_early_reject))
    by (vm_compute; reflexivity).
  exact (conj (conj H1 (conj H2 (conj H3 (conj H4 H5))))
           (C4_rejection_is_immediate job_pair run_pair_throwing _ 0
              promise_A_throwing "boom" _ H1 H2 H3 H4 H5)).
Defined.

(** C6 (as stated it fails): a graph with a dangling [dependsOn] entry is
    not rejected; its node is dispatched and the pipeline succeeds. *)
Lemma C6_counterexample :
  let s := state_after job_dangling run_dangling in
  ¬ no_dangling (job_workGraph job_dangling) ∧
  execute job_dangling run_dangling = Some s ∧
  status_of s "A" = Some Completed ∧
  ctrl s = CtlSucceeded {| res_buildId := "b5"; res_previewUrl := None |}.
Proof.
  split_and!; [|by vm_compute..].
  apply (bool_decide_unpack _). by vm_compute.
Qed.

(** C6 (amended): a [dependsOn] entry that names no node is skipped when
    the index is built: the in-degree of a node counts exactly its entries
    that name a node, no adjacency list is made for an absent id, and the
    first wave consists of the nodes all of whose entries are dangling or
    absent. *)
Theorem C6_dangling_skipped job :
  let g := job_workGraph job in
  let s := build (start job) in
  (∀ w n, nodes s !! w = Some n →
     inDegree s !! w
     = Some (Z.of_nat (length (filter (λ d, d ∈ ids g) (node_dependsOn (node_def n)))))) ∧
  (∀ u, is_Some (adj s !! u) ↔ u ∈ ids g) ∧
  (∀ w, w ∈ queue s ↔
        ∃ n, nodes s !! w = Some n ∧
             ∀ d, d ∈ node_dependsOn (node_def n) → d ∉ ids g).
Proof.
  intros g s. pose proof (Core_build job) as HC. cbv zeta in HC. fold g s in HC.
  assert (Hpend : ∀ w n, nodes s !! w = Some n → status_of s w = Some Pending).
  { intros w n Hn. unfold status_of. rewrite Hn. simpl. f_equal.
    by destruct (mk_nodes_lookup g w n Hn) as (_ & _ & ->). }
  assert (Hdeps : ∀ w n, nodes s !! w = Some n →
    deps_of g w = filter (λ d, d ∈ ids g) (node_dependsOn (node_def n))).
  { intros w n Hn. unfold deps_of.
    replace (mk_nodes g !! w) with (Some n) by (symmetry; exact Hn).
    apply list_filter_iff. intros d. apply mk_nodes_is_Some. }
  split_and!.
  - intros w n Hn. rewrite (core_deg _ _ _ HC), decide_True.
    + unfold blockers. rewrite <- (Hdeps w n Hn). do 2 f_equal.
      apply filter_length_all. intros u Hu [Hst _].
      destruct (core_deps_ids _ _ Hu) as [Huid _].
      apply (core_node_iff HC) in Huid as [m Hm].
      rewrite (Hpend u m Hm) in Hst. done.
    + apply (core_node_iff HC). eauto.
  - apply (core_adj_dom _ _ _ HC).
  - intros w. split.
    + intros Hw.
      assert (Hp := core_ready_pending _ _ _ HC w Hw).
      unfold status_of in Hp. destruct (nodes s !! w) as [n|] eqn:Hn; [|done].
      exists n. split; [done|]. intros d Hd Hin.
      assert (Hwid : w ∈ ids g) by (apply (core_node_iff HC); eauto).
      assert (Hz : inDegree s !! w = Some 0%Z)
        by (apply (core_ready _ _ _ HC w Hwid); by right).
      assert (Hdd : d ∈ deps_of g w).
      { rewrite (Hdeps w n Hn). by apply list_elem_of_filter. }
      destruct (proj1 (core_deg_zero HC w Hwid) Hz d Hdd) as [Hst _].
      apply (core_node_iff HC) in Hin as [m Hm].
      rewrite (Hpend d m Hm) in Hst. done.
    + intros (n & Hn & Hnone).
      assert (Hwid : w ∈ ids g) by (apply (core_node_iff HC); eauto).
      assert (Hz : inDegree s !! w = Some 0%Z).
      { apply (core_deg_zero HC w Hwid). intros u Hu.
        rewrite (Hdeps w n Hn) in Hu. apply list_elem_of_filter in Hu as [Hu1 Hu2].
        by destruct (Hnone u Hu2). }
      apply (core_zero _ _ _ HC w Hwid) in Hz as [Hz|[Hz|[e Hz]]];
        [|exact Hz|done].
      destruct Hz. by apply (Hpend w n).
Qed.



(** C8 (as stated it fails): under a falsy build identifier
    [emitProgress] returns before publishing, so a node is dispatched and
    completed without any event; and under a truthy one a node whose
    completed event is refused by the progress queue has two terminal
    events, "completed" and then "error". *)
Lemma C8_counterexample :
  let s := state_after job_anonymous run_dangling in
  let s' := state_after job_lint run_lint_unpublished in
  (execute job_anonymous run_dangling = Some s ∧
   status_of s "A" = Some Completed ∧ events (world s) = []) ∧
  (execute job_lint run_lint_unpublished = Some s' ∧
   status_of s' "A" = Some Failed ∧
   node_trace s' "A" = [(StepStarting "A", EvActive); (StepCompleted "A", EvCompleted);
                        (StepFailed "A", EvError)]).
Proof. split_and!; by vm_compute. Qed.

(** C8 (amended): under a non-empty build identifier the events published
    about a node are, in order: nothing while it is pending; one [active]
    start event once it is dispatched; then one [completed] event once it
    is completed; and for a failed node the start event, the completed
    event if the node had been marked completed, and one [error] event,
    which comes last.  A completed node becomes failed only in the step in
    which the publication of its completed event is rejected.  Under an
    empty build identifier nothing is published at all. *)
Theorem C8_event_order job acts s v :
  execute job acts = Some s →
  (job_buildId job ≠ EmptyString →
   match status_of s v with
   | Some Running => node_trace s v = [(StepStarting v, EvActive)]
   | Some Completed =>
       node_trace s v = [(StepStarting v, EvActive); (StepCompleted v, EvCompleted)]
   | Some Failed =>
       node_trace s v = [(StepStarting v, EvActive); (StepFailed v, EvError)] ∨
       node_trace s v = [(StepStarting v, EvActive); (StepCompleted v, EvCompleted);
                         (StepFailed v, EvError)]
   | Some Pending | None => node_trace s v = []
   end) ∧
  (∀ a s', step s a = Some s' →
     status_of s v = Some Completed → status_of s' v = Some Failed →
     job_buildId job ≠ EmptyString ∧
     ∃ i e p, a = Resume i (Err e) ∧ promises s !! i = Some p ∧
              p_nodeId p = v ∧ p_pc p = AwaitDoneEmit) ∧
  (job_buildId job = EmptyString → events (world s) = []).
Proof.
  intros Hex. split_and!.
  - intros Hne. by apply (trace_ok_reachable job acts s Hne Hex v).
  - intros a s' Hstep Hc Hf.
    destruct (execute_cases _ _ _ Hex)
      as [[-> ->]|[(e & -> & _ & ->)|(acts' & -> & HI)]]; [done..|].
    destruct (completed_to_failed _ _ _ _ _ HI Hstep Hc Hf)
      as (i & e & p & -> & Hi & Hv & Hpc).
    split; [|by exists i, e, p].
    simpl in Hstep. rewrite Hi in Hstep. unfold resume in Hstep.
    rewrite Hpc in Hstep.
    destruct (emit_can_reject s) eqn:Hcan; [|done].
    apply emit_can_reject_true in Hcan. destruct HI as (Hb & _). by rewrite <- Hb.
  - intros He. by eapply events_silent.
Qed.

(** C8 (amended) for the failed node A of [job_pair]. *)
Lemma C8_witness :
  let s := state_after job_pair run_pair_late_reject in
  let v := "A" in
  execute job_pair run_pair_late_reject = Some s ∧
  (job_buildId job_pair ≠ EmptyString →
   match status_of s v with
   | Some Running => node_trace s v = [(StepStarting v, EvActive)]
   | Some Completed =>
       node_trace s v = [(StepStarting v, EvActive); (StepCompleted v, EvCompleted)]
   | Some Failed =>
       node_trace s v = [(StepStarting v, EvActive); (StepFailed v, EvError)] ∨
       node_trace s v = [(StepStarting v, EvActive); (StepCompleted v, EvCompleted);
                         (StepFailed v, EvError)]
   | Some Pending | None => node_trace s v = []
   end) ∧
  (∀ a s', step s a = Some s' →
     status_of s v = Some Completed → status_of s' v = Some Failed →
     job_buildId job_pair ≠ EmptyString ∧
     ∃ i e p, a = Resume i (Err e) ∧ promises s !! i = Some p ∧
              p_nodeId p = v ∧ p_pc p = AwaitDoneEmit) ∧
  (job_buildId job_pair = EmptyString → events (world s) = []).
Proof.
  assert (H : execute job_pair run_pair_late_reject
              = Some (state_after job_pair run_pair_late_reject))
    by (vm_compute; reflexivity).
  exact (conj H (C8_event_order job_pair run_pair_late_reject _ "A" H)).
Defined.

(** C9: the pipeline terminates on every input graph.  No run is longer
    than [step_bound] and a pipeline that has not ended can always be
    resumed.  The ready queue never holds an id twice, an in-degree is never
    negative and stays at zero once it has reached zero, an id that has
    been pushed into the queue is never pushed again, and a node that has
    been dispatched is never dispatched again.  On a graph with a cycle,
    when the loop test finds no further batch the count-mismatch error is
    thrown. *)
Theorem C9_loop_terminates job acts s :
  execute job acts = Some s →
  length acts ≤ step_bound job ∧
  (¬ terminal (ctrl s) → ∃ a s', step s a = Some s') ∧
  NoDup (queue s) ∧
  (∀ v k, inDegree s !! v = Some k → (0 ≤ k)%Z) ∧
  (∀ v acts' s', inDegree s !! v = Some 0%Z → run s acts' = Some s' →
     inDegree s' !! v = Some 0%Z) ∧
  (∀ a s1 acts' s2 b s3 v,
     step s a = Some s1 → v ∉ queue s → v ∈ queue s1 →
     run s1 acts' = Some s2 → step s2 b = Some s3 →
     v ∉ queue s2 → v ∉ queue s3) ∧
  (∀ v st acts' s', status_of s v = Some st → st ≠ Pending →
     run s acts' = Some s' → status_of s' v ≠ Some Pending) ∧
  (cyclic (job_workGraph job) →
   ∀ s', step s Ctl = Some s' → ctrl s = CtlInit ∨ ctrl s = CtlWave →
         (∀ b, ctrl s' ≠ CtlBatch b) → ctrl s' = CtlFailed IncompleteError).
Proof.
  intros Hex.
  assert (Hcases := execute_cases _ _ _ Hex).
  split_and!.
  - pose proof (execute_bounded _ _ _ Hex). lia.
  - by eapply progress.
  - destruct Hcases as [[-> ->]|[(e & -> & _ & ->)|(acts' & -> & HI)]];
      [constructor..|].
    destruct HI as (_ & HC & _). pose proof (core_ready_NoDup _ _ _ HC) as Hnd.
    unfold ready in Hnd. by apply NoDup_app in Hnd as (? & _).
  - intros v k Hk.
    destruct Hcases as [[-> ->]|[(e & -> & _ & ->)|(acts' & -> & HI)]]; [done..|].
    destruct HI as (_ & HC & _). rewrite (core_deg _ _ _ HC) in Hk.
    case_decide; [|done]. injection Hk as <-. lia.
  - intros v acts0 s' Hz Hrun.
    destruct Hcases as [[-> ->]|[(e & -> & _ & ->)|(acts' & -> & HI)]]; [done..|].
    by eapply deg_zero_run.
  - intros a s1 acts0 s2 b s3 v Hs1 _ Hq1 Hrun Hs3 Hq2.
    assert (HI1 : Inv job s1).
    { destruct Hcases as [[-> ->]|[(e & -> & _ & ->)|(acts' & -> & HI)]].
      - destruct a as [|e|j r]; simpl in Hs1; [|exfalso|done].
        + injection Hs1 as <-. apply Inv_init.
        + destruct (step_ctl_err_inv _ _ _ Hs1) as (_ & -> & _).
          by apply elem_of_nil in Hq1.
      - by rewrite init_failed_quiescent in Hs1.
      - by eapply Inv_step. }
    pose proof (Inv_run _ _ _ _ HI1 Hrun) as HI2.
    eapply not_requeued; [exact HI2| |exact Hq2|exact Hs3].
    eapply deg_zero_run; [exact HI1|exact Hrun|]. by eapply enqueued_zero.
  - intros v st acts0 s' Hst Hne Hrun.
    destruct Hcases as [[-> ->]|[(e & -> & _ & ->)|(acts' & -> & HI)]]; [done..|].
    destruct (run_status_stable _ _ _ _ _ _ HI Hrun Hst Hne) as (st' & H1 & H2 & _).
    rewrite H1. by intros [= ->].
  - intros Hcyc s' Hstep Hc Hnb.
    assert (Hex' : execute job (acts ++ [Ctl]) = Some s') by (by eapply run_snoc).
    destruct (cyclic_no_success _ _ _ Hcyc Hex') as [Hnf _].
    simpl in Hstep. unfold step_ctl_ok in Hstep.
    assert (Hlh : ∀ s0, s' = loop_head s0 → ctrl s' = CtlFailed IncompleteError).
    { intros s0 ->. destruct (loop_head_ctrl s0) as [[b Hb]|[Hf|Hi]];
        [by destruct (Hnb b)|done|done]. }
    destruct Hc as [Hc|Hc]; rewrite Hc in Hstep.
    + injection Hstep as Hs. by eapply Hlh.
    + destruct (forallb is_fulfilled (promises s)); [|done].
      injection Hstep as Hs. by eapply Hlh.
Qed.

(** C9 at [job_cycle], when the only node outside the cycle has completed. *)
Lemma C9_witness :
  let job := job_cycle in
  let acts := run_cycle_drained in
  let s := state_after job acts in
  execute job acts = Some s ∧
  length acts ≤ step_bound job ∧
  (¬ terminal (ctrl s) → ∃ a s', step s a = Some s') ∧
  NoDup (queue s) ∧
  (∀ v k, inDegree s !! v = Some k → (0 ≤ k)%Z) ∧
  (∀ v acts' s', inDegree s !! v = Some 0%Z → run s acts' = Some s' →
     inDegree s' !! v = Some 0%Z) ∧
  (∀ a s1 acts' s2 b s3 v,
     step s a = Some s1 → v ∉ queue s → v ∈ queue s1 →
     run s1 acts' = Some s2 → step s2 b = Some s3 →
     v ∉ queue s2 → v ∉ queue s3) ∧
  (∀ v st acts' s', status_of s v = Some st → st ≠ Pending →
     run s acts' = Some s' → status_of s' v ≠ Some Pending) ∧
  (cyclic (job_workGraph job) →
   ∀ s', step s Ctl = Some s' → ctrl s = CtlInit ∨ ctrl s = CtlWave →
         (∀ b, ctrl s' ≠ CtlBatch b) → ctrl s' = CtlFailed IncompleteError).
Proof.
  assert (H : execute job_cycle run_cycle_drained
              = Some (state_after job_cycle run_cycle_drained))
    by (vm_compute; reflexivity).
  exact (conj H (C9_loop_terminates job_cycle run_cycle_drained _ H)).
Defined.



(** * Further properties of the pipeline *)

(** ** Induction over the reachable states *)

Lemma run_snoc_inv s acts a s' :
  run s (acts ++ [a]) = Some s' → ∃ s1, run s acts = Some s1 ∧ step s1 a = Some s'.
Proof.
  revert s. induction acts as [|b acts IH]; intros s; simpl.
  - destruct (step s a) as [s1|] eqn:Hs; [|done]. intros [= <-]. eauto.
  - destruct (step s b) as [s1|]; [|done]. apply IH.
Qed.

(** A property of the start state that every step of a run preserves holds
    in every state a run reaches. *)
Lemma reachable_ind job (P : State → Prop) :
  P (start job) →
  (∀ e, job_buildId job ≠ EmptyString → P (init_failed job e)) →
  P (loop_head (build (start job))) →
  (∀ acts s a s', execute job (Ctl :: acts) = Some s → P s →
                  step s a = Some s' → P s') →
  ∀ acts s, execute job acts = Some s → P s.
Proof.
  intros H0 He H1 Hstep acts. induction acts as [|a acts IH] using rev_ind; intros s.
  - by intros [= <-].
  - unfold execute. intros Hrun.
    apply run_snoc_inv in Hrun as (s1 & Hrun & Hs).
    destruct (execute_cases _ _ _ Hrun)
      as [[-> ->]|[(e & -> & Hne & ->)|(acts' & -> & HI)]].
    + destruct a as [|e|i r]; simpl in Hs; [| |done].
      * by injection Hs as <-.
      * destruct (step_ctl_err_inv _ _ _ Hs) as (Hne & -> & _). by apply He.
    + by rewrite init_failed_quiescent in Hs.
    + eapply Hstep; [exact Hrun|by apply IH|exact Hs].
Qed.

(** ** What a step publishes *)

Lemma loop_head_events s :
  events (world (loop_head s)) =
  events (world s) ++
  if decide (buildId s = EmptyString) then []
  else match queue s with
       | [] => if decide (completedCount s = size (nodes s))
               then [mk_event (buildId s) StepDeployed EvCompleted EmptyString] else []
       | b => [mk_event (buildId s) (StepBatch (length b)) EvActive EmptyString]
       end.
Proof.
  unfold loop_head. destruct (queue s) eqn:Hq.
  - case_decide; simpl.
    + rewrite emit_events. by case_decide.
    + case_decide; by rewrite app_nil_r.
  - simpl. rewrite emit_events. by case_decide.
Qed.

(** The events of the synchronous prefixes of the callbacks of a batch. *)
Lemma spawn_one_events g w rest s :
  Core g (w :: rest) s →
  ∃ n, nodes s !! w = Some n ∧
    events (world (spawn_one s w)) =
    events (world s) ++
    if decide (buildId s = EmptyString) then []
    else [mk_event (buildId s) (StepStarting w) EvActive
            ("Task: " +:+ node_task (node_def n))].
Proof.
  intros HC.
  assert (Hw : w ∈ ids g).
  { assert (H := core_ready_pending _ _ _ HC w). unfold status_of in H.
    apply (core_node_iff HC). destruct (nodes s !! w); [eauto|].
    by specialize (H ltac:(left)). }
  apply (core_node_iff HC) in Hw as [n Hn]. exists n. split; [done|].
  destruct (core_node_def HC _ _ Hn) as [_ Hid].
  unfold spawn_one. rewrite Hn. simpl. rewrite emit_events, Hid. by case_decide.
Qed.

Lemma spawn_loop_events g batch rest s :
  Core g (batch ++ rest) s →
  ∃ es, events (world (foldl spawn_one s batch)) = events (world s) ++ es ∧
        (buildId s = EmptyString → es = []) ∧
        (buildId s ≠ EmptyString →
           ev_step <$> es = StepStarting <$> batch ∧
           Forall (λ e, ev_jobId e = buildId s ∧ ev_status e = EvActive) es).
Proof.
  revert s. induction batch as [|w batch IH]; intros s HC; simpl.
  - exists []. rewrite app_nil_r. by split_and!.
  - destruct (spawn_one_events _ _ _ _ HC) as (n & Hn & He).
    destruct (spawn_one_frame s w) as (_&_&_&_&_&_&_&Hb).
    destruct (IH _ (Core_spawn_one _ _ _ _ HC)) as (es & Hes & H1 & H2).
    rewrite Hb in H1, H2. rewrite Hes, He, <- app_assoc. eexists. split; [done|].
    case_decide as Hd.
    + split; [intros _; by rewrite H1|done].
    + split; [done|]. intros _. destruct (H2 Hd) as [Hs Hf].
      split; [by rewrite fmap_app, Hs|]. apply Forall_app. split; [|done].
      by constructor.
Qed.

(** A resumed callback publishes nothing, or the terminal event of its
    node together with the change of the node's status. *)
Lemma resume_events i p r s s' :
  resume i p r s = Some s' →
  (events (world s') = events (world s) ∧ nodes s' = nodes s ∧
   ∃ pc', promises s' = alter (set_pc pc') i (promises s) ∧
          ∀ m, pc' ≠ AwaitFailEmit m) ∨
  (nodes s' = alter (set_status Completed) (p_nodeId p) (nodes s) ∧
   promises s' = alter (set_pc AwaitDoneEmit) i (promises s) ∧
   events (world s') =
   events (world s) ++
   if decide (buildId s = EmptyString) then []
   else [mk_event (buildId s) (StepCompleted (node_id (p_node p))) EvCompleted EmptyString]) ∨
  (∃ e, r = Err e ∧
   nodes s' = alter (set_status Failed) (p_nodeId p) (nodes s) ∧
   promises s' = alter (set_pc (AwaitFailEmit (errorMessage e))) i (promises s) ∧
   events (world s') =
   events (world s) ++
   if decide (buildId s = EmptyString) then []
   else [mk_event (buildId s) (StepFailed (node_id (p_node p))) EvError (errorMessage e)]).
Proof.
  unfold resume. intros Hres.
  destruct (p_pc p) eqn:Hpc, r; try done.
  all: try (destruct (emit_can_reject s); [|done]).
  all: injection Hres as <-.
  all: try (progress unfold enter_try;
            destruct (String.prefix "generate-" (node_task (p_node p)));
            [|destruct (decide (node_task (p_node p) = "start-vm"))]).
  all: try (left; split_and!; [done|done|]; eexists; split; [reflexivity|done]).
  all: try (match goal with
            | |- context [throw_task _ _ ?m _] =>
                destruct (throw_task_fields s i p m) as (Fn&_&_&_&_&_&_&_&_&Fw);
                left; rewrite Fn, Fw; split_and!; [done|done|];
                exists Rejected; split; [apply throw_task_promises|done]
            | |- context [throw_raw _ ?pc ?e _] =>
                destruct (throw_raw_fields s i pc e) as (Fn&_&_&_&_&_&_&_&_&Fw);
                left; rewrite Fn, Fw; split_and!; [done|done|];
                exists pc; split; [apply throw_raw_promises|done]
            end).
  all: try (right; right; eexists; split; [done|]; unfold fail_node; simpl;
            rewrite emit_events; split_and!; try done; by case_decide).
  all: right; left; unfold complete_node; simpl.
  all: try match goal with |- context [truthy ?u] => destruct (truthy u) end.
  all: simpl; rewrite emit_events; split_and!; try done; by case_decide.
Qed.

(** The events of one step, by the kind of step. *)
Lemma step_events job s a s' :
  Inv job s → step s a = Some s' →
  ∃ es, events (world s') = events (world s) ++ es ∧
    Forall (λ e, ev_jobId e = buildId s) es ∧ (buildId s = EmptyString → es = []) ∧
    ((a = Ctl ∧ ∃ b, ctrl s = CtlBatch b ∧ ctrl s' = CtlWave ∧
        (buildId s ≠ EmptyString → ev_step <$> es = StepStarting <$> b
                          ∧ Forall (λ e, ev_status e = EvActive) es))
     ∨ (a = Ctl ∧ ctrl s = CtlWave ∧ ∃ b, b ≠ [] ∧ queue s = b ∧ ctrl s' = CtlBatch b ∧
        (buildId s ≠ EmptyString →
         es = [mk_event (buildId s) (StepBatch (length b)) EvActive EmptyString]))
     ∨ (a = Ctl ∧ ctrl s = CtlWave ∧ ctrl s' = CtlFinal ∧
        (buildId s ≠ EmptyString → es = [mk_event (buildId s) StepDeployed EvCompleted EmptyString]))
     ∨ (a = Ctl ∧ ctrl s = CtlWave ∧ ctrl s' = CtlFailed IncompleteError ∧ es = [])
     ∨ (a = Ctl ∧ ctrl s = CtlFinal ∧ (∃ r, ctrl s' = CtlSucceeded r) ∧ es = [])
     ∨ (∃ i r p, a = Resume i r ∧ promises s !! i = Some p ∧
        (ctrl s = CtlWave ∨ ∃ e, ctrl s = CtlFailed e) ∧
        (ctrl s' = ctrl s ∨ ∃ e, ctrl s' = CtlFailed e) ∧
        (es = []
         ∨ (buildId s ≠ EmptyString ∧
            es = [mk_event (buildId s) (StepCompleted (p_nodeId p)) EvCompleted EmptyString])
         ∨ (buildId s ≠ EmptyString ∧ ∃ m,
            es = [mk_event (buildId s) (StepFailed (p_nodeId p)) EvError m])))
     ∨ (∃ e, a = CtlErr e ∧ es = [] ∧ s' = set_ctrl (CtlFailed (RawError e)) s ∧
        ((∃ b, ctrl s = CtlBatch b) ∨ ctrl s = CtlFinal))).
Proof.
  intros HI Hstep. pose proof HI as (Hb & HC & Hok).
  destruct a as [|e|i r]; simpl in Hstep.
  - unfold step_ctl_ok in Hstep. unfold ctrl_ok, ready in *.
    destruct (ctrl s) as [|b| | |r|e] eqn:Hc; simpl in *; try done.
    + injection Hstep as <-. destruct Hok as (_ & Hq & Hful).
      rewrite Hq in HC. simpl in HC.
      assert (Hnr : ¬ raw_failed s) by (intros [e He]; congruence).
      pose proof (Core_drop_promises _ _ _ HC Hful Hnr) as HC0.
      rewrite <- (app_nil_r b) in HC0.
      destruct (spawn_loop_events _ _ _ _ HC0) as (es & Hes & H1 & H2).
      destruct (spawn_loop_shape _ _ _ _ HC0) as (Hct & _).
      simpl in *. exists es. split; [done|]. split_and!.
      * destruct (decide (buildId s = EmptyString)) as [Hd|Hd]; [by rewrite H1|].
        destruct (H2 Hd) as [_ Hf]. eapply Forall_impl; [exact Hf|]. by intros ? [? _].
      * done.
      * left. split; [done|]. exists b. split_and!; try done.
        intros Hd. destruct (H2 Hd) as [? Hf]. split; [done|].
        eapply Forall_impl; [exact Hf|]. by intros ? [_ ?].
    + destruct (forallb is_fulfilled (promises s)); [|done]. injection Hstep as <-.
      eexists. split; [apply loop_head_events|].
      unfold loop_head. destruct (queue s) as [|w q] eqn:Hq.
      * destruct (decide (completedCount s = size (nodes s))) as [Hcnt|Hcnt];
          destruct (decide (buildId s = EmptyString)) as [Hd|Hd]; simpl.
        -- split_and!; try done. right. right. left. by split_and!.
        -- split_and!; [by repeat constructor|done|].
           right. right. left. by split_and!.
        -- split_and!; try done. do 3 right. left. by split_and!.
        -- split_and!; try done. do 3 right. left. by split_and!.
      * destruct (decide (buildId s = EmptyString)) as [Hd|Hd]; simpl.
        -- split_and!; try done. right. left. split_and!; try done.
           exists (w :: q). by split_and!.
        -- split_and!; [by repeat constructor|done|].
           right. left. split_and!; try done. exists (w :: q). by split_and!.
    + injection Hstep as <-. exists []. rewrite app_nil_r. split_and!; try done.
      do 4 right. left. split_and!; try done. eauto.
  - destruct (step_ctl_err_inv _ _ _ Hstep) as (_ & -> & Hc).
    exists []. rewrite app_nil_r. split_and!; try done.
    do 6 right. exists e. split_and!; try done.
    unfold ctrl_ok in Hok. destruct Hc as [Hc|[Hc|Hc]]; [by rewrite Hc in Hok|auto..].
  - destruct (promises s !! i) as [p|] eqn:Hi; [|done].
    assert (Hp : p ∈ promises s) by (apply list_elem_of_lookup; eauto).
    destruct (promise_node _ _ _ HI Hp) as [Hid _].
    pose proof (resume_unsettled_pc _ _ _ _ _ Hstep) as Hns.
    assert (Hctl : ctrl s = CtlWave ∨ ∃ e, ctrl s = CtlFailed e).
    { destruct (unsettled_ctrl _ _ Hok Hp Hns) as [_ [?|[(?&?&?&?)|[? ?]]]]; eauto. }
    assert (Hctl' : ctrl s' = ctrl s ∨ ∃ e, ctrl s' = CtlFailed e).
    { destruct (resume_ctrl _ _ _ _ _ Hstep)
        as [?|[(_ & m & _ & _ & ?)|(_ & e & _ & ? & _)]]; eauto. }
    destruct (resume_events _ _ _ _ _ Hstep)
      as [[He _]|[(_ & _ & He)|(e & _ & _ & _ & He)]].
    + exists []. rewrite app_nil_r. split_and!; try done.
      do 5 right. left. exists i, r, p. split_and!; try done. by left.
    + eexists. split; [exact He|]. rewrite Hid. case_decide as Hd.
      * split_and!; try done. do 5 right. left. exists i, r, p.
        split_and!; try done. by left.
      * split_and!; [by repeat constructor|done|].
        do 5 right. left. exists i, r, p. split_and!; try done. right. left. done.
    + eexists. split; [exact He|]. rewrite Hid. case_decide as Hd.
      * split_and!; try done. do 5 right. left. exists i, r, p.
        split_and!; try done. by left.
      * split_and!; [by repeat constructor|done|].
        do 5 right. left. exists i, r, p. split_and!; try done. right. right. eauto.
Qed.

(** ** The frame of the event stream *)

Lemma head_app_Some {A} (l k : list A) x : head l = Some x → head (l ++ k) = Some x.
Proof. by destruct l. Qed.

Lemma undeployed_app s s' es :
  events (world s') = events (world s) ++ es →
  Forall (λ e, ev_step e ≠ StepDeployed) es → undeployed s → undeployed s'.
Proof. unfold undeployed. intros -> Hes Hu. by apply Forall_app. Qed.

Lemma frame_ok_step job s a s' :
  job_buildId job ≠ EmptyString → Inv job s → frame_ok (job_buildId job) s →
  step s a = Some s' → frame_ok (job_buildId job) s'.
Proof.
  intros Hne HI [Hh Hd] Hstep. pose proof HI as (Hb & _ & Hok).
  unfold frame_ok. rewrite <- Hb in Hne, Hh, Hd |- *.
  destruct (step_events _ _ _ _ HI Hstep) as (es & He & _ & _ & Hcase).
  split; [rewrite He; by apply head_app_Some|].
  destruct Hcase as [(_ & b & Hc & Hc' & Hes)|[(_ & Hc & b & _ & _ & Hc' & Hes)
    |[(_ & Hc & Hc' & Hes)|[(_ & Hc & Hc' & ->)|[(_ & Hc & [r Hc'] & ->)
    |[(i & r & p & -> & Hi & Hc & Hc' & Hes)|(e & _ & -> & -> & Hc)]]]]]].
  - rewrite Hc in Hd. rewrite Hc'. apply (undeployed_app s _ es); [done| |done].
    destruct (Hes Hne) as [Hst _]. apply Forall_forall. intros e Hin Hdep.
    assert (Hx : ev_step e ∈ ev_step <$> es) by (apply list_elem_of_fmap; eauto).
    rewrite Hst, Hdep in Hx. apply list_elem_of_fmap in Hx as (? & ? & _). done.
  - rewrite Hc in Hd. rewrite Hc'. apply (undeployed_app s _ es); [done| |done].
    rewrite (Hes Hne). by repeat constructor.
  - rewrite Hc in Hd. rewrite Hc'. exists (events (world s)).
    by rewrite He, (Hes Hne).
  - rewrite Hc in Hd. rewrite Hc'. apply (undeployed_app s _ []); [done|done|done].
  - rewrite Hc in Hd. rewrite Hc'. destruct Hd as (es0 & Hes0 & Hf).
    exists es0. by rewrite He, app_nil_r.
  - assert (Hp : p ∈ promises s) by (apply list_elem_of_lookup; eauto).
    simpl in Hstep. rewrite Hi in Hstep.
    pose proof (resume_unsettled_pc _ _ _ _ _ Hstep) as Hns.
    assert (Hu : undeployed s).
    { destruct Hc as [Hc|[e Hc]]; rewrite Hc in Hd; [done|].
      destruct e as [w t m| | |e]; try done.
      destruct Hd as [Hd|(_ & _ & Hful)]; [done|].
      rewrite Forall_forall in Hful. destruct Hns. left. by apply Hful. }
    assert (Hu' : undeployed s').
    { apply (undeployed_app s _ es); [done| |done].
      destruct Hes as [->|[[_ ->]|[_ [m ->]]]]; by repeat constructor. }
    destruct Hc' as [Hc'|[e Hc']]; rewrite Hc'.
    + destruct Hc as [Hc|[e Hc]]; rewrite Hc; [done|].
      destruct e; try done. by left.
    + destruct e; try done. by left.
  - simpl. destruct Hc as [[b Hc]|Hc]; rewrite Hc in Hd; [by left|].
    right. unfold ctrl_ok in Hok. rewrite Hc in Hok.
    destruct Hok as (_ & Hful & Hcnt). by split_and!.
Qed.

Lemma frame_ok_reachable job acts s :
  job_buildId job ≠ EmptyString → execute job acts = Some s → frame_ok (job_buildId job) s.
Proof.
  intros Hne. apply (reachable_ind job (frame_ok (job_buildId job))).
  - unfold frame_ok, undeployed, start, emitProgress. simpl.
    rewrite decide_False by done. simpl. split; [done|]. by repeat constructor.
  - intros e _. unfold frame_ok, undeployed, init_failed, start, emitProgress. simpl.
    rewrite decide_False by done. simpl. split; [done|]. left. by repeat constructor.
  - unfold frame_ok, deployed_last, undeployed. rewrite loop_head_events.
    set (s0 := build (start job)).
    assert (Hev : events (world s0) = [mk_event (job_buildId job) StepInit EvActive EmptyString]).
    { unfold s0, build, start, emitProgress. simpl. by rewrite decide_False. }
    assert (Hb : buildId s0 = job_buildId job) by done.
    rewrite Hev, Hb, decide_False by done. split; [done|].
    unfold loop_head. destruct (queue s0) as [|w q];
      [destruct (decide (completedCount s0 = size (nodes s0)))|]; simpl.
    + exists [mk_event (job_buildId job) StepInit EvActive EmptyString]. by repeat constructor.
    + by repeat constructor.
    + by repeat constructor.
  - intros acts0 s0 a s' Hex HP Hs.
    eapply frame_ok_step; [done|by eapply Inv_reachable|done..].
Qed.

Lemma deployed_last_only b s i e :
  deployed_last b s → events (world s) !! i = Some e → ev_step e = StepDeployed →
  S i = length (events (world s)).
Proof.
  intros (es & He & Hes) Hi Hdep. rewrite He in Hi |- *. rewrite length_app. simpl.
  destruct (decide (i < length es)) as [Hlt|Hge].
  - rewrite lookup_app_l in Hi by done. rewrite Forall_forall in Hes.
    destruct (Hes e); [|done]. apply list_elem_of_lookup. eauto.
  - apply lookup_lt_Some in Hi. rewrite length_app in Hi. simpl in Hi. lia.
Qed.

(** X1: under a non-empty build identifier the event stream of every
    run opens with the "Initializing" event.  Once the completed-count
    check has been passed the "Application deployed" event is the last
    event.  That event occurs at no other position than the last, and only
    when the count is full and every node is completed: the pipeline is
    then about to return, has returned, or has thrown the error of a
    rejected publication; a build that failed in a task or in the count
    check never announces a deployment. *)
Theorem event_stream_frame job acts s :
  job_buildId job ≠ EmptyString → execute job acts = Some s →
  head (events (world s)) = Some (mk_event (job_buildId job) StepInit EvActive EmptyString) ∧
  (passed (ctrl s) →
   last (events (world s))
   = Some (mk_event (job_buildId job) StepDeployed EvCompleted EmptyString)) ∧
  (∀ i e, events (world s) !! i = Some e → ev_step e = StepDeployed →
          S i = length (events (world s)) ∧
          completedCount s = size (nodes s) ∧
          (∀ v, v ∈ ids (job_workGraph job) → status_of s v = Some Completed) ∧
          (passed (ctrl s) ∨ ∃ e', ctrl s = CtlFailed (RawError e'))).
Proof.
  intros Hne Hex. destruct (frame_ok_reachable _ _ _ Hne Hex) as [Hh Hd].
  split; [done|]. split.
  - intros Hp. destruct (ctrl s); try done; destruct Hd as (es & -> & _);
      by rewrite last_snoc.
  - intros i e Hi Hdep.
    assert (Hin : e ∈ events (world s)) by (apply list_elem_of_lookup; eauto).
    assert (Hno : ¬ undeployed s).
    { unfold undeployed. rewrite Forall_forall. intros Hu. by destruct (Hu e Hin). }
    destruct (execute_cases _ _ _ Hex)
      as [[-> ->]|[(e0 & -> & _ & ->)|(acts' & -> & HI)]].
    { destruct Hno. apply Hd. }
    { exfalso. simpl in Hin. rewrite emit_events, decide_False in Hin by done.
      apply list_elem_of_singleton in Hin. by subst e. }
    assert (Hfull : deployed_last (job_buildId job) s ∧ completedCount s = size (nodes s)
                    ∧ (passed (ctrl s) ∨ ∃ e', ctrl s = CtlFailed (RawError e'))).
    { destruct HI as (_ & _ & Hok). unfold ctrl_ok in Hok.
      destruct (ctrl s) as [| | | |r|[w t m| | |e0]]; try done.
      - destruct Hok as (_ & _ & ?). split_and!; [done..|]. by left.
      - destruct Hok as (_ & _ & ? & _). split_and!; [done..|]. by left.
      - destruct Hd as [?|(? & ? & _)]; [done|]. split_and!; [done..|]. right. eauto. }
    destruct Hfull as (Hdl & Hcnt & Hctl). split_and!; [|done| |done].
    + by eapply deployed_last_only.
    + intros v Hv. by destruct (full_count_all_released _ _ HI Hcnt v Hv).
Qed.

(** X1 at the end of the successful run of [job_diamond]. *)
Lemma event_stream_frame_witness :
  let s := state_after job_diamond run_diamond in
  (job_buildId job_diamond ≠ EmptyString ∧ execute job_diamond run_diamond = Some s) ∧
  head (events (world s)) = Some (mk_event (job_buildId job_diamond) StepInit EvActive EmptyString) ∧
  (passed (ctrl s) →
   last (events (world s))
   = Some (mk_event (job_buildId job_diamond) StepDeployed EvCompleted EmptyString)) ∧
  (∀ i e, events (world s) !! i = Some e → ev_step e = StepDeployed →
          S i = length (events (world s)) ∧
          completedCount s = size (nodes s) ∧
          (∀ v, v ∈ ids (job_workGraph job_diamond) → status_of s v = Some Completed) ∧
          (passed (ctrl s) ∨ ∃ e', ctrl s = CtlFailed (RawError e'))).
Proof.
  assert (H1 : job_buildId job_diamond ≠ EmptyString) by done.
  assert (H2 : execute job_diamond run_diamond
               = Some (state_after job_diamond run_diamond))
    by (vm_compute; reflexivity).
  exact (conj (conj H1 H2) (event_stream_frame job_diamond run_diamond _ H1 H2)).
Defined.

(** ** Events of dependent nodes *)

Lemma completed_before_app es es' u j :
  completed_before es u j → completed_before (es ++ es') u j.
Proof.
  intros (i & e & Hlt & Hi & Hs). exists i, e. split; [done|]. split; [|done].
  rewrite lookup_app_l; [done|]. by eapply lookup_lt_Some.
Qed.

Lemma completed_logged s u :
  trace_ok s → status_of s u = Some Completed →
  completed_before (events (world s)) u (length (events (world s))).
Proof.
  intros Htr Hst. specialize (Htr u). rewrite Hst in Htr. simpl in Htr.
  unfold node_trace, trace_of in Htr.
  assert (Hin : (StepCompleted u, EvCompleted)
                ∈ (λ e, (ev_step e, ev_status e))
                  <$> filter (λ e, event_node e = Some u) (events (world s))).
  { rewrite Htr. set_solver. }
  apply list_elem_of_fmap in Hin as (e & [= H1 H2] & Hin).
  apply list_elem_of_filter in Hin as [_ Hin].
  apply list_elem_of_lookup in Hin as [i Hi]. exists i, e.
  split; [by eapply lookup_lt_Some|]. done.
Qed.

Lemma batch_deps_completed job s v u :
  Inv job s → v ∈ ready s → depends (job_workGraph job) v u →
  status_of s u = Some Completed.
Proof.
  intros (_ & HC & _) Hv Hdep.
  assert (Hvid : v ∈ ids (job_workGraph job)) by (by destruct (depends_ids _ _ _ Hdep)).
  assert (Hz : inDegree s !! v = Some 0%Z)
    by (apply (core_ready _ _ _ HC v Hvid); by right).
  apply depends_deps_of in Hdep.
  by destruct (proj1 (core_deg_zero HC v Hvid) Hz u Hdep).
Qed.

Lemma causal_step job s a s' :
  job_buildId job ≠ EmptyString → Inv job s → trace_ok s →
  causal (job_workGraph job) (events (world s)) → step s a = Some s' →
  causal (job_workGraph job) (events (world s')).
Proof.
  intros Hne HI Htr Hca Hstep. pose proof HI as (Hb & HC & Hok).
  rewrite <- Hb in Hne.
  destruct (step_events _ _ _ _ HI Hstep) as (es & He & _ & _ & Hcase).
  rewrite He. intros v u j e Hdep Hj Hst.
  destruct (decide (j < length (events (world s)))) as [Hlt|Hge].
  { rewrite lookup_app_l in Hj by done. apply completed_before_app. by eapply Hca. }
  rewrite lookup_app_r in Hj by lia.
  assert (Hin : e ∈ es) by (apply list_elem_of_lookup; eauto).
  assert (Hsp : StepStarting v ∈ ev_step <$> es)
    by (rewrite <- Hst; apply list_elem_of_fmap; eauto).
  destruct Hcase as [(_ & b & Hc & Hc' & Hes)|[(_ & Hc & b & _ & _ & Hc' & Hes)
    |[(_ & Hc & Hc' & Hes)|[(_ & Hc & Hc' & ->)|[(_ & Hc & [r Hc'] & ->)
    |[(i & r & p & _ & Hi & Hc & Hc' & Hes)|(e0 & _ & -> & _)]]]]]].
  - destruct (Hes Hne) as [Hsteps _]. rewrite Hsteps in Hsp.
    apply list_elem_of_fmap in Hsp as (v' & [= <-] & Hv).
    assert (Hrdy : v ∈ ready s) by (unfold ready; rewrite Hc; set_solver).
    pose proof (batch_deps_completed _ _ _ _ HI Hrdy Hdep) as Hu.
    destruct (completed_logged _ _ Htr Hu) as (i & e0 & Hlt & Hi & Hs0).
    exists i, e0. split; [lia|]. split; [|done]. by rewrite lookup_app_l.
  - rewrite (Hes Hne) in Hsp. set_solver.
  - rewrite (Hes Hne) in Hsp. set_solver.
  - set_solver.
  - set_solver.
  - destruct Hes as [->|[[_ ->]|[_ [m ->]]]]; set_solver.
  - set_solver.
Qed.

Lemma causal_reachable job acts s :
  job_buildId job ≠ EmptyString → execute job acts = Some s →
  causal (job_workGraph job) (events (world s)).
Proof.
  intros Hne. apply (reachable_ind job (λ s, causal (job_workGraph job) (events (world s)))).
  - intros v u j e _ Hj Hst. unfold start, emitProgress in Hj. simpl in Hj.
    rewrite decide_False in Hj by done. destruct j; [|done].
    injection Hj as <-. done.
  - intros e0 _ v u j e _ Hj Hst. unfold init_failed, start, emitProgress in Hj.
    simpl in Hj. rewrite decide_False in Hj by done. destruct j; [|done].
    injection Hj as <-. done.
  - intros v u j e _ Hj Hst. rewrite loop_head_events in Hj.
    assert (Hin : e ∈ events (world (build (start job))) ++
       (if decide (buildId (build (start job)) = EmptyString) then []
        else match queue (build (start job)) with
             | [] => if decide (completedCount (build (start job))
                                = size (nodes (build (start job))))
                     then [mk_event (buildId (build (start job))) StepDeployed EvCompleted EmptyString]
                     else []
             | b => [mk_event (buildId (build (start job))) (StepBatch (length b)) EvActive EmptyString]
             end)) by (apply list_elem_of_lookup; eauto).
    apply elem_of_app in Hin as [Hin|Hin].
    + unfold start, build, emitProgress in Hin. simpl in Hin.
      rewrite decide_False in Hin by done. apply list_elem_of_singleton in Hin.
      by subst e.
    + case_decide; [set_solver|].
      destruct (queue _); [case_decide|]; apply list_elem_of_singleton in Hin || set_solver;
        by subst e.
  - intros acts0 s0 a s' Hex Hca Hs.
    eapply causal_step; [done|by eapply Inv_reachable|by eapply trace_ok_reachable|done..].
Qed.

(** X2: under a non-empty build identifier, whenever node [v] lists a
    node [u] of the graph in its [dependsOn], every "Starting" event of [v]
    in the event stream is preceded by the "Completed" event of [u]. *)
Theorem events_follow_dependencies job acts s v u j e :
  job_buildId job ≠ EmptyString → execute job acts = Some s →
  depends (job_workGraph job) v u →
  events (world s) !! j = Some e → ev_step e = StepStarting v →
  ∃ i e', i < j ∧ events (world s) !! i = Some e' ∧
          ev_step e' = StepCompleted u ∧ ev_status e' = EvCompleted.
Proof.
  intros Hne Hex Hdep Hj Hst.
  exact (causal_reachable _ _ _ Hne Hex v u j e Hdep Hj Hst).
Qed.

Lemma job_diamond_C_on_A : depends (job_workGraph job_diamond) "C" "A".
Proof.
  exists {| node_def := mk_node "C" "lint" ["A"; "B"]; node_status := Pending |}.
  split_and!; [by vm_compute|set_solver|].
  exists {| node_def := mk_node "A" "generate-page" []; node_status := Pending |}.
  by vm_compute.
Qed.

(** X2 at the successful run of [job_diamond], for the lint task C
    and its dependency A. *)
Lemma events_follow_dependencies_witness :
  let s := state_after job_diamond run_diamond in
  (job_buildId job_diamond ≠ EmptyString ∧ execute job_diamond run_diamond = Some s ∧
   depends (job_workGraph job_diamond) "C" "A" ∧
   events (world s) !! 7 = Some event_starting_C ∧
   ev_step event_starting_C = StepStarting "C") ∧
  ∃ i e', i < 7 ∧ events (world s) !! i = Some e' ∧
          ev_step e' = StepCompleted "A" ∧ ev_status e' = EvCompleted.
Proof.
  assert (H1 : job_buildId job_diamond ≠ EmptyString) by done.
  assert (H2 : execute job_diamond run_diamond
               = Some (state_after job_diamond run_diamond))
    by (vm_compute; reflexivity).
  assert (H4 : events (world (state_after job_diamond run_diamond)) !! 7
               = Some event_starting_C)
    by (vm_compute; reflexivity).
  assert (H5 : ev_step event_starting_C = StepStarting "C") by reflexivity.
  exact (conj (conj H1 (conj H2 (conj job_diamond_C_on_A (conj H4 H5))))
           (events_follow_dependencies job_diamond run_diamond _ "C" "A" 7
              event_starting_C H1 H2 job_diamond_C_on_A H4 H5)).
Defined.

(** ** Batch announcements *)

Lemma announced_app es es' : announced (es ++ es') = announced es + announced es'.
Proof. apply sum_list_with_app. Qed.

Lemma started_app es es' : started (es ++ es') = started es + started es'.
Proof. apply sum_list_with_app. Qed.

Lemma starting_counts es (b : list string) :
  ev_step <$> es = StepStarting <$> b → announced es = 0 ∧ started es = length b.
Proof.
  revert b. induction es as [|e es IH]; intros [|w b]; try done.
  rewrite !fmap_cons. intros [= He Hes]. destruct (IH _ Hes) as [H1 H2].
  unfold announced, started in *. simpl. rewrite H1, H2, He. done.
Qed.

Lemma batches_step job s a s' :
  job_buildId job ≠ EmptyString → Inv job s → batches_ok s → step s a = Some s' →
  batches_ok s'.
Proof.
  intros Hne HI [Hle Hsum] Hstep. pose proof HI as (Hb & HC & Hok).
  rewrite <- Hb in Hne. unfold batches_ok, raw_failed in *.
  destruct (step_events _ _ _ _ HI Hstep) as (es & He & _ & _ & Hcase).
  rewrite He, announced_app, started_app.
  destruct Hcase as [(_ & b & Hc & Hc' & Hes)|[(_ & Hc & b & _ & _ & Hc' & Hes)
    |[(_ & Hc & Hc' & Hes)|[(_ & Hc & Hc' & ->)|[(_ & Hc & [r Hc'] & ->)
    |[(i & r & p & _ & Hi & Hc & Hc' & Hes)|(e0 & _ & -> & -> & Hc)]]]]]].
  - destruct (Hes Hne) as [Hsteps _].
    destruct (starting_counts _ _ Hsteps) as [-> ->].
    rewrite Hc in *. rewrite Hc'. simpl in *.
    assert (Hs := Hsum ltac:(by intros [? ?])). split; [lia|]. intros _. lia.
  - rewrite (Hes Hne). rewrite Hc in *. rewrite Hc'. unfold announced, started in *.
    simpl in *.
    assert (Hs := Hsum ltac:(by intros [? ?])). split; [lia|]. intros _. lia.
  - rewrite (Hes Hne). rewrite Hc in *. rewrite Hc'. unfold announced, started in *.
    simpl in *.
    assert (Hs := Hsum ltac:(by intros [? ?])). split; [lia|]. intros _. lia.
  - rewrite Hc in *. rewrite Hc'. unfold announced, started in *. simpl in *.
    assert (Hs := Hsum ltac:(by intros [? ?])). split; [lia|]. intros _. lia.
  - rewrite Hc in *. rewrite Hc'. unfold announced, started in *. simpl in *.
    assert (Hs := Hsum ltac:(by intros [? ?])). split; [lia|]. intros _. lia.
  - assert (Hbs : batch_of (ctrl s) = [] ∧ batch_of (ctrl s') = []).
    { destruct Hc as [Hc|(?&Hc)], Hc' as [Hc'|(?&Hc')];
        rewrite ?Hc', ?Hc; simpl; done. }
    destruct Hbs as [Hb1 Hb2]. rewrite Hb1 in *. rewrite Hb2.
    assert (Hes' : announced es = 0 ∧ started es = 0).
    { destruct Hes as [->|[[_ ->]|[_ [m ->]]]]; by unfold announced, started. }
    destruct Hes' as [-> ->]. simpl in *. split; [lia|]. intros Hnr.
    assert (Hs : announced (events (world s)) = started (events (world s)) + 0); [|lia].
    apply Hsum. intros [e0 He0]. apply Hnr. exists e0.
    by destruct (failed_step _ _ _ _ _ HI He0 Hstep).
  - simpl. split; [unfold announced, started in *; simpl in *; lia|].
    intros Hnr. destruct Hnr. by exists e0.
Qed.

(** X3: under a non-empty build identifier the "Starting" events
    never outnumber the sizes announced by the "Starting batch" events;
    unless the pipeline has thrown the error of a rejected publication,
    the announced sizes add up to the number of "Starting" events
    published plus the size of the batch whose callbacks have not been
    started yet. *)
Theorem batch_sizes_add_up job acts s :
  job_buildId job ≠ EmptyString → execute job acts = Some s →
  started (events (world s)) + length (batch_of (ctrl s))
  ≤ announced (events (world s)) ∧
  ((∀ e, ctrl s ≠ CtlFailed (RawError e)) →
   announced (events (world s))
   = started (events (world s)) + length (batch_of (ctrl s))).
Proof.
  intros Hne Hex.
  assert (H : batches_ok s).
  { revert acts s Hex. apply (reachable_ind job batches_ok).
    - unfold batches_ok, start, emitProgress. simpl. by rewrite decide_False.
    - intros e _. unfold batches_ok, init_failed, start, emitProgress. simpl.
      by rewrite decide_False.
    - unfold batches_ok. rewrite loop_head_events. set (s0 := build (start job)).
      assert (Hev : events (world s0) = [mk_event (job_buildId job) StepInit EvActive EmptyString]).
      { unfold s0, build, start, emitProgress. simpl. by rewrite decide_False. }
      assert (Hb : buildId s0 = job_buildId job) by done.
      rewrite Hev, Hb, decide_False by done.
      unfold loop_head. destruct (queue s0) as [|w q];
        [destruct (decide (completedCount s0 = size (nodes s0)))|];
        unfold announced, started; simpl; split; try intros _; lia.
    - intros acts0 s0 a s' Hex0 Hsum Hs.
      eapply batches_step; [done|by eapply Inv_reachable|done..]. }
  destruct H as [H1 H2]. split; [done|]. intros Hnr. apply H2.
  intros [e He]. by destruct (Hnr e).
Qed.

(** X3 at [job_diamond], when the second wave has been announced. *)
Lemma batch_sizes_add_up_witness :
  let s := state_after job_diamond run_diamond_wave1 in
  (job_buildId job_diamond ≠ EmptyString ∧ execute job_diamond run_diamond_wave1 = Some s) ∧
  started (events (world s)) + length (batch_of (ctrl s))
  ≤ announced (events (world s)) ∧
  ((∀ e, ctrl s ≠ CtlFailed (RawError e)) →
   announced (events (world s))
   = started (events (world s)) + length (batch_of (ctrl s))).
Proof.
  assert (H1 : job_buildId job_diamond ≠ EmptyString) by done.
  assert (H2 : execute job_diamond run_diamond_wave1
               = Some (state_after job_diamond run_diamond_wave1))
    by (vm_compute; reflexivity).
  exact (conj (conj H1 H2) (batch_sizes_add_up job_diamond run_diamond_wave1 _ H1 H2)).
Defined.

(** ** The message of a task error *)

Lemma failure_logged_step job s a s' :
  job_buildId job ≠ EmptyString → Inv job s → failure_logged s → step s a = Some s' →
  failure_logged s'.
Proof.
  intros Hne HI [HL1 HL2] Hstep. pose proof HI as (Hb & HC & Hok).
  assert (Hb' : buildId s' = buildId s).
  { destruct (Inv_step _ _ _ _ HI Hstep) as (Hb' & _). congruence. }
  rewrite <- Hb in Hne.
  destruct (step_events _ _ _ _ HI Hstep) as (es & He & _ & _ & Hcase).
  assert (Hgrow : ∀ e, e ∈ events (world s) → e ∈ events (world s'))
    by (intros e Hin; rewrite He; set_solver).
  unfold failure_logged. rewrite Hb'.
  destruct a as [|e|i r]; simpl in Hstep.
  - unfold step_ctl_ok in Hstep. unfold ctrl_ok in Hok.
    destruct (ctrl s) as [|b| | |r|e] eqn:Hc; simpl in *; try done.
    + injection Hstep as <-. destruct Hok as (_ & Hq & Hful).
      unfold ready in HC. rewrite Hq, Hc in HC. simpl in HC.
      assert (Hnr : ¬ raw_failed s) by (intros [e He']; congruence).
      pose proof (Core_drop_promises _ _ _ HC Hful Hnr) as HC0.
      rewrite <- (app_nil_r b) in HC0.
      destruct (spawn_loop_shape _ _ _ _ HC0) as (Hct & _ & _ & ps & Hps & _ & Hall).
      simpl in *. split.
      * intros p m Hp Hpc. unfold spawn in Hp. rewrite Hps in Hp.
        rewrite Forall_forall in Hall. rewrite (Hall p Hp) in Hpc. done.
      * intros w t m Hf. unfold spawn in Hf. rewrite Hct in Hf. done.
    + destruct (forallb is_fulfilled (promises s)); [|done]. injection Hstep as <-.
      destruct (loop_head_frame s) as (_&_&_&_&_&Hpr&_). split.
      * intros p m Hp Hpc. rewrite Hpr in Hp. apply Hgrow. by eapply HL1.
      * intros w t m Hf. by destruct (loop_head_ctrl s) as [[b Hl]|[Hl|Hl]];
          rewrite Hl in Hf.
    + injection Hstep as <-. simpl. split; [exact HL1|done].
  - destruct (step_ctl_err_inv _ _ _ Hstep) as (_ & -> & _). simpl.
    split; [exact HL1|done].
  - destruct (promises s !! i) as [p|] eqn:Hi; [|done].
    assert (Hp : p ∈ promises s) by (apply list_elem_of_lookup; eauto).
    destruct (promise_node _ _ _ HI Hp) as [Hid _].
    split.
    + intros q m Hq Hpc.
      destruct (resume_events _ _ _ _ _ Hstep)
        as [(_ & _ & pc' & Hpr & Hnf)|[(_ & Hpr & _)|(e & _ & _ & Hpr & He')]].
      * rewrite Hpr in Hq. destruct (elem_of_alter_pc _ _ _ _ _ Hi Hq) as [->|Hq'].
        -- simpl in Hpc. by destruct (Hnf m).
        -- apply Hgrow. by eapply HL1.
      * rewrite Hpr in Hq. destruct (elem_of_alter_pc _ _ _ _ _ Hi Hq) as [->|Hq'].
        -- done.
        -- apply Hgrow. by eapply HL1.
      * rewrite Hpr in Hq. destruct (elem_of_alter_pc _ _ _ _ _ Hi Hq) as [->|Hq'].
        -- simpl in Hpc. injection Hpc as <-. rewrite He', decide_False by done.
           simpl. rewrite Hid. set_solver.
        -- apply Hgrow. by eapply HL1.
    + intros w t m Hf.
      destruct (resume_ctrl _ _ _ _ _ Hstep)
        as [Hc|[(Hc & m' & Hpc & _ & Hc')|(_ & e & _ & Hc' & _)]].
      * rewrite Hc in Hf. apply Hgrow. by eapply HL2.
      * rewrite Hc' in Hf. injection Hf as <- <- <-. rewrite Hid.
        apply Hgrow. by eapply HL1.
      * rewrite Hc' in Hf. done.
Qed.

Lemma failure_logged_reachable job acts s :
  job_buildId job ≠ EmptyString → execute job acts = Some s → failure_logged s.
Proof.
  intros Hne. apply (reachable_ind job failure_logged).
  - split; [intros p m Hp; by apply elem_of_nil in Hp|done].
  - intros e _. split; [intros p m Hp; by apply elem_of_nil in Hp|done].
  - destruct (loop_head_frame (build (start job))) as (_&_&_&_&_&Hpr&_). split.
    + intros p m Hp. rewrite Hpr in Hp. by apply elem_of_nil in Hp.
    + intros w t m Hf. by destruct (loop_head_ctrl (build (start job)))
        as [[b Hl]|[Hl|Hl]]; rewrite Hl in Hf.
  - intros acts0 s0 a s' Hex HL Hs.
    eapply failure_logged_step; [done|by eapply Inv_reachable|done..].
Qed.

(** X4: under a non-empty build identifier, when the pipeline has
    thrown "Task w (t) failed: m", an "error" event of node [w] with the
    same message [m] as its details has been handed to the progress queue,
    and it is the last event of that node: the events of [w] are its
    "Starting" event and that error event, with the "Completed" event
    between them when the node failed because the publication of its
    completed event was rejected. *)
Theorem task_error_matches_event job acts s w t m :
  job_buildId job ≠ EmptyString → execute job acts = Some s →
  ctrl s = CtlFailed (TaskError w t m) →
  mk_event (job_buildId job) (StepFailed w) EvError m ∈ events (world s) ∧
  (node_trace s w = [(StepStarting w, EvActive); (StepFailed w, EvError)] ∨
   node_trace s w = [(StepStarting w, EvActive); (StepCompleted w, EvCompleted);
                     (StepFailed w, EvError)]).
Proof.
  intros Hne Hex Hc.
  destruct (failure_logged_reachable _ _ _ Hne Hex) as [_ HL].
  destruct (execute_cases _ _ _ Hex) as [[-> ->]|[(e & -> & _ & ->)|(acts' & -> & HI)]];
    [done..|].
  pose proof HI as (Hb & HC & Hok). rewrite <- Hb. split; [by eapply HL|].
  unfold ctrl_ok in Hok. rewrite Hc in Hok.
  destruct Hok as (p & Hp & Hr & Hw & _).
  destruct (promise_node _ _ _ HI Hp) as [Hid _].
  pose proof (core_prom_status HC p Hp) as Hst. rewrite Hr, <- Hid, Hw in Hst.
  pose proof (trace_ok_reachable _ _ _ Hne Hex w) as Ht.
  unfold trace_fits in Ht. rewrite Hst in Ht. exact Ht.
Qed.

(** X4 at [job_pair], after A has been rejected. *)
Lemma task_error_matches_event_witness :
  let s := state_after job_pair run_pair_early_reject in
  (job_buildId job_pair ≠ EmptyString ∧ execute job_pair run_pair_early_reject = Some s ∧
   ctrl s = CtlFailed (TaskError "A" "generate-page" "boom")) ∧
  mk_event (job_buildId job_pair) (StepFailed "A") EvError "boom" ∈ events (world s) ∧
  (node_trace s "A" = [(StepStarting "A", EvActive); (StepFailed "A", EvError)] ∨
   node_trace s "A" = [(StepStarting "A", EvActive); (StepCompleted "A", EvCompleted);
                       (StepFailed "A", EvError)]).
Proof.
  assert (H1 : job_buildId job_pair ≠ EmptyString) by done.
  assert (H2 : execute job_pair run_pair_early_reject
               = Some (state_after job_pair run_pair_early_reject))
    by (vm_compute; reflexivity).
  assert (H3 : ctrl (state_after job_pair run_pair_early_reject)
               = CtlFailed (TaskError "A" "generate-page" "boom"))
    by (vm_compute; reflexivity).
  exact (conj (conj H1 (conj H2 H3))
           (task_error_matches_event job_pair run_pair_early_reject _ _ _ _ H1 H2 H3)).
Defined.

(** ** Jobs submitted to the task queue *)

Lemma resume_taskJobs i p r s s' :
  resume i p r s = Some s' →
  (taskJobs (world s') = taskJobs (world s) ∧
   ∃ pc', promises s' = alter (set_pc pc') i (promises s) ∧
          (pc' = AwaitStartEmit ∨ pc' = AwaitJobAdd → p_pc p = AwaitStartEmit)) ∨
  (p_pc p = AwaitJobAdd ∧
   taskJobs (world s') = taskJobs (world s) ++ [job_of p] ∧
   promises s' = alter (set_pc AwaitJobFinished) i (promises s)).
Proof.
  unfold resume. intros Hres.
  destruct (p_pc p) eqn:Hpc, r; try done.
  all: try (destruct (emit_can_reject s); [|done]).
  all: injection Hres as <-.
  all: try (progress unfold enter_try;
            destruct (String.prefix "generate-" (node_task (p_node p)));
            [|destruct (decide (node_task (p_node p) = "start-vm"))]).
  all: try (right; by split_and!).
  all: left.
  all: try (match goal with
            | |- context [throw_task _ _ ?m _] =>
                destruct (throw_task_fields s i p m) as (_&_&_&_&_&_&_&_&_&Fw);
                rewrite Fw; split; [done|];
                exists Rejected; split; [apply throw_task_promises|by intros [?|?]]
            | |- context [throw_raw _ ?pc ?e _] =>
                destruct (throw_raw_fields s i pc e) as (_&_&_&_&_&_&_&_&_&Fw);
                rewrite Fw; split; [done|];
                exists pc; split; [apply throw_raw_promises|by intros [?|?]]
            end).
  all: unfold complete_node, fail_node, finish_node.
  all: try match goal with |- context [truthy ?u] => destruct (truthy u) end.
  all: simpl; rewrite ?emit_taskJobs; split; [done|].
  all: eexists; split; [reflexivity|]; by intros [?|?].
Qed.

(** The definition of a node is the same in every state of a run. *)
Lemma node_def_stable job s s' v n :
  Inv job s → Inv job s' → nodes s !! v = Some n →
  ∃ n', nodes s' !! v = Some n' ∧ node_def n' = node_def n.
Proof.
  intros (_ & HC & _) (_ & HC' & _) Hn.
  destruct (core_node_def HC _ _ Hn) as [Hm _].
  assert (Hv : v ∈ ids (job_workGraph job)) by (apply (core_node_iff HC); eauto).
  apply (core_node_iff HC') in Hv as [n' Hn']. exists n'. split; [done|].
  destruct (core_node_def HC' _ _ Hn') as [Hm' _].
  rewrite Hm in Hm'. by injection Hm'.
Qed.

Lemma not_pending_step job s a s' v n :
  Inv job s → step s a = Some s' → nodes s !! v = Some n → node_status n ≠ Pending →
  ∃ n', nodes s' !! v = Some n' ∧ node_def n' = node_def n ∧ node_status n' ≠ Pending.
Proof.
  intros HI Hstep Hn Hst.
  pose proof (Inv_step _ _ _ _ HI Hstep) as HI'.
  destruct (node_def_stable _ _ _ _ _ HI HI' Hn) as (n' & Hn' & Hd).
  exists n'. split_and!; try done.
  assert (Hs : status_of s v = Some (node_status n))
    by (unfold status_of; by rewrite Hn).
  destruct (step_status_stable _ _ _ _ _ _ HI Hstep Hs Hst) as (st' & Hs' & Hne & _).
  unfold status_of in Hs'. rewrite Hn' in Hs'. by injection Hs' as ->.
Qed.

Lemma jobs_ok_step job s a s' :
  Inv job s → jobs_ok s → step s a = Some s' → jobs_ok s'.
Proof.
  intros HI (HN & HJ & HP) Hstep. pose proof HI as (Hb & HC & Hok).
  assert (HJ' : ∀ j, j ∈ taskJobs (world s) →
     ∃ n, nodes s' !! tj_taskId j = Some n ∧
          tj_name j = node_task (node_def n) ∧
          tj_description j = node_description (node_def n) ∧
          node_status n ≠ Pending).
  { intros j Hj. destruct (HJ j Hj) as (n & Hn & H1 & H2 & H3).
    destruct (not_pending_step _ _ _ _ _ _ HI Hstep Hn H3) as (n' & Hn' & Hd & Hs).
    exists n'. by rewrite Hd. }
  destruct a as [|e|i r]; simpl in Hstep.
  - unfold step_ctl_ok in Hstep. unfold ctrl_ok in Hok.
    destruct (ctrl s) as [|b| | |r|e] eqn:Hc; simpl in *; try done.
    + injection Hstep as <-. destruct Hok as (_ & Hq & Hful).
      unfold ready in HC. rewrite Hq, Hc in HC. simpl in HC.
      assert (Hnr : ¬ raw_failed s) by (intros [e He']; congruence).
      pose proof (Core_drop_promises _ _ _ HC Hful Hnr) as HC0.
      rewrite <- (app_nil_r b) in HC0.
      destruct (spawn_loop_shape _ _ _ _ HC0) as (_ & _ & _ & ps & Hps & Hids & _).
      destruct (spawn_loop_world b (set_ctrl CtlWave (upd_promises (λ _, []) s)))
        as (Hw & _).
      unfold jobs_ok, spawn in *. rewrite Hw, Hps. simpl in *.
      split_and!; try done. intros p Hp _ Hin.
      apply list_elem_of_fmap in Hin as (j & Hj1 & Hj2).
      destruct (HJ j Hj2) as (n & Hn & _ & _ & Hst).
      assert (Hpb : p_nodeId p ∈ b).
      { rewrite <- Hids. apply list_elem_of_fmap. eauto. }
      assert (Hpend := core_ready_pending _ _ _ HC (p_nodeId p)).
      specialize (Hpend Hpb).
      unfold status_of in Hpend. rewrite Hj1, Hn in Hpend. simpl in Hpend. congruence.
    + destruct (forallb is_fulfilled (promises s)); [|done]. injection Hstep as <-.
      destruct (loop_head_frame s) as (_&_&_&_&_&Hpr&_).
      destruct (loop_head_world s) as (Hw & _).
      unfold jobs_ok in *. rewrite Hw, Hpr. by split_and!.
    + injection Hstep as <-. unfold jobs_ok. simpl. by split_and!.
  - destruct (step_ctl_err_inv _ _ _ Hstep) as (_ & Hs' & _). subst s'.
    unfold jobs_ok. simpl. by split_and!.
  - destruct (promises s !! i) as [p|] eqn:Hi; [|done].
    assert (Hp : p ∈ promises s) by (apply list_elem_of_lookup; eauto).
    destruct (promise_node _ _ _ HI Hp) as [Hid _].
    destruct (resume_taskJobs _ _ _ _ _ Hstep)
      as [(Hw & pc' & Hpr & Hpc')|(Hpc & Hw & Hpr)].
    + unfold jobs_ok. rewrite Hw, Hpr. split_and!; try done.
      intros q Hq Hqpc. destruct (elem_of_alter_pc _ _ _ _ _ Hi Hq) as [->|Hq'].
      * simpl in *. apply (HP p Hp). left. by apply Hpc'.
      * by apply HP.
    + assert (Hfresh : p_nodeId p ∉ tj_taskId <$> taskJobs (world s))
        by (apply (HP p Hp); by right).
      unfold jobs_ok. rewrite Hw, Hpr, fmap_app. simpl. rewrite Hid. split_and!.
      * apply NoDup_app. split_and!; [done| |apply NoDup_singleton].
        intros x Hx Hx'. apply list_elem_of_singleton in Hx'. by subst.
      * intros j Hj. apply elem_of_app in Hj as [Hj|Hj]; [by apply HJ'|].
        apply list_elem_of_singleton in Hj as ->. simpl. rewrite Hid.
        assert (Hstep' : step s (Resume i r) = Some s') by (simpl; by rewrite Hi).
        pose proof (Inv_step _ _ _ _ HI Hstep') as HI'.
        destruct (core_prom _ _ _ HC p Hp) as (n & Hn & Hd & Hst).
        destruct (node_def_stable _ _ _ _ _ HI HI' Hn) as (n' & Hn' & Hd').
        assert (Hs : status_of s (p_nodeId p) = Some (node_status n))
          by (unfold status_of; by rewrite Hn).
        assert (Hnp : node_status n ≠ Pending)
          by (rewrite Hst; apply pc_status_not_pending).
        destruct (step_status_stable _ _ _ _ _ _ HI Hstep' Hs Hnp) as (st' & Hs' & Hne & _).
        unfold status_of in Hs'. rewrite Hn' in Hs'. injection Hs' as Hs'.
        exists n'. rewrite Hd', Hd, Hs'. done.
      * intros q Hq Hqpc.
        destruct (elem_of_alter_pc_other _ _ _ _ _ (core_prom_NoDup _ _ _ HC) Hi Hq)
          as [->|[Hq' Hne]].
        -- simpl in Hqpc. by destruct Hqpc.
        -- rewrite elem_of_app, list_elem_of_singleton. intros [Hin|Heq]; [|done].
           by apply (HP q Hq').
Qed.

Lemma jobs_ok_reachable job acts s : execute job acts = Some s → jobs_ok s.
Proof.
  apply (reachable_ind job jobs_ok).
  - unfold jobs_ok, start. simpl. rewrite emit_taskJobs. simpl.
    split_and!; [constructor|intros j Hj; by apply elem_of_nil in Hj|
                 intros p Hp; by apply elem_of_nil in Hp].
  - intros e _. unfold jobs_ok, init_failed, start. simpl. rewrite emit_taskJobs. simpl.
    split_and!; [constructor|intros j Hj; by apply elem_of_nil in Hj|
                 intros p Hp; by apply elem_of_nil in Hp].
  - destruct (loop_head_frame (build (start job))) as (_&_&_&_&_&Hpr&_).
    destruct (loop_head_world (build (start job))) as (Hw & _).
    unfold jobs_ok. rewrite Hw, Hpr. simpl. rewrite emit_taskJobs. simpl.
    split_and!; [constructor|intros j Hj; by apply elem_of_nil in Hj|
                 intros p Hp; by apply elem_of_nil in Hp].
  - intros acts0 s0 a s' Hex HJ Hs.
    eapply jobs_ok_step; [by eapply Inv_reachable|done..].
Qed.

(** X5: the jobs submitted to the task queue name pairwise distinct task
    ids; each job carries the task kind, id and description of a node of
    the work graph, and that node has been dispatched.  So [callWorker] is
    never called twice for the same node. *)
Theorem worker_jobs_once job acts s :
  execute job acts = Some s →
  NoDup (tj_taskId <$> taskJobs (world s)) ∧
  ∀ j, j ∈ taskJobs (world s) →
    ∃ n, nodes s !! tj_taskId j = Some n ∧
         node_def n ∈ job_workGraph job ∧
         tj_name j = node_task (node_def n) ∧
         tj_taskId j = node_id (node_def n) ∧
         tj_description j = node_description (node_def n) ∧
         node_status n ≠ Pending.
Proof.
  intros Hex. destruct (jobs_ok_reachable _ _ _ Hex) as (HN & HJ & _).
  split; [done|]. intros j Hj. destruct (HJ j Hj) as (n & Hn & H1 & H2 & H3).
  assert (HI : Inv job s).
  { destruct (execute_cases _ _ _ Hex)
      as [[-> ->]|[(e & -> & _ & ->)|(acts' & -> & HI)]]; [done..|exact HI]. }
  destruct HI as (_ & HC & _).
  exists n. split_and!; try done.
  - destruct (core_node_def HC _ _ Hn) as [Hm _].
    by destruct (mk_nodes_lookup _ _ _ Hm) as (_ & ? & _).
  - by destruct (core_node_def HC _ _ Hn) as [_ ->].
Qed.

(** X5 at the end of the successful run of [job_diamond]. *)
Lemma worker_jobs_once_witness :
  let s := state_after job_diamond run_diamond in
  execute job_diamond run_diamond = Some s ∧
  NoDup (tj_taskId <$> taskJobs (world s)) ∧
  ∀ j, j ∈ taskJobs (world s) →
    ∃ n, nodes s !! tj_taskId j = Some n ∧
         node_def n ∈ job_workGraph job_diamond ∧
         tj_name j = node_task (node_def n) ∧
         tj_taskId j = node_id (node_def n) ∧
         tj_description j = node_description (node_def n) ∧
         node_status n ≠ Pending.
Proof.
  assert (H : execute job_diamond run_diamond
              = Some (state_after job_diamond run_diamond))
    by (vm_compute; reflexivity).
  exact (conj H (worker_jobs_once job_diamond run_diamond _ H)).
Defined.

(** ** Files and the preview URL *)

Lemma files_ok_step job s a s' :
  Inv job s → Aux (job_workGraph job) s → files_ok s → step s a = Some s' →
  files_ok s'.
Proof.
  intros HI HA [HV HL] Hstep. destruct a as [|e|i r]; simpl in Hstep.
  - destruct (ctl_world _ _ _ HI Hstep) as (_ & H2 & H3 & _ & _ & H6).
    unfold files_ok. by rewrite H2, H3, H6.
  - destruct (step_ctl_err_inv _ _ _ Hstep) as (_ & Hs' & _). by subst s'.
  - destruct (promises s !! i) as [p|] eqn:Hi; [|done].
    assert (Hp : p ∈ promises s) by (apply list_elem_of_lookup; eauto).
    destruct (resume_files _ _ _ _ _ Hstep) as (Hb & Hloc & Hvm).
    unfold files_ok. rewrite Hb. split.
    + intros f Hf.
      assert (Hold : f ∈ localFiles (world s) → f ∈ localFiles (world s')).
      { destruct Hloc as [->|(f0 & c0 & _ & _ & ->)]; set_solver. }
      destruct Hvm as [Hvm|(f0 & c0 & Hpc & _ & Hvm)]; rewrite Hvm in Hf.
      * by apply Hold, HV.
      * apply elem_of_app in Hf as [Hf|Hf]; [by apply Hold, HV|].
        apply list_elem_of_singleton in Hf as ->. apply Hold.
        by apply (aux_written _ _ HA p).
    + intros f Hf. destruct Hloc as [Hloc|(f0 & c0 & _ & _ & Hloc)]; rewrite Hloc in Hf.
      * by apply HL.
      * apply elem_of_app in Hf as [Hf|Hf]; [by apply HL|].
        by apply list_elem_of_singleton in Hf as ->.
Qed.

Lemma files_ok_reachable job acts s : execute job acts = Some s → files_ok s.
Proof.
  apply (reachable_ind job files_ok).
  - unfold files_ok, start. simpl. rewrite emit_localFiles, emit_vmFiles. simpl.
    split; intros f Hf; by apply elem_of_nil in Hf.
  - intros e _. unfold files_ok, init_failed, start. simpl.
    rewrite emit_localFiles, emit_vmFiles. simpl.
    split; intros f Hf; by apply elem_of_nil in Hf.
  - destruct (loop_head_world (build (start job))) as (_ & H2 & H3 & _).
    unfold files_ok. rewrite H2, H3. simpl. rewrite emit_localFiles, emit_vmFiles.
    simpl. split; intros f Hf; by apply elem_of_nil in Hf.
  - intros acts0 s0 a s' Hex HJ Hs.
    eapply files_ok_step; [by eapply Inv_reachable|by eapply Aux_reachable|done..].
Qed.

(** X6: every file delivered to the VM has an identical copy (same
    build, same relative path, same content) among the files written
    locally, and every file is filed under the build identifier of the
    job. *)
Theorem vm_files_saved_locally job acts s :
  execute job acts = Some s →
  (∀ f, f ∈ vmFiles (world s) → f ∈ localFiles (world s)) ∧
  (∀ f, f ∈ localFiles (world s) → fw_buildId f = job_buildId job).
Proof.
  intros Hex. destruct (files_ok_reachable _ _ _ Hex) as [HV HL].
  split; [done|]. intros f Hf. rewrite (HL f Hf).
  destruct (execute_cases _ _ _ Hex)
    as [[-> ->]|[(e & -> & _ & ->)|(acts' & -> & HI)]]; [done..|].
  by destruct HI as (-> & _).
Qed.

(** X6 at the end of the successful run of [job_diamond]. *)
Lemma vm_files_saved_locally_witness :
  let s := state_after job_diamond run_diamond in
  execute job_diamond run_diamond = Some s ∧
  (∀ f, f ∈ vmFiles (world s) → f ∈ localFiles (world s)) ∧
  (∀ f, f ∈ localFiles (world s) → fw_buildId f = job_buildId job_diamond).
Proof.
  assert (H : execute job_diamond run_diamond
              = Some (state_after job_diamond run_diamond))
    by (vm_compute; reflexivity).
  exact (conj H (vm_files_saved_locally job_diamond run_diamond _ H)).
Defined.

Lemma truthy_Some u : truthy u = true → ∃ x, u = Some x ∧ x ≠ EmptyString.
Proof.
  destruct u as [x|]; simpl; [|done]. case_decide; [done|]. eauto.
Qed.

Lemma resume_preview i p r s s' :
  resume i p r s = Some s' →
  buildId s' = buildId s ∧
  ((previewUrl s' = previewUrl s ∧ vmSessions (world s') = vmSessions (world s))
   ∨ (p_pc p = AwaitVm ∧
      vmSessions (world s') = vmSessions (world s) ++ [buildId s] ∧
      (previewUrl s' = previewUrl s
       ∨ ∃ x, x ≠ EmptyString ∧ r = OkUrl (Some x) ∧ previewUrl s' = Some x))).
Proof.
  unfold resume. intros Hres.
  destruct (p_pc p) eqn:Hpc, r; try done.
  all: try (destruct (emit_can_reject s); [|done]).
  all: injection Hres as <-.
  all: try (progress unfold enter_try;
            destruct (String.prefix "generate-" (node_task (p_node p)));
            [|destruct (decide (node_task (p_node p) = "start-vm"))]).
  all: try (match goal with
            | |- context [throw_task _ _ ?m _] =>
                destruct (throw_task_fields s i p m) as (_&_&_&_&_&_&_&Fb&Fp&Fw)
            | |- context [throw_raw _ ?pc ?e _] =>
                destruct (throw_raw_fields s i pc e) as (_&_&_&_&_&_&_&Fb&Fp&Fw)
            end; rewrite Fw, Fb, Fp; split; [done|by left]).
  all: unfold complete_node, fail_node, finish_node.
  all: try (destruct (truthy preview_url) eqn:Ht;
            [apply truthy_Some in Ht as (x & -> & Hx)|]).
  all: simpl; rewrite ?emit_vmSessions; simpl.
  all: split; [done|]; first [by left|right; split_and!; [done|done|]].
  - right. eauto.
  - by left.
Qed.

Lemma preview_ok_step job s a s' :
  Inv job s → preview_ok s → step s a = Some s' →
  preview_ok s' ∧ (is_Some (previewUrl s) → is_Some (previewUrl s')).
Proof.
  intros HI [HU HS] Hstep. destruct a as [|e|i r]; simpl in Hstep.
  - destruct (ctl_world _ _ _ HI Hstep) as (_ & _ & _ & H4 & H5 & H6).
    unfold preview_ok. by rewrite H4, H5, H6.
  - destruct (step_ctl_err_inv _ _ _ Hstep) as (_ & Hs' & _). by subst s'.
  - destruct (promises s !! i) as [p|] eqn:Hi; [|done].
    destruct (resume_preview _ _ _ _ _ Hstep)
      as (Hb & [[Hu Hv]|(Hpc & Hv & Hu)]); unfold preview_ok; rewrite Hb, Hv.
    + by rewrite Hu.
    + assert (Hmem : ∀ b, b ∈ vmSessions (world s) ++ [buildId s] → b = buildId s).
      { intros b Hin. apply elem_of_app in Hin as [Hin|Hin]; [by apply HS|].
        by apply list_elem_of_singleton in Hin. }
      destruct Hu as [Hu|(x & Hx & _ & Hu)]; rewrite Hu.
      * split_and!; try done. intros u Hsome. destruct (HU u Hsome) as [? ?].
        split; [done|]. by destruct (vmSessions (world s)).
      * split_and!; [|done|eauto]. intros u [= <-]. split; [done|].
        by destruct (vmSessions (world s)).
Qed.

Lemma preview_ok_reachable job acts s : execute job acts = Some s → preview_ok s.
Proof.
  apply (reachable_ind job preview_ok).
  - unfold preview_ok, start. simpl. rewrite emit_vmSessions. simpl.
    split; [done|]. intros b Hb. by apply elem_of_nil in Hb.
  - intros e _. unfold preview_ok, init_failed, start. simpl.
    rewrite emit_vmSessions. simpl.
    split; [done|]. intros b Hb. by apply elem_of_nil in Hb.
  - destruct (loop_head_world (build (start job))) as (_ & _ & _ & H4).
    destruct (loop_head_frame (build (start job))) as (_&_&_&_&_&_&_&H5&H6).
    unfold preview_ok. rewrite H4, H5, H6. simpl. rewrite emit_vmSessions. simpl.
    split; [done|]. intros b Hb. by apply elem_of_nil in Hb.
  - intros acts0 s0 a s' Hex HJ Hs.
    eapply preview_ok_step; [by eapply Inv_reachable|done..].
Qed.

Lemma preview_sticky_run job s acts s' :
  Inv job s → preview_ok s → run s acts = Some s' →
  is_Some (previewUrl s) → is_Some (previewUrl s').
Proof.
  revert s. induction acts as [|a acts IH]; intros s HI HP; simpl.
  - by intros [= <-].
  - destruct (step s a) as [s1|] eqn:Hs; [|done].
    destruct (preview_ok_step _ _ _ _ HI HP Hs) as [HP1 Hk].
    intros Hrun Hsome. eapply IH; [by eapply Inv_step|done|done|by apply Hk].
Qed.

(** X7: a stored preview URL is never the empty string and is only
    present once a VM session has been started; every VM session is
    started under the build identifier of the job; and once a preview URL
    is stored it is never erased: an answer of the Dev-Flow manager without
    a (non-empty) [preview_url] leaves the URL obtained earlier in place. *)
Theorem preview_url_sticky job acts s :
  execute job acts = Some s →
  (∀ u, previewUrl s = Some u → u ≠ EmptyString ∧ vmSessions (world s) ≠ []) ∧
  (∀ b, b ∈ vmSessions (world s) → b = job_buildId job) ∧
  (∀ acts' s', run s acts' = Some s' →
     is_Some (previewUrl s) → is_Some (previewUrl s')).
Proof.
  intros Hex. destruct (preview_ok_reachable _ _ _ Hex) as [HU HS].
  destruct (execute_cases _ _ _ Hex)
    as [[-> ->]|[(e & -> & _ & ->)|(acts0 & -> & HI)]].
  { split_and!; try done. intros acts' s' _ [? ?]. done. }
  { split_and!; try done. intros acts' s' _ [? ?]. done. }
  split_and!; [done| |].
  - intros b Hb. rewrite (HS b Hb). by destruct HI as (-> & _).
  - intros acts' s' Hrun. by eapply preview_sticky_run.
Qed.

(** X7 at [job_diamond], after the VM has answered. *)
Lemma preview_url_sticky_witness :
  let s := state_after job_diamond run_diamond_wave1 in
  execute job_diamond run_diamond_wave1 = Some s ∧
  (∀ u, previewUrl s = Some u → u ≠ EmptyString ∧ vmSessions (world s) ≠ []) ∧
  (∀ b, b ∈ vmSessions (world s) → b = job_buildId job_diamond) ∧
  (∀ acts' s', run s acts' = Some s' →
     is_Some (previewUrl s) → is_Some (previewUrl s')).
Proof.
  assert (H : execute job_diamond run_diamond_wave1
              = Some (state_after job_diamond run_diamond_wave1))
    by (vm_compute; reflexivity).
  exact (conj H (preview_url_sticky job_diamond run_diamond_wave1 _ H)).
Defined.

(** ** Dependencies of dispatched nodes *)

Lemma deps_done_Inv job s : Inv job s → deps_done (job_workGraph job) s.
Proof.
  intros (_ & HC & _).
  assert (Hdirect : ∀ v st u, status_of s v = Some st → st ≠ Pending →
            depends (job_workGraph job) v u → status_of s u = Some Completed).
  { intros v st u Hv Hne Hdep.
    destruct (depends_ids _ _ _ Hdep) as [Hvid _].
    assert (Hz : inDegree s !! v = Some 0%Z).
    { apply (core_ready _ _ _ HC v Hvid). left. rewrite Hv. congruence. }
    apply depends_deps_of in Hdep.
    by destruct (proj1 (core_deg_zero HC v Hvid) Hz u Hdep). }
  intros v st u Hv Hne Htc. revert st Hv Hne.
  induction Htc as [v u Hdep|v w u Hdep Htc IH]; intros st Hv Hne.
  - by eapply Hdirect.
  - pose proof (Hdirect _ _ _ Hv Hne Hdep) as Hw.
    eapply IH; [exact Hw|done].
Qed.

Lemma deps_done_reachable job acts s :
  execute job acts = Some s → deps_done (job_workGraph job) s.
Proof.
  intros Hex.
  destruct (execute_cases _ _ _ Hex)
    as [[-> ->]|[(e & -> & _ & ->)|(acts0 & -> & HI)]].
  - intros v st u Hv. done.
  - intros v st u Hv. done.
  - by apply deps_done_Inv.
Qed.

Lemma wave_independent_step job s a s' :
  Inv job s → deps_done (job_workGraph job) s →
  wave_independent (job_workGraph job) s → step s a = Some s' →
  wave_independent (job_workGraph job) s'.
Proof.
  intros HI HD HW Hstep. pose proof HI as (Hb & HC & Hok).
  destruct a as [|e|i r]; simpl in Hstep.
  - unfold step_ctl_ok in Hstep. unfold ctrl_ok in Hok.
    destruct (ctrl s) as [|b| | |r|e] eqn:Hc; simpl in *; try done.
    + injection Hstep as <-. destruct Hok as (_ & Hq0 & Hful).
      assert (Hrdy : ready s = b) by (unfold ready; by rewrite Hq0, Hc).
      rewrite Hrdy in HC.
      assert (Hnr : ¬ raw_failed s) by (intros [e He']; congruence).
      pose proof (Core_drop_promises _ _ _ HC Hful Hnr) as HC0.
      rewrite <- (app_nil_r b) in HC0.
      destruct (spawn_loop_shape _ _ _ _ HC0) as (_ & _ & _ & ps & Hps & Hids & _).
      intros p q Hp Hq Htc. unfold spawn in Hp, Hq. rewrite Hps in Hp, Hq.
      simpl in Hp, Hq.
      assert (Hpb : p_nodeId p ∈ ready s)
        by (rewrite Hrdy, <- Hids; apply list_elem_of_fmap; eauto).
      assert (Hqb : p_nodeId q ∈ b) by (rewrite <- Hids; apply list_elem_of_fmap; eauto).
      pose proof (core_ready_pending _ _ _ HC _ Hqb) as Hqp.
      assert (Hdone : status_of s (p_nodeId q) = Some Completed).
      { inversion Htc as [x y Hdep|x w y Hdep Htc']; subst.
        - exact (batch_deps_completed _ _ _ _ HI Hpb Hdep).
        - pose proof (batch_deps_completed _ _ _ _ HI Hpb Hdep) as Hw.
          eapply HD; [exact Hw|done|done]. }
      rewrite Hqp in Hdone. done.
    + destruct (forallb is_fulfilled (promises s)); [|done]. injection Hstep as <-.
      destruct (loop_head_frame s) as (_&_&_&_&_&Hpr&_).
      unfold wave_independent. by rewrite Hpr.
    + by injection Hstep as <-.
  - destruct (step_ctl_err_inv _ _ _ Hstep) as (_ & Hs' & _). by subst s'.
  - destruct (promises s !! i) as [p0|] eqn:Hi; [|done].
    destruct (resume_rank _ _ _ _ _ Hstep) as (pc' & Hpr & _).
    intros p q Hp Hq. rewrite Hpr in Hp, Hq.
    assert (Hold : ∀ x, x ∈ alter (set_pc pc') i (promises s) →
                        ∃ y, y ∈ promises s ∧ p_nodeId y = p_nodeId x).
    { intros x Hx. destruct (elem_of_alter_pc _ _ _ _ _ Hi Hx) as [->|Hx'].
      - exists p0. split; [apply list_elem_of_lookup; eauto|done].
      - eauto. }
    destruct (Hold p Hp) as (p' & Hp' & <-). destruct (Hold q Hq) as (q' & Hq' & <-).
    by apply HW.
Qed.

Lemma wave_independent_reachable job acts s :
  execute job acts = Some s → wave_independent (job_workGraph job) s.
Proof.
  apply (reachable_ind job (wave_independent (job_workGraph job))).
  - intros p q Hp. by apply elem_of_nil in Hp.
  - intros e _ p q Hp. by apply elem_of_nil in Hp.
  - destruct (loop_head_frame (build (start job))) as (_&_&_&_&_&Hpr&_).
    intros p q Hp. rewrite Hpr in Hp. by apply elem_of_nil in Hp.
  - intros acts0 s0 a s' Hex HD Hs.
    eapply wave_independent_step;
      [by eapply Inv_reachable|by eapply deps_done_reachable|done..].
Qed.

(** X8: in every state of a run, a node that has been dispatched has
    every node it depends on, directly or through other nodes, completed;
    and the callbacks of one wave belong to nodes none of which depends on
    another one of the wave, directly or through other nodes. *)
Theorem wave_members_independent job acts s :
  execute job acts = Some s →
  (∀ v st u, status_of s v = Some st → st ≠ Pending →
     tc (depends (job_workGraph job)) v u → status_of s u = Some Completed) ∧
  (∀ p q, p ∈ promises s → q ∈ promises s →
     ¬ tc (depends (job_workGraph job)) (p_nodeId p) (p_nodeId q)).
Proof.
  intros Hex. split.
  - exact (deps_done_reachable _ _ _ Hex).
  - exact (wave_independent_reachable _ _ _ Hex).
Qed.

(** X8 at [job_diamond], while the first wave is running. *)
Lemma wave_members_independent_witness :
  let s := state_after job_diamond run_diamond_upload in
  execute job_diamond run_diamond_upload = Some s ∧
  (∀ v st u, status_of s v = Some st → st ≠ Pending →
     tc (depends (job_workGraph job_diamond)) v u → status_of s u = Some Completed) ∧
  (∀ p q, p ∈ promises s → q ∈ promises s →
     ¬ tc (depends (job_workGraph job_diamond)) (p_nodeId p) (p_nodeId q)).
Proof.
  assert (H : execute job_diamond run_diamond_upload
              = Some (state_after job_diamond run_diamond_upload))
    by (vm_compute; reflexivity).
  exact (conj H (wave_members_independent job_diamond run_diamond_upload _ H)).
Defined.

(** ** Repeated node ids *)

Lemma mk_nodes_last g v :
  node_def <$> mk_nodes g !! v = last (filter (λ n, node_id n = v) g).
Proof.
  induction g as [|x l IH] using rev_ind; [done|].
  rewrite mk_nodes_snoc, lookup_insert, filter_app, filter_cons, filter_nil.
  destruct (decide (node_id x = v)) as [Hx|Hx].
  - by rewrite last_snoc.
  - by rewrite app_nil_r.
Qed.

(** X9: once the pipeline has built its maps (in every run but the
    one that ends at the rejected publication of the "Initializing" event,
    before anything is built), when several nodes of the input carry the
    same id, the [nodes] Map holds the last of them; it has one entry per distinct id, so the
    completed-count check counts distinct ids; and every callback runs the
    last definition of its id: the earlier ones are never executed. *)
Theorem duplicate_ids_last_wins job acts s :
  execute job acts = Some s → acts ≠ [] → (∀ e, acts ≠ [CtlErr e]) →
  (∀ v, node_def <$> nodes s !! v
        = last (filter (λ n, node_id n = v) (job_workGraph job))) ∧
  size (nodes s) = size (list_to_set (C := gset string) (ids (job_workGraph job))) ∧
  (∀ p, p ∈ promises s →
        last (filter (λ n, node_id n = p_nodeId p) (job_workGraph job))
        = Some (p_node p)).
Proof.
  intros Hex Hacts Hbuilt.
  assert (HI : Inv job s).
  { destruct (execute_cases _ _ _ Hex)
      as [[-> ->]|[(e & -> & _ & ->)|(acts0 & -> & HI)]]; [done|by destruct (Hbuilt e)|done]. }
  destruct HI as (_ & HC & _).
  assert (Hdef : ∀ v, node_def <$> nodes s !! v
                      = last (filter (λ n, node_id n = v) (job_workGraph job))).
  { intros v. rewrite <- mk_nodes_last, <- (core_defs _ _ _ HC), lookup_fmap.
    by destruct (nodes s !! v). }
  split_and!; [done| |].
  - rewrite <- (size_dom (D := gset string)). f_equal. apply set_eq. intros k.
    by rewrite elem_of_dom, elem_of_list_to_set, (core_node_iff HC).
  - intros p Hp. destruct (core_prom _ _ _ HC p Hp) as (n & Hn & Hd & _).
    by rewrite <- Hdef, Hn, <- Hd.
Qed.

(** X9 at [job_twins], when the first wave has been started. *)
Lemma duplicate_ids_last_wins_witness :
  let s := state_after job_twins [Ctl; Ctl] in
  (execute job_twins [Ctl; Ctl] = Some s ∧ [Ctl; Ctl] ≠ [] ∧
   ∀ e, [Ctl; Ctl] ≠ [CtlErr e]) ∧
  (∀ v, node_def <$> nodes s !! v
        = last (filter (λ n, node_id n = v) (job_workGraph job_twins))) ∧
  size (nodes s) = size (list_to_set (C := gset string) (ids (job_workGraph job_twins))) ∧
  (∀ p, p ∈ promises s →
        last (filter (λ n, node_id n = p_nodeId p) (job_workGraph job_twins))
        = Some (p_node p)).
Proof.
  assert (H1 : execute job_twins [Ctl; Ctl] = Some (state_after job_twins [Ctl; Ctl]))
    by (vm_compute; reflexivity).
  assert (H2 : [Ctl; Ctl] ≠ []) by done.
  assert (H3 : ∀ e, [Ctl; Ctl] ≠ [CtlErr e]) by done.
  exact (conj (conj H1 (conj H2 H3))
           (duplicate_ids_last_wins job_twins [Ctl; Ctl] _ H1 H2 H3)).
Defined.

(** ** Graphs in which nothing can start *)

Lemma rootless_queue job :
  (∀ n, n ∈ job_workGraph job →
        ∃ d, d ∈ node_dependsOn n ∧ d ∈ ids (job_workGraph job)) →
  queue (build (start job)) = [].
Proof.
  intros Hroot. set (s := build (start job)).
  assert (HC : Core (job_workGraph job) (queue s) s) by apply Core_build.
  assert (Hnone : ∀ w, w ∈ queue s → False);
    [|destruct (queue s) as [|w q]; [done|]; destruct (Hnone w); set_solver].
  intros w Hw.
  pose proof (core_ready_pending _ _ _ HC w Hw) as Hp.
  assert (Hwid : w ∈ ids (job_workGraph job)).
  { apply (core_node_iff HC). unfold status_of in Hp.
    destruct (nodes s !! w); [eauto|done]. }
  assert (Hz : inDegree s !! w = Some 0%Z)
    by (apply (core_ready _ _ _ HC w Hwid); by right).
  pose proof (proj1 (core_deg_zero HC w Hwid) Hz) as Hall.
  apply (core_node_iff HC) in Hwid as [n Hn].
  destruct (core_node_def HC _ _ Hn) as [Hm _].
  destruct (mk_nodes_lookup _ _ _ Hm) as (_ & Hin & _). simpl in Hin.
  destruct (Hroot _ Hin) as (d & Hd & Hdid).
  assert (Hdd : d ∈ deps_of (job_workGraph job) w).
  { unfold deps_of. rewrite Hm. simpl. apply list_elem_of_filter.
    split; [by apply mk_nodes_is_Some|done]. }
  destruct (Hall d Hdd) as [Hst _].
  apply (core_node_iff HC) in Hdid as [m Hmd].
  destruct (core_node_def HC _ _ Hmd) as [Hm' _].
  unfold status_of in Hst. rewrite Hmd in Hst. simpl in Hst.
  assert (Hpend : node_status m = Pending).
  { assert (Hx : nodes s !! d = mk_nodes (job_workGraph job) !! d) by done.
    rewrite Hmd in Hx. symmetry in Hx.
    by destruct (mk_nodes_lookup _ _ _ Hx) as (_ & _ & ?). }
  congruence.
Qed.

(** X10: the first step of the pipeline starts no callback when the
    graph is empty or when every node lists a node of the graph in its
    [dependsOn].  On the empty graph the count check is passed at once and
    the pipeline returns with a null preview URL; on a non-empty graph
    without a root the pipeline throws the count-mismatch error at once,
    with every node still pending, and nothing can resume it. *)
Theorem graph_without_roots job :
  ∃ s, execute job [Ctl] = Some s ∧
    (job_workGraph job = [] →
       promises s = [] ∧ ctrl s = CtlFinal ∧
       ∃ s', step s Ctl = Some s' ∧
             ctrl s' = CtlSucceeded {| res_buildId := job_buildId job;
                                       res_previewUrl := None |}) ∧
    (job_workGraph job ≠ [] →
     (∀ n, n ∈ job_workGraph job →
           ∃ d, d ∈ node_dependsOn n ∧ d ∈ ids (job_workGraph job)) →
       promises s = [] ∧ ctrl s = CtlFailed IncompleteError ∧ quiescent s ∧
       ∀ v, v ∈ ids (job_workGraph job) → status_of s v = Some Pending).
Proof.
  exists (loop_head (build (start job))). split; [done|]. split.
  - intros Hg. unfold loop_head, build, start. rewrite Hg. simpl.
    split_and!; try done. eexists. split; [reflexivity|]. done.
  - intros Hg Hroot.
    destruct (loop_head_frame (build (start job))) as (_&_&Hn&_&_&Hpr&_).
    assert (Hq := rootless_queue job Hroot).
    assert (Hsz : size (nodes (build (start job))) ≠ 0).
    { simpl. destruct (job_workGraph job) as [|n g] eqn:Hgr; [done|].
      intros Hz. apply map_size_empty_inv in Hz.
      assert (Hin : is_Some (mk_nodes (n :: g) !! node_id n))
        by (apply mk_nodes_is_Some; unfold ids; set_solver).
      rewrite Hz, lookup_empty in Hin. by destruct Hin. }
    assert (Hc : ctrl (loop_head (build (start job))) = CtlFailed IncompleteError).
    { unfold loop_head. rewrite Hq. rewrite decide_False; [done|].
      intros Hz. apply Hsz. by rewrite <- Hz. }
    split_and!; [by rewrite Hpr|done| |].
    + apply settled_quiescent; [by rewrite Hc|]. rewrite Hpr. constructor.
    + intros v Hv. by apply cycle_pending_init.
Qed.

(** ** Completion is reachable *)

Lemma answer_benign i pc : benign (Resume i (answer pc)).
Proof. by destruct pc. Qed.

Lemma unfailed_step job s a s' :
  Inv job s → benign a → unfailed s → step s a = Some s' → unfailed s'.
Proof.
  intros HI Hben Hgood Hstep v Hv.
  destruct a as [|e|i r]; [|done|].
  - destruct (step_status _ _ _ _ v HI Hstep)
      as [Heq|[(_ & _ & _ & Hr)|[(i & r & p & ? & _)|(i & e & p & ? & _)]]];
      [|congruence|done..].
    rewrite Heq in Hv. by destruct (Hgood v).
  - simpl in Hstep. destruct (promises s !! i) as [p|] eqn:Hi; [|done].
    unfold status_of in Hv.
    destruct (resume_events _ _ _ _ _ Hstep)
      as [(_ & Hn & _)|[(Hn & _)|(e & -> & _)]]; [| |done].
    + rewrite Hn in Hv. by destruct (Hgood v).
    + rewrite Hn, lookup_set_status in Hv. case_decide.
      * by destruct (nodes s !! v).
      * by destruct (Hgood v).
Qed.

(** While the environment rejects nothing, the pipeline throws no error of
    a rejected publication. *)
Lemma unraw_step job s a s' :
  Inv job s → benign a → ¬ raw_failed s → step s a = Some s' → ¬ raw_failed s'.
Proof.
  intros HI Hben Hnr Hstep [e He].
  destruct a as [|e0|i r]; [|done|]; simpl in Hstep.
  - unfold step_ctl_ok in Hstep.
    destruct (ctrl s) as [|b| | |r|e1] eqn:Hc; simpl in *; try done.
    + injection Hstep as <-.
      by destruct (loop_head_ctrl (build s)) as [[b Hl]|[Hl|Hl]]; rewrite Hl in He.
    + injection Hstep as <-. pose proof HI as (_ & HC & Hok).
      unfold ctrl_ok in Hok. rewrite Hc in Hok. destruct Hok as (_ & Hq & Hful).
      unfold ready in HC. rewrite Hq, Hc in HC. simpl in HC.
      pose proof (Core_drop_promises _ _ _ HC Hful Hnr) as HC0.
      rewrite <- (app_nil_r b) in HC0.
      destruct (spawn_loop_shape _ _ _ _ HC0) as (Hct & _).
      unfold spawn in He. rewrite Hct in He. done.
    + destruct (forallb is_fulfilled (promises s)); [|done]. injection Hstep as <-.
      by destruct (loop_head_ctrl s) as [[b Hl]|[Hl|Hl]]; rewrite Hl in He.
    + injection Hstep as <-. done.
  - destruct (promises s !! i) as [p|] eqn:Hi; [|done].
    destruct (resume_ctrl _ _ _ _ _ Hstep)
      as [Hc|[(_ & m & _ & _ & Hc)|(_ & e1 & -> & _)]]; [| |done].
    + apply Hnr. exists e. by rewrite <- Hc.
    + rewrite Hc in He. done.
Qed.

(** A state of a run in which no node has failed and no publication has
    been rejected can be brought to rest without a failure. *)
Lemma can_come_to_rest job n :
  ∀ acts s, execute job (Ctl :: acts) = Some s → measure s ≤ n →
  unfailed s → ¬ raw_failed s →
  ∃ acts' s', execute job (Ctl :: acts ++ acts') = Some s' ∧ Forall benign acts' ∧
              quiescent s' ∧ unfailed s' ∧ ¬ raw_failed s'.
Proof.
  induction n as [n IH] using lt_wf_ind. intros acts s Hex Hm Hgood Hnr.
  assert (HI : Inv job s) by (by eapply Inv_reachable).
  assert (Hnext : ∀ a s1, benign a → step s a = Some s1 →
            ∃ acts' s', execute job (Ctl :: acts ++ acts') = Some s' ∧
                        Forall benign acts' ∧ quiescent s' ∧ unfailed s' ∧
                        ¬ raw_failed s').
  { intros a s1 Hben Hs.
    pose proof (measure_step _ _ _ _ HI Hs) as Hlt.
    assert (Hex1 : execute job (Ctl :: acts ++ [a]) = Some s1)
      by (by apply (run_snoc _ (Ctl :: acts) a s)).
    destruct (IH (measure s1) ltac:(lia) (acts ++ [a]) s1 Hex1) as (acts' & s' & H1 & H2 & H3);
      [lia|by eapply unfailed_step|by eapply unraw_step|].
    exists (a :: acts'), s'. rewrite <- app_assoc in H1. split; [done|].
    split; [by constructor|done]. }
  destruct (decide (Forall settled (promises s))) as [Hset|Hset].
  - destruct (decide (terminal (ctrl s))) as [Hterm|Hterm].
    + exists [], s. rewrite app_nil_r. split_and!; try done.
      by apply settled_quiescent.
    + destruct (ctl_enabled _ _ HI Hterm Hset) as (s1 & Hs).
      by apply (Hnext Ctl s1).
  - apply not_Forall_Exists in Hset; [|apply _].
    apply Exists_exists in Hset as (p & Hp & Hns).
    apply list_elem_of_lookup in Hp as [i Hi].
    destruct (resume_enabled i p s Hns) as [s1 Hs].
    apply (Hnext (Resume i (answer (p_pc p))) s1); [apply answer_benign|].
    simpl. by rewrite Hi.
Qed.

Lemma rest_unfailed_succeeded job s :
  Inv job s → acyclic (job_workGraph job) → quiescent s → unfailed s →
  ¬ raw_failed s →
  (∃ r, ctrl s = CtlSucceeded r) ∧
  ∀ v, v ∈ ids (job_workGraph job) → status_of s v = Some Completed.
Proof.
  intros HI Hac Hq Hnf Hnr. pose proof HI as (_ & HC & Hok).
  destruct (quiescent_settled _ _ HI Hq) as [Hterm Hset].
  assert (Hful : Forall fulfilled (promises s)).
  { rewrite Forall_forall in *. intros p Hp.
    destruct (Hset p Hp) as [?|[Hr|Hr]]; [done| |].
    - destruct (Hnf (p_nodeId p)). by rewrite (core_prom_status HC p Hp), Hr.
    - exfalso. unfold ctrl_ok in Hok.
      assert (Hnf' : Forall fulfilled (promises s) → False).
      { intros Hf. rewrite Forall_forall in Hf. specialize (Hf p Hp).
        unfold fulfilled in Hf. congruence. }
      destruct (ctrl s) as [|b| | |r|[w t m| | |e]] eqn:Hc; try done.
      + destruct Hok as (_ & ? & _); auto.
      + destruct Hok as (q & Hqp & Hqr & _).
        destruct (Hnf (p_nodeId q)). by rewrite (core_prom_status HC q Hqp), Hqr.
      + destruct Hok as (_ & ? & _); auto.
      + apply Hnr. by exists e. }
  assert (Hrdy : ready s = [] ∨ ∃ r, ctrl s = CtlSucceeded r).
  { unfold terminal, ctrl_ok, ready in *.
    destruct (ctrl s) as [| | | |r|[w t m| | |e]] eqn:Hc; try done; [eauto| | |].
    - destruct Hok as (p & Hp & Hr & _). rewrite Forall_forall in Hful.
      specialize (Hful p Hp). unfold fulfilled in Hful. congruence.
    - left. destruct Hok as (-> & _). done.
    - exfalso. apply Hnr. by exists e. }
  assert (Hall : ∀ v, v ∈ ids (job_workGraph job) → released s v).
  { destruct Hrdy as [Hrdy|[r Hr]].
    - by apply acyclic_all_released.
    - apply full_count_all_released; [done|]. unfold ctrl_ok in Hok.
      rewrite Hr in Hok. by destruct Hok as (_&_&?&_). }
  split; [|intros v Hv; by destruct (Hall v Hv)].
  pose proof (all_released_full_count _ _ HI Hall) as Hcnt.
  unfold terminal, ctrl_ok in *.
  destruct (ctrl s) as [| | | |r|[w t m| | |e]] eqn:Hc; try done; [eauto| | |].
  + destruct Hok as (p & Hp & Hr & _). rewrite Forall_forall in Hful.
    specialize (Hful p Hp). unfold fulfilled in Hful. congruence.
  + by destruct Hok as (_ & _ & ?).
  + exfalso. apply Hnr. by exists e.
Qed.

(** X11: on every graph without a dependency cycle the pipeline can
    succeed: there is a run, in which the environment rejects no awaited
    call, that ends in success with every node completed, and it takes no
    more than [step_bound] steps.  The scheduler itself never blocks a
    graph that has no cycle. *)
Theorem acyclic_graph_can_succeed job :
  acyclic (job_workGraph job) →
  ∃ acts s r,
    execute job acts = Some s ∧ Forall benign acts ∧ length acts ≤ step_bound job ∧
    ctrl s = CtlSucceeded r ∧
    ∀ v, v ∈ ids (job_workGraph job) → status_of s v = Some Completed.
Proof.
  intros Hac.
  assert (Hex : execute job [Ctl] = Some (loop_head (build (start job)))) by done.
  assert (Hgood : unfailed (loop_head (build (start job)))).
  { intros v Hv. unfold status_of in Hv.
    destruct (nodes _ !! v) as [n|] eqn:Hn; [|done].
    assert (Hvid : v ∈ ids (job_workGraph job)).
    { destruct (Inv_reachable _ _ _ Hex) as (_ & HC & _).
      apply (core_node_iff HC). eauto. }
    pose proof (cycle_pending_init job v Hvid) as Hp.
    unfold status_of in Hp. rewrite Hn in Hp. simpl in *. congruence. }
  assert (Hnr : ¬ raw_failed (loop_head (build (start job)))).
  { intros [e He].
    by destruct (loop_head_ctrl (build (start job))) as [[b Hl]|[Hl|Hl]];
      rewrite Hl in He. }
  destruct (can_come_to_rest job _ [] _ Hex (le_n _) Hgood Hnr)
    as (acts' & s' & Hex' & Hben & Hq & Hnf & Hnr').
  assert (HI : Inv job s') by (by eapply Inv_reachable).
  destruct (rest_unfailed_succeeded _ _ HI Hac Hq Hnf Hnr') as [[r Hr] Hall].
  exists ([Ctl] ++ acts'), s', r. split_and!; try done.
  - by constructor.
  - pose proof (execute_bounded _ _ _ Hex') as Hb. simpl in *. lia.
Qed.

(** X11 at [job_diamond]. *)
Lemma acyclic_graph_can_succeed_witness :
  acyclic (job_workGraph job_diamond) ∧
  ∃ acts s r,
    execute job_diamond acts = Some s ∧ Forall benign acts ∧
    length acts ≤ step_bound job_diamond ∧
    ctrl s = CtlSucceeded r ∧
    ∀ v, v ∈ ids (job_workGraph job_diamond) → status_of s v = Some Completed.
Proof.
  assert (H : acyclic (job_workGraph job_diamond))
    by (apply (acyclic_ranked _ (λ v, if decide (v = "C") then 1 else 0));
        by_compute).
  exact (conj H (acyclic_graph_can_succeed job_diamond H)).
Defined.

(** ** The bookkeeping of the scheduler *)

(** X12: in every state of a run after the index has been built (every
    run but the one that ends at the rejected publication of the
    "Initializing" event, before anything is built), the
    in-degree of a node is the number of entries of its [dependsOn] that
    name a node which has not yet completed and returned; the adjacency
    list of a node lists each dependent as often as that dependent lists
    the node; [completedCount] is the number of nodes that have completed
    and returned; and a queued node is pending with nothing holding it
    back. *)
Theorem index_stays_exact job acts s :
  execute job acts = Some s → acts ≠ [] → (∀ e, acts ≠ [CtlErr e]) →
  (∀ w, w ∈ ids (job_workGraph job) →
     inDegree s !! w = Some (Z.of_nat (length (blockers (job_workGraph job) s w)))) ∧
  (∀ u l w, adj s !! u = Some l → occ w l = occ u (deps_of (job_workGraph job) w)) ∧
  completedCount s = length (filter (released s) (mk_order (job_workGraph job))) ∧
  (∀ w, w ∈ queue s →
     status_of s w = Some Pending ∧ blockers (job_workGraph job) s w = []).
Proof.
  intros Hex Hacts Hbuilt.
  assert (HI : Inv job s).
  { destruct (execute_cases _ _ _ Hex)
      as [[-> ->]|[(e & -> & _ & ->)|(acts0 & -> & HI)]]; [done|by destruct (Hbuilt e)|done]. }
  destruct HI as (_ & HC & _).
  split_and!.
  - intros w Hw. by rewrite (core_deg _ _ _ HC), decide_True.
  - apply (core_adj _ _ _ HC).
  - rewrite <- (core_order _ _ _ HC). apply (core_count _ _ _ HC).
  - intros w Hw. assert (Hr : w ∈ ready s) by (unfold ready; set_solver).
    pose proof (core_ready_pending _ _ _ HC w Hr) as Hp. split; [done|].
    assert (Hwid : w ∈ ids (job_workGraph job)).
    { apply (core_node_iff HC). unfold status_of in Hp.
      destruct (nodes s !! w); [eauto|done]. }
    assert (Hz : inDegree s !! w = Some 0%Z)
      by (apply (core_ready _ _ _ HC w Hwid); by right).
    rewrite (core_deg _ _ _ HC), decide_True in Hz by done.
    injection Hz as Hz. destruct (blockers _ s w); [done|]. simpl in Hz. lia.
Qed.

(** X12 at [job_diamond], when the second wave is about to start. *)
Lemma index_stays_exact_witness :
  let job := job_diamond in
  let s := state_after job run_diamond_wave1 in
  (execute job run_diamond_wave1 = Some s ∧ run_diamond_wave1 ≠ [] ∧
   ∀ e, run_diamond_wave1 ≠ [CtlErr e]) ∧
  (∀ w, w ∈ ids (job_workGraph job) →
     inDegree s !! w = Some (Z.of_nat (length (blockers (job_workGraph job) s w)))) ∧
  (∀ u l w, adj s !! u = Some l → occ w l = occ u (deps_of (job_workGraph job) w)) ∧
  completedCount s = length (filter (released s) (mk_order (job_workGraph job))) ∧
  (∀ w, w ∈ queue s →
     status_of s w = Some Pending ∧ blockers (job_workGraph job) s w = []).
Proof.
  assert (H1 : execute job_diamond run_diamond_wave1
               = Some (state_after job_diamond run_diamond_wave1))
    by (vm_compute; reflexivity).
  assert (H2 : run_diamond_wave1 ≠ []) by (by vm_compute).
  assert (H3 : ∀ e, run_diamond_wave1 ≠ [CtlErr e]) by (by vm_compute).
  exact (conj (conj H1 (conj H2 H3))
           (index_stays_exact job_diamond run_diamond_wave1 _ H1 H2 H3)).
Defined.

(** * Properties of the components around the work-graph manager *)

(** ** The orchestrator *)

(** X13: a job of the orchestration queue whose name is not
    "execute-plan" returns [undefined] without any effect.  An
    "execute-plan" job returns only when the pipeline has succeeded, with
    status "completed", the build identifier of the job and the preview URL
    of the pipeline, every node being completed; the "completed" listener
    then prints that URL, or "N/A" when there is none.  It throws only the
    count-mismatch error, a task error, or the error with which the progress
    queue has rejected the publication of an event, which needs a non-empty
    build identifier; the "failed" listener then prints the count-mismatch
    text, or "Task v (t) failed: m" for a node [v] that is marked failed and
    whose task kind is [t], or the message of the error of the progress
    queue. *)
Theorem orchestrator_outcome name job acts out w :
  processor name job acts = Some (out, w) →
  (name ≠ "execute-plan" → out = JobReturned ReturnedUndefined ∧ w = emptyWorld) ∧
  (name = "execute-plan" →
   ∃ s, execute job acts = Some s ∧ w = world s ∧
     match out with
     | JobReturned r =>
         r = Returned "completed" (job_buildId job) (previewUrl s) ∧
         (∀ i, completed_log i r =
               "Job " +:+ i +:+ " has completed. Preview available at: "
               +:+ default "N/A" (previewUrl s)) ∧
         ∀ v, v ∈ ids (job_workGraph job) → status_of s v = Some Completed
     | JobThrew e =>
         ctrl s = CtlFailed e ∧
         ((∀ i, failed_log i e =
                "Job " +:+ i +:+ " has FAILED: "
                +:+ "Build failed: Not all tasks in the work graph were completed.") ∨
          (∃ v n m, nodes s !! v = Some n ∧ node_status n = Failed ∧
                   ∀ i, failed_log i e =
                        "Job " +:+ i +:+ " has FAILED: " +:+ "Task " +:+ v +:+ " ("
                        +:+ node_task (node_def n) +:+ ") failed: " +:+ m) ∨
          ∃ e', e = RawError e' ∧ job_buildId job ≠ EmptyString ∧
                ∀ i, failed_log i e = "Job " +:+ i +:+ " has FAILED: " +:+ err_message e')
     end).
Proof.
  unfold processor. intros Hp. case_decide as Hname.
  - split; [done|]. intros _.
    destruct (execute job acts) as [s|] eqn:Hex; [|done]. exists s.
    assert (Hcases : Inv job s ∨ ctrl s = CtlInit ∨
              ∃ e, job_buildId job ≠ EmptyString ∧ ctrl s = CtlFailed (RawError e)).
    { destruct (execute_cases _ _ _ Hex)
        as [[-> ->]|[(e & -> & Hne & ->)|(acts0 & -> & HI)]];
        [by right; left|right; right; by exists e|by left]. }
    destruct (ctrl s) as [| | | |r|e] eqn:Hc; try done; injection Hp as <- <-.
    + assert (HI : Inv job s) by (by destruct Hcases as [?|[?|(e & _ & ?)]]).
      pose proof HI as (Hb & HC & Hok). unfold ctrl_ok in Hok. rewrite Hc in Hok.
      destruct Hok as (_ & _ & Hcnt & ->). simpl. rewrite Hb.
      split_and!; try done.
      * intros i. unfold completed_log. do 3 f_equal.
        destruct (previewUrl s) as [u|] eqn:Hu; [|done].
        destruct (preview_ok_reachable _ _ _ Hex) as [HU _].
        destruct (HU u Hu) as [Hne _]. simpl. by rewrite decide_False.
      * intros v Hv. by destruct (full_count_all_released _ _ HI Hcnt v Hv).
    + do 3 (split; [done|]).
      destruct Hcases as [HI|[?|(e' & Hne & [= ->])]]; [|done|].
      2: { right; right. by exists e'. }
      pose proof HI as (Hb & HC & Hok). unfold ctrl_ok in Hok. rewrite Hc in Hok.
      destruct e as [v t m| | |e']; [|by left|done|].
      * right; left. destruct Hok as (p & Hp & Hr & <- & <-).
        destruct (core_prom _ _ _ HC p Hp) as (n & Hn & Hd & Hst).
        destruct (core_node_def HC _ _ Hn) as [_ Hid].
        exists (p_nodeId p), n, m. rewrite <- Hd, Hid, Hst, Hr. done.
      * right; right. exists e'. by rewrite <- Hb.
  - split; [|done]. intros _. destruct acts; [|done]. by injection Hp as <- <-.
Qed.

(** X13 at the successful run of [job_diamond]. *)
Lemma orchestrator_outcome_witness :
  let s := state_after job_diamond run_diamond in
  let out := JobReturned (Returned "completed" "b1" (Some "http://vm")) in
  processor "execute-plan" job_diamond run_diamond = Some (out, world s) ∧
  ("execute-plan" ≠ "execute-plan" →
   out = JobReturned ReturnedUndefined ∧ world s = emptyWorld) ∧
  ("execute-plan" = "execute-plan" →
   ∃ s0, execute job_diamond run_diamond = Some s0 ∧ world s = world s0 ∧
     match out with
     | JobReturned r =>
         r = Returned "completed" (job_buildId job_diamond) (previewUrl s0) ∧
         (∀ i, completed_log i r =
               "Job " +:+ i +:+ " has completed. Preview available at: "
               +:+ default "N/A" (previewUrl s0)) ∧
         ∀ v, v ∈ ids (job_workGraph job_diamond) → status_of s0 v = Some Completed
     | JobThrew e =>
         ctrl s0 = CtlFailed e ∧
         ((∀ i, failed_log i e =
                "Job " +:+ i +:+ " has FAILED: "
                +:+ "Build failed: Not all tasks in the work graph were completed.") ∨
          (∃ v n m, nodes s0 !! v = Some n ∧ node_status n = Failed ∧
                   ∀ i, failed_log i e =
                        "Job " +:+ i +:+ " has FAILED: " +:+ "Task " +:+ v +:+ " ("
                        +:+ node_task (node_def n) +:+ ") failed: " +:+ m) ∨
          ∃ e', e = RawError e' ∧ job_buildId job_diamond ≠ EmptyString ∧
                ∀ i, failed_log i e = "Job " +:+ i +:+ " has FAILED: " +:+ err_message e')
     end).
Proof.
  assert (H : processor "execute-plan" job_diamond run_diamond
              = Some (JobReturned (Returned "completed" "b1" (Some "http://vm")),
                      world (state_after job_diamond run_diamond)))
    by (vm_compute; reflexivity).
  exact (conj H (orchestrator_outcome "execute-plan" job_diamond run_diamond _ _ H)).
Defined.

(** ** The gateway's progress worker *)





(** ** The worker service *)

Lemma route_generator name h :
  route name = Some h → (generator h ↔ is_generate name = true).
Proof.
  unfold route, generator. intros Hr.
  repeat (case_decide;
          [subst name; injection Hr as <-; split; intros Hg;
           [first [reflexivity|by destruct Hg as [?|[?|?]]]
           |first [by auto|by vm_compute in Hg]]|]).
  done.
Qed.

(** X15: a job the pipeline submits to the task queue is routed by the
    worker service to one of the three generating handlers or rejected as
    an unknown job name; it never reaches the validating, fixing or testing
    handler.  A job name is routed to a generating handler only if it
    starts with "generate-". *)
Theorem pipeline_jobs_reach_generators job acts s :
  execute job acts = Some s →
  (∀ j h, j ∈ taskJobs (world s) → route (tj_name j) = Some h → generator h) ∧
  (∀ name h, route name = Some h → (generator h ↔ is_generate name = true)).
Proof.
  intros Hex. split; [|apply route_generator].
  intros j h Hj Hr. apply (route_generator _ _ Hr).
  destruct (execute_cases _ _ _ Hex)
    as [[-> ->]|[(e0 & -> & _ & ->)|(acts0 & -> & HI)]].
  - unfold start in Hj. simpl in Hj.
    rewrite emit_taskJobs in Hj. by apply elem_of_nil in Hj.
  - unfold init_failed, start in Hj. simpl in Hj.
    rewrite emit_taskJobs in Hj. by apply elem_of_nil in Hj.
  - pose proof (Aux_reachable _ _ _ Hex) as HA.
    by destruct (aux_jobs _ _ HA j Hj).
Qed.

(** X15 at the end of the successful run of [job_diamond]. *)
Lemma pipeline_jobs_reach_generators_witness :
  let s := state_after job_diamond run_diamond in
  execute job_diamond run_diamond = Some s ∧
  (∀ j h, j ∈ taskJobs (world s) → route (tj_name j) = Some h → generator h) ∧
  (∀ name h, route name = Some h → (generator h ↔ is_generate name = true)).
Proof.
  assert (H : execute job_diamond run_diamond
              = Some (state_after job_diamond run_diamond))
    by (vm_compute; reflexivity).
  exact (conj H (pipeline_jobs_reach_generators job_diamond run_diamond _ H)).
Defined.

(** ** The progress list of the pipeline page *)

Lemma fmap_step_alter st i (l : list Stage) :
  stage_step <$> alter (set_stage_status st) i l = stage_step <$> l.
Proof.
  rewrite (list_fmap_alter _ (set_stage_status st) id).
  - by apply list_alter_id.
  - by apply Forall_forall.
Qed.

Lemma handleProgress_steps stepId status l :
  stage_step <$> handleProgress stepId status l =
  if decide (stepId ∈ stage_step <$> l) then stage_step <$> l
  else (stage_step <$> l) ++ [stepId].
Proof.
  unfold handleProgress.
  set (mark := λ p, if decide (stage_status p = "active" ∧ stage_step p ≠ stepId)
                    then set_stage_status "completed" p else p).
  assert (Hmark : ∀ k : list Stage, stage_step <$> (mark <$> k) = stage_step <$> k).
  { intros k. rewrite <- list_fmap_compose. apply list_fmap_ext. intros ? p _.
    unfold mark. simpl. by case_decide. }
  destruct (list_find _ l) as [[i x]|] eqn:Hf.
  - apply list_find_Some in Hf as (Hi & Hx & _).
    destruct (decide (stepId ∈ stage_step <$> l)) as [Hin|Hnin].
    + case_decide; by rewrite ?Hmark, fmap_step_alter.
    + destruct Hnin. apply list_elem_of_fmap. exists x.
      split; [done|apply list_elem_of_lookup; eauto].
  - apply list_find_None in Hf. rewrite Forall_forall in Hf.
    destruct (decide (stepId ∈ stage_step <$> l)) as [Hin|Hnin].
    + apply list_elem_of_fmap in Hin as (p & -> & Hp). by destruct (Hf p).
    + case_decide; by rewrite ?Hmark, fmap_app.
Qed.

Lemma handleProgress_NoDup stepId status l :
  NoDup (stage_step <$> l) → NoDup (stage_step <$> handleProgress stepId status l).
Proof.
  intros HN. rewrite handleProgress_steps. case_decide as Hin; [done|].
  apply NoDup_app. split_and!; [done| |apply NoDup_singleton].
  intros x Hx Hx'. apply list_elem_of_singleton in Hx'. by subst.
Qed.

(** The entry of the event's step after the update of the list. *)
Lemma handleProgress_entry stepId status l :
  {| stage_step := stepId; stage_status := status |}
  ∈ match list_find (λ p, stage_step p = stepId) l with
    | Some (i, _) => alter (set_stage_status status) i l
    | None => l ++ [{| stage_step := stepId; stage_status := status |}]
    end.
Proof.
  destruct (list_find _ l) as [[i x]|] eqn:Hf.
  - apply list_find_Some in Hf as (Hi & Hx & _).
    apply list_elem_of_lookup. exists i. rewrite list_lookup_alter_eq, Hi. simpl.
    unfold set_stage_status. by rewrite Hx.
  - set_solver.
Qed.

Lemma filter_none {A} (P : A → Prop) `{!∀ x, Decision (P x)} (l : list A) :
  (∀ x, x ∈ l → ¬ P x) → filter P l = [].
Proof.
  induction l as [|y l IH]; intros Hall; [done|].
  rewrite filter_cons, decide_False by (apply Hall; by left).
  apply IH. intros x Hx. apply Hall. by right.
Qed.

Lemma filter_key_NoDup (l : list Stage) x :
  NoDup (stage_step <$> l) → x ∈ l →
  filter (λ p, stage_step p = stage_step x) l = [x].
Proof.
  induction l as [|y l IH]; intros HN Hx; [by apply elem_of_nil in Hx|].
  rewrite fmap_cons in HN. apply NoDup_cons in HN as [Hy HN].
  rewrite filter_cons. apply elem_of_cons in Hx as [<-|Hx].
  - rewrite decide_True by done. f_equal. apply filter_none.
    intros z Hz Heq. apply Hy. rewrite <- Heq. apply list_elem_of_fmap. eauto.
  - rewrite decide_False; [by apply IH|].
    intros Heq. apply Hy. rewrite Heq. apply list_elem_of_fmap. eauto.
Qed.

Lemma filter_agree {A} (P Q : A → Prop)
    `{!∀ x, Decision (P x), !∀ x, Decision (Q x)} (l : list A) :
  (∀ x, x ∈ l → (P x ↔ Q x)) → filter P l = filter Q l.
Proof.
  induction l as [|y l IH]; intros Hall; [done|].
  assert (Hy := Hall y ltac:(left)).
  assert (IH' := IH (λ x Hx, Hall x (list_elem_of_further _ _ _ Hx))).
  rewrite !filter_cons. destruct (decide (P y)), (decide (Q y)); try tauto.
  by rewrite IH'.
Qed.

(** After an "active" event the entry of its step is the only active one. *)
Lemma handleProgress_active stepId l :
  NoDup (stage_step <$> l) →
  active_stages (handleProgress stepId "active" l)
  = [{| stage_step := stepId; stage_status := "active" |}].
Proof.
  intros HN. pose proof (handleProgress_NoDup stepId "active" l HN) as HN'.
  pose proof (handleProgress_entry stepId "active" l) as Hin.
  unfold handleProgress in *. rewrite decide_True in * by done.
  set (new := match list_find _ l with Some (i, _) => _ | None => _ end) in *.
  set (mark := λ p, if decide (stage_status p = "active" ∧ stage_step p ≠ stepId)
                    then set_stage_status "completed" p else p) in *.
  set (x := {| stage_step := stepId; stage_status := "active" |}) in *.
  assert (Hmark : ∀ q, stage_step q = stepId → mark q = q).
  { intros q Hq. unfold mark. rewrite decide_False; [done|]. by intros [_ ?]. }
  assert (Hx : x ∈ mark <$> new).
  { apply list_elem_of_fmap. exists x. split; [|done]. by rewrite Hmark. }
  rewrite <- (filter_key_NoDup _ x HN' Hx). unfold active_stages.
  apply filter_agree. intros p Hp. simpl. split.
  - intros Hact. apply list_elem_of_fmap in Hp as (q & -> & Hq).
    unfold mark in *. case_decide as Hd; [done|]. simpl.
    destruct (decide (stage_step q = stepId)); [done|]. destruct Hd. done.
  - intros Hstep.
    assert (Hpx : p ∈ filter (λ p, stage_step p = stage_step x) (mark <$> new))
      by (by apply list_elem_of_filter).
    rewrite (filter_key_NoDup _ x HN' Hx) in Hpx.
    by apply list_elem_of_singleton in Hpx as ->.
Qed.

Lemma handleProgress_inactive stepId status l :
  status ≠ "active" →
  length (active_stages (handleProgress stepId status l)) ≤ length (active_stages l).
Proof.
  intros Hst. unfold handleProgress. rewrite decide_False by done.
  unfold active_stages. destruct (list_find _ l) as [[i x]|] eqn:Hf.
  - clear Hf. revert i. induction l as [|y l IH]; intros [|i]; try done.
    + change (alter (set_stage_status status) 0 (y :: l))
        with (set_stage_status status y :: l).
      rewrite !filter_cons. simpl. rewrite decide_False by done.
      case_decide; simpl; lia.
    + change (alter (set_stage_status status) (S i) (y :: l))
        with (y :: alter (set_stage_status status) i l).
      rewrite !filter_cons. specialize (IH i). case_decide; simpl; lia.
  - rewrite filter_app, filter_cons, filter_nil. simpl.
    rewrite decide_False by done. by rewrite app_nil_r.
Qed.

Lemma pipeline_after_snoc b evs ev :
  pipeline_after b (evs ++ [ev]) = handleProgress ev.1 ev.2 (pipeline_after b evs).
Proof. unfold pipeline_after. by rewrite foldl_app. Qed.

(** X16: whatever progress events arrive, the progress list of the
    pipeline page never lists a step twice and never shows more than one
    active step; after an event with status "active" the only active step
    is the one of that event. *)
Theorem progress_list_invariants b evs :
  NoDup (stage_step <$> pipeline_after b evs) ∧
  length (active_stages (pipeline_after b evs)) ≤ 1 ∧
  (∀ stepId, last evs = Some (stepId, "active") →
     active_stages (pipeline_after b evs)
     = [{| stage_step := stepId; stage_status := "active" |}]).
Proof.
  induction evs as [|[stepId status] evs IH] using rev_ind.
  - split_and!; [apply NoDup_singleton|done|done].
  - destruct IH as (HN & Hact & _). rewrite pipeline_after_snoc. simpl.
    split_and!.
    + by apply handleProgress_NoDup.
    + destruct (decide (status = "active")) as [->|Hst].
      * by rewrite handleProgress_active.
      * pose proof (handleProgress_inactive stepId status (pipeline_after b evs) Hst).
        lia.
    + intros stepId'. rewrite last_snoc. intros [= <- ->].
      by apply handleProgress_active.
Qed.

(** * Properties of the string helpers of the workers *)

(** ** Replacing the matches of an expression *)

Lemma replace_go_cons m c (r : JsString) :
  replace_go m 0 (c :: r) =
  match m (c :: r) with
  | Some (n, rep) => rep ++ replace_go m (n - 1) r
  | None => c :: replace_go m 0 r
  end.
Proof. done. Qed.

(** The code units of a match are passed over. *)
Lemma replace_go_skip m (a b : JsString) :
  replace_go m (length a) (a ++ b) = replace_go m 0 b.
Proof.
  induction a as [|c a IH]; simpl; [by destruct b|done].
Qed.

(** A match at the head is replaced, and the search resumes behind it. *)
Lemma replace_go_match m (a b rep : JsString) :
  a ≠ [] → m (a ++ b) = Some (length a, rep) →
  replace_go m 0 (a ++ b) = rep ++ replace_go m 0 b.
Proof.
  intros Ha Hm. destruct a as [|c a]; [done|].
  change ((c :: a) ++ b) with (c :: (a ++ b)) in *. simpl. rewrite Hm. simpl.
  by rewrite Nat.sub_0_r, replace_go_skip.
Qed.

(** Where the expression cannot match, nothing is replaced. *)
Lemma replace_go_none m (a b : JsString) :
  (∀ a1 a2, a = a1 ++ a2 → a2 ≠ [] → m (a2 ++ b) = None) →
  replace_go m 0 (a ++ b) = a ++ replace_go m 0 b.
Proof.
  induction a as [|c a IH]; intros Hno; [done|].
  pose proof (Hno [] (c :: a) eq_refl ltac:(done)) as H0.
  change ((c :: a) ++ b) with (c :: (a ++ b)) in *. simpl.
  rewrite H0. f_equal. apply IH.
  intros a1 a2 -> Ha2. by apply (Hno (c :: a1) a2).
Qed.

Lemma replace_all_id m (l : JsString) :
  (∀ a1 a2, l = a1 ++ a2 → a2 ≠ [] → m a2 = None) → replace_all m l = l.
Proof.
  intros Hno. unfold replace_all. rewrite <- (app_nil_r l) at 1.
  rewrite replace_go_none; [by rewrite app_nil_r|].
  intros a1 a2 Hl Ha2. rewrite app_nil_r. by eapply Hno.
Qed.

(** ** Fences *)

Lemma has_fence_cons c l :
  has_fence (c :: l) ↔
  (c = backtick ∧ ∃ b, l = backtick :: backtick :: b) ∨ has_fence l.
Proof.
  unfold has_fence. split.
  - intros ([|x a] & b & Hl).
    + injection Hl as -> ->. left. eauto.
    + injection Hl as -> ->. right. eauto.
  - intros [[-> [b ->]]|(a & b & ->)].
    + by exists [], b.
    + by exists (c :: a), b.
Qed.

Lemma has_fence_nil : ¬ has_fence [].
Proof. intros ([|x a] & b & Hl); done. Qed.

Lemma has_fence_app_r a l : has_fence l → has_fence (a ++ l).
Proof.
  intros (x & y & ->). exists (a ++ x), y. by rewrite <- app_assoc.
Qed.

Lemma has_fence_app_l l a : has_fence l → has_fence (l ++ a).
Proof.
  intros (x & y & ->). exists x, (y ++ a). by rewrite <- !app_assoc.
Qed.

Lemma has_fence_reverse l : has_fence (reverse l) → has_fence l.
Proof.
  intros (x & y & Hl). exists (reverse y), (reverse x).
  rewrite <- (reverse_involutive l), Hl, !reverse_app. simpl.
  by rewrite <- !app_assoc.
Qed.

Lemma fence_Some l n rep :
  fence l = Some (n, rep) →
  n = 3 ∧ rep = [] ∧ ∃ b, l = backtick :: backtick :: backtick :: b.
Proof.
  unfold fence. destruct l as [|c1 [|c2 [|c3 r]]]; try done.
  case_decide as Hd; [|done]. destruct Hd as (-> & -> & ->).
  intros [= <- <-]. eauto.
Qed.

Lemma fence_open_Some l n rep :
  fence_open l = Some (n, rep) → ∃ b, l = backtick :: backtick :: backtick :: b.
Proof.
  unfold fence_open. destruct l as [|c1 [|c2 [|c3 r]]]; try done.
  case_decide as Hd; [|done]. destruct Hd as (-> & -> & ->). eauto.
Qed.

Lemma fence_None c l :
  fence (c :: l) = None → ¬ (c = backtick ∧ ∃ b, l = backtick :: backtick :: b).
Proof.
  intros Hf [-> [b ->]]. unfold fence in Hf. by rewrite decide_True in Hf.
Qed.

Lemma replace_fence_clean_upto n :
  ∀ l : JsString, length l ≤ n → ¬ has_fence (replace_go fence 0 l).
Proof.
  induction n as [|n IH]; intros l Hlen.
  { destruct l; [apply has_fence_nil|simpl in Hlen; lia]. }
  destruct l as [|c r]; [apply has_fence_nil|]. simpl in Hlen.
  rewrite replace_go_cons. destruct (fence (c :: r)) as [[k rep]|] eqn:Hf.
  - destruct (fence_Some _ _ _ Hf) as (-> & -> & b & Hl).
    injection Hl as -> ->. simpl. apply IH. simpl in Hlen. lia.
  - rewrite has_fence_cons. intros [[-> [b Hb]]|Hin].
    + pose proof (fence_None _ _ Hf) as Hno.
      destruct r as [|d r2]; [done|]. rewrite replace_go_cons in Hb.
      destruct (fence (d :: r2)) as [[k rep]|] eqn:Hf2.
      * destruct (fence_Some _ _ _ Hf2) as (_ & _ & b2 & Hl2).
        injection Hl2 as -> ->. apply Hno. eauto.
      * injection Hb as -> Hb. destruct r2 as [|e r3]; [done|].
        rewrite replace_go_cons in Hb.
        destruct (fence (e :: r3)) as [[k rep]|] eqn:Hf3.
        -- destruct (fence_Some _ _ _ Hf3) as (_ & _ & b3 & Hl3).
           injection Hl3 as -> ->. apply Hno. eauto.
        -- injection Hb as -> _. apply Hno. eauto.
    + revert Hin. apply IH. lia.
Qed.

(** After the second replacement no fence is left. *)
Lemma replace_fence_clean l : ¬ has_fence (replace_all fence l).
Proof. by apply (replace_fence_clean_upto (length l)). Qed.

(** Where there is no fence, neither replacement changes anything. *)
Lemma replace_fence_id l : ¬ has_fence l → replace_all fence l = l.
Proof.
  intros Hno. apply replace_all_id. intros a1 a2 -> _.
  destruct (fence a2) as [[n rep]|] eqn:Hf; [|done].
  destruct (fence_Some _ _ _ Hf) as (_ & _ & b & ->).
  destruct Hno. apply has_fence_app_r. by exists [], b.
Qed.

Lemma replace_fence_open_id l : ¬ has_fence l → replace_all fence_open l = l.
Proof.
  intros Hno. apply replace_all_id. intros a1 a2 -> _.
  destruct (fence_open a2) as [[n rep]|] eqn:Hf; [|done].
  destruct (fence_open_Some _ _ _ Hf) as (b & ->).
  destruct Hno. apply has_fence_app_r. by exists [], b.
Qed.

(** ** [trim] *)

Lemma trim_start_suffix l : ∃ a, l = a ++ trim_start l.
Proof.
  induction l as [|c l [a IH]]; [by exists []|]. simpl.
  destruct (is_space c); [|by exists []]. exists (c :: a). by rewrite IH at 1.
Qed.

Lemma trim_start_head l c : head (trim_start l) = Some c → is_space c = false.
Proof.
  induction l as [|d l IH]; [done|]. simpl.
  destruct (is_space d) eqn:Hd; [done|]. by intros [= <-].
Qed.

Lemma trim_start_id l :
  (∀ c, head l = Some c → is_space c = false) → trim_start l = l.
Proof.
  destruct l as [|c l]; [done|]. intros H. simpl. by rewrite (H c).
Qed.

Lemma trim_fence l : has_fence (trim l) → has_fence l.
Proof.
  unfold trim. intros H. apply has_fence_reverse in H.
  destruct (trim_start_suffix (reverse (trim_start l))) as [a Ha].
  assert (H1 : has_fence (reverse (trim_start l)))
    by (rewrite Ha; by apply has_fence_app_r).
  apply has_fence_reverse in H1.
  destruct (trim_start_suffix l) as [b Hb]. rewrite Hb. by apply has_fence_app_r.
Qed.

Lemma head_reverse (l : JsString) : head (reverse l) = last l.
Proof.
  induction l as [|c l IH] using rev_ind; [done|].
  by rewrite reverse_snoc, last_snoc.
Qed.

Lemma last_reverse (l : JsString) : last (reverse l) = head l.
Proof. by rewrite <- head_reverse, reverse_involutive. Qed.

Lemma last_app_suffix (a l : JsString) c : last l = Some c → last (a ++ l) = Some c.
Proof.
  destruct l as [|d l] using rev_ind; [done|].
  rewrite app_assoc, !last_snoc. done.
Qed.

(** The result of [trim] neither begins nor ends with white space. *)
Lemma trim_ends l c :
  head (trim l) = Some c ∨ last (trim l) = Some c → is_space c = false.
Proof.
  unfold trim. intros [H|H].
  - rewrite head_reverse in H.
    destruct (trim_start_suffix (reverse (trim_start l))) as [a Ha].
    pose proof (last_app_suffix a _ _ H) as H'. rewrite <- Ha, last_reverse in H'.
    by eapply trim_start_head.
  - rewrite last_reverse in H. by eapply trim_start_head.
Qed.

Lemma trim_id l :
  (∀ c, head l = Some c ∨ last l = Some c → is_space c = false) → trim l = l.
Proof.
  intros H. unfold trim. rewrite (trim_start_id l) by (intros c Hc; apply H; by left).
  rewrite trim_start_id; [apply reverse_involutive|].
  intros c Hc. rewrite head_reverse in Hc. apply H. by right.
Qed.

(** ** [sanitizeLLMOutput] *)

Lemma sanitize_clean l : ¬ has_fence (sanitizeLLMOutput l).
Proof.
  unfold sanitizeLLMOutput. destruct l as [|c l]; [apply has_fence_nil|].
  intros H. apply trim_fence in H. by apply replace_fence_clean in H.
Qed.

Lemma sanitize_ends l c :
  head (sanitizeLLMOutput l) = Some c ∨ last (sanitizeLLMOutput l) = Some c →
  is_space c = false.
Proof.
  unfold sanitizeLLMOutput. destruct l as [|d l]; [by intros [?|?]|]. apply trim_ends.
Qed.

Lemma sanitize_plain l : ¬ has_fence l → sanitizeLLMOutput l = trim l.
Proof.
  intros Hno. unfold sanitizeLLMOutput. destruct l as [|c l]; [done|].
  by rewrite replace_fence_open_id, replace_fence_id.
Qed.

(** X17: the text [sanitizeLLMOutput] returns never contains three
    backticks in a row and neither begins nor ends with white space; a text
    without three backticks in a row is only trimmed; and sanitizing twice
    gives the same as sanitizing once. *)
Theorem sanitize_removes_fences rawCode :
  ¬ has_fence (sanitizeLLMOutput rawCode) ∧
  (∀ c, head (sanitizeLLMOutput rawCode) = Some c
        ∨ last (sanitizeLLMOutput rawCode) = Some c → is_space c = false) ∧
  (¬ has_fence rawCode → sanitizeLLMOutput rawCode = trim rawCode) ∧
  sanitizeLLMOutput (sanitizeLLMOutput rawCode) = sanitizeLLMOutput rawCode.
Proof.
  split_and!.
  - apply sanitize_clean.
  - apply sanitize_ends.
  - apply sanitize_plain.
  - rewrite sanitize_plain by apply sanitize_clean.
    apply trim_id, sanitize_ends.
Qed.

(** ** Unwrapping a fenced answer *)

Lemma span_app f (a b : JsString) :
  Forall (λ c, f c = true) a → (∀ c, head b = Some c → f c = false) →
  span f (a ++ b) = (a, b).
Proof.
  intros Ha Hb. induction Ha as [|c a Hc Ha IH]; simpl.
  - destruct b as [|d b]; [done|]. simpl. by rewrite (Hb d).
  - by rewrite Hc, IH.
Qed.

Lemma trim_start_app_space (l : JsString) c :
  is_space c = true → trim_start (c :: l) = trim_start l.
Proof. intros Hc. simpl. by rewrite Hc. Qed.

Lemma trim_snoc_space (l : JsString) c :
  is_space c = true → trim (l ++ [c]) = trim l.
Proof.
  intros Hc. unfold trim.
  destruct (trim_start_suffix l) as [a Ha].
  assert (Hcase : trim_start l = [] ∨ trim_start l ≠ []) by (destruct (trim_start l); auto).
  assert (Hts : ∀ k : JsString, trim_start (k ++ [c]) =
                 if decide (trim_start k = []) then [] else trim_start k ++ [c]).
  { induction k as [|d k IHk]; simpl; [by rewrite Hc|].
    destruct (is_space d); [done|]. by rewrite decide_False. }
  rewrite Hts. case_decide as Hd.
  - by rewrite Hd.
  - rewrite reverse_snoc, trim_start_app_space; done.
Qed.

(** X18: an answer that consists of one fenced block, opened by three
    backticks, a language tag made of letters and a line break, and closed
    by a line break and three backticks, is reduced to the trimmed body of
    the block, provided the body itself holds no three backticks in a row. *)
Theorem sanitize_unwraps_block tag body :
  Forall (λ c, is_letter c = true) tag → ¬ has_fence body →
  sanitizeLLMOutput
    (units "```" ++ tag ++ [newline] ++ body ++ [newline] ++ units "```")
  = trim body.
Proof.
  intros Htag Hbody. unfold sanitizeLLMOutput.
  change (units "```") with [backtick; backtick; backtick].
  change ([backtick; backtick; backtick] ++ tag ++ [newline] ++ body ++ [newline]
          ++ [backtick; backtick; backtick])
    with (backtick :: backtick :: backtick :: tag ++ [newline] ++ body ++ [newline]
          ++ [backtick; backtick; backtick]).
  cbv iota.
  assert (H1 : replace_all fence_open
                 (backtick :: backtick :: backtick :: tag ++ [newline] ++ body
                  ++ [newline] ++ [backtick; backtick; backtick])
               = body ++ [newline]).
  { unfold replace_all.
    assert (Hshape : backtick :: backtick :: backtick :: tag ++ [newline] ++ body
                     ++ [newline] ++ [backtick; backtick; backtick]
                     = ([backtick; backtick; backtick] ++ tag ++ [newline])
                       ++ ((body ++ [newline]) ++ [backtick; backtick; backtick]))
      by (by rewrite <- !app_assoc).
    rewrite Hshape. rewrite (replace_go_match _ _ _ []).
    - simpl. rewrite replace_go_none.
      + by rewrite app_nil_r.
      + intros a1 a2 Hsplit Ha2.
        destruct (fence_open (a2 ++ [backtick; backtick; backtick])) as [[n rep]|] eqn:Hf;
          [|done].
        destruct (fence_open_Some _ _ _ Hf) as [b Hb].
        destruct a2 as [|x a2 _] using rev_ind; [done|].
        rewrite app_assoc in Hsplit. apply app_inj_tail in Hsplit as [Hbody' <-].
        destruct a2 as [|c1 [|c2 [|c3 a2]]]; try done.
        injection Hb as -> -> -> _. destruct Hbody. rewrite Hbody'.
        apply has_fence_app_r. by exists [], a2.
    - done.
    - unfold fence_open.
      rewrite <- !app_assoc. simpl.
      rewrite (span_app is_letter tag
                 (newline :: body ++ [newline; backtick; backtick; backtick]));
        [|done|by intros c [= <-]].
      simpl. rewrite length_app. simpl. do 2 f_equal. }
  rewrite H1.
  rewrite replace_fence_id.
  - by apply trim_snoc_space.
  - intros (a & b & Hab). destruct b as [|x b _] using rev_ind.
    + rewrite !app_nil_r in Hab.
      change (a ++ [backtick; backtick; backtick])
        with (a ++ [backtick; backtick] ++ [backtick]) in Hab.
      rewrite !app_assoc in Hab. by apply app_inj_tail in Hab as [_ ?].
    + rewrite !app_assoc in Hab. apply app_inj_tail in Hab as [Hab _].
      destruct Hbody. exists a, b. by rewrite Hab, <- !app_assoc.
Qed.

(** X18 for a block tagged "ts" whose body is "x". *)
Lemma sanitize_unwraps_block_witness :
  (Forall (λ c, is_letter c = true) (units "ts") ∧ ¬ has_fence (units "x")) ∧
  sanitizeLLMOutput
    (units "```" ++ units "ts" ++ [newline] ++ units "x" ++ [newline] ++ units "```")
  = trim (units "x").
Proof.
  assert (H1 : Forall (λ c, is_letter c = true) (units "ts"))
    by (by repeat constructor).
  assert (H2 : ¬ has_fence (units "x")).
  { intros ([|c [|d a]] & b & H); by vm_compute in H. }
  exact (conj (conj H1 H2) (sanitize_unwraps_block (units "ts") (units "x") H1 H2)).
Defined.

(** ** The result of a generating worker *)

(** X19: once its prompt is built, a generating worker never throws
    and never returns empty code: the file it returns is named by the task
    id, and its code is either the sanitized answer of the model, which is
    then neither empty nor holds three backticks in a row, or the comment
    "// FAILED TO GENERATE FILE: " followed by the error message.  An
    answer that is empty after sanitizing counts as an error. *)
Theorem generate_never_empty taskId llm :
  gen_fileName (generate taskId llm) = taskId ∧
  gen_code (generate taskId llm) ≠ [] ∧
  match llm with
  | LlmText text =>
      (sanitizeLLMOutput text ≠ [] →
       gen_code (generate taskId llm) = sanitizeLLMOutput text) ∧
      (sanitizeLLMOutput text = [] →
       gen_code (generate taskId llm)
       = units "// FAILED TO GENERATE FILE: LLM returned an empty response.") ∧
      ¬ has_fence (gen_code (generate taskId llm))
  | LlmThrows message =>
      gen_code (generate taskId llm) = units "// FAILED TO GENERATE FILE: " ++ message
  end.
Proof.
  destruct llm as [text|message]; simpl.
  - pose proof (sanitize_clean text) as Hclean.
    destruct (sanitizeLLMOutput text) as [|c code] eqn:Hs; simpl.
    + split_and!; try done.
      intros ([|x a] & b & H); vm_compute in H.
      * done.
      * injection H as _ H.
        repeat (destruct a as [|? a]; [by vm_compute in H|injection H as _ H]).
        by destruct a.
    + by split_and!.
  - by split_and!.
Qed.

(** ** [normalizePath] on routes *)

Lemma replace_no_head m h (a b : JsString) :
  (∀ l n rep, m l = Some (n, rep) → head l = Some h) → h ∉ a →
  replace_go m 0 (a ++ b) = a ++ replace_go m 0 b.
Proof.
  intros Hm Ha. apply replace_go_none. intros a1 a2 -> Ha2.
  destruct (m (a2 ++ b)) as [[n rep]|] eqn:Hl; [|done].
  apply Hm in Hl. destruct a2 as [|c a2]; [done|]. injection Hl as ->.
  destruct Ha. set_solver.
Qed.

Lemma brace_param_head l n rep : brace_param l = Some (n, rep) → head l = Some lbrace.
Proof.
  unfold brace_param. destruct l as [|c r]; [done|]. case_decide; [by subst|done].
Qed.

Lemma colon_param_head l n rep : colon_param l = Some (n, rep) → head l = Some colon.
Proof.
  unfold colon_param. destruct l as [|c r]; [done|]. case_decide; [by subst|done].
Qed.

Lemma render_cons o c g segs :
  render o c (g :: segs) =
  match g with
  | Fixed n => [slash] ++ n
  | Param n => [slash] ++ o ++ n ++ c
  end ++ render o c segs.
Proof. done. Qed.

Lemma render_head o c segs d : head (render o c segs) = Some d → d = slash.
Proof. destruct segs as [|[n|n] segs]; [done|by intros [= <-]..]. Qed.

Lemma plain_not_elem n c :
  plain n → c = slash ∨ c = colon ∨ c = lbrace ∨ c = rbrace → c ∉ n.
Proof.
  intros [_ Hn] Hc Hin. rewrite Forall_forall in Hn.
  destruct (Hn c Hin) as (?&?&?&?). by destruct Hc as [?|[?|[?|?]]].
Qed.

(** A route without the opening character of a parameter is left alone. *)
Lemma render_not_elem o c segs x :
  Forall plain_segment segs →
  x = colon ∨ x = lbrace → x ≠ slash → x ∉ o → x ∉ c → x ∉ render o c segs.
Proof.
  intros Hsegs Hx Hs Ho Hc. induction Hsegs as [|g segs Hg _ IH]; [set_solver|].
  rewrite render_cons. intros Hin. apply elem_of_app in Hin as [Hin|Hin]; [|done].
  assert (Hn : ∀ n, plain n → x ∉ n).
  { intros n Hn. apply plain_not_elem; [done|]. destruct Hx; auto. }
  destruct g as [n|n]; simpl in Hg.
  - apply elem_of_cons in Hin as [?|Hin]; [done|]. by apply (Hn n).
  - apply elem_of_cons in Hin as [?|Hin]; [done|].
    apply elem_of_app in Hin as [?|Hin]; [done|].
    apply elem_of_app in Hin as [?|Hin]; [by apply (Hn n)|done].
Qed.

Lemma span_plain (f : N → bool) (n rest : JsString) :
  Forall (λ c, f c = true) n → (∀ d, head rest = Some d → f d = false) →
  span f (n ++ rest) = (n, rest).
Proof. apply span_app. Qed.

Lemma colon_route segs :
  Forall plain_segment segs →
  replace_all colon_param (colon_path segs) = bracket_path segs.
Proof.
  unfold replace_all, colon_path, bracket_path.
  induction 1 as [|g segs Hg Hsegs IH]; [done|].
  rewrite !render_cons. destruct g as [n|n]; simpl in Hg.
  - rewrite (replace_no_head _ colon); [by rewrite IH|apply colon_param_head|].
    intros Hin. apply elem_of_cons in Hin as [?|Hin]; [done|].
    revert Hin. apply plain_not_elem; auto.
  - rewrite app_nil_r.
    change (([slash] ++ [colon] ++ n) ++ render [colon] [] segs)
      with ([slash] ++ ((colon :: n) ++ render [colon] [] segs)).
    rewrite (replace_no_head _ colon); [|apply colon_param_head|set_solver].
    rewrite (replace_go_match _ _ _ ([lbracket] ++ n ++ [rbracket])); [|done|].
    + by rewrite IH, <- !app_assoc.
    + unfold colon_param. simpl. 
      rewrite (span_plain _ n (render [colon] [] segs)).
      * destruct Hg as [Hne _]. simpl. destruct n as [|c n]; [done|].
        by rewrite Nat.add_1_r.
      * destruct Hg as [_ Hn]. eapply Forall_impl; [exact Hn|].
        intros c (Hc & _). simpl. by rewrite bool_decide_eq_false_2.
      * intros d Hd. apply render_head in Hd as ->. done.
Qed.

Lemma brace_route segs :
  Forall plain_segment segs →
  replace_all brace_param (brace_path segs) = bracket_path segs.
Proof.
  unfold replace_all, brace_path, bracket_path.
  induction 1 as [|g segs Hg Hsegs IH]; [done|].
  rewrite !render_cons. destruct g as [n|n]; simpl in Hg.
  - rewrite (replace_no_head _ lbrace); [by rewrite IH|apply brace_param_head|].
    intros Hin. apply elem_of_cons in Hin as [?|Hin]; [done|].
    revert Hin. apply plain_not_elem; auto.
  - change (([slash] ++ [lbrace] ++ n ++ [rbrace]) ++ render [lbrace] [rbrace] segs)
      with ([slash] ++ ((lbrace :: n ++ [rbrace]) ++ render [lbrace] [rbrace] segs)).
    rewrite (replace_no_head _ lbrace); [|apply brace_param_head|set_solver].
    rewrite (replace_go_match _ _ _ ([lbracket] ++ n ++ [rbracket])); [|done|].
    + by rewrite IH, <- !app_assoc.
    + unfold brace_param. simpl. rewrite <- app_assoc.
      rewrite (span_plain _ n ([rbrace] ++ render [lbrace] [rbrace] segs)).
      * destruct Hg as [Hne _]. simpl. destruct n as [|c n]; [done|].
        simpl. rewrite length_app. simpl. do 3 f_equal. lia.
      * destruct Hg as [_ Hn]. eapply Forall_impl; [exact Hn|].
        intros c (_ & _ & Hl & Hr). simpl. rewrite bool_decide_eq_false_2; [done|].
        by intros [?|?].
      * by intros d [= <-].
Qed.

Lemma normalizePath_unfold p :
  normalizePath p = replace_all colon_param (replace_all brace_param p).
Proof. by destruct p. Qed.

Lemma normalize_routes segs :
  Forall plain_segment segs →
  normalizePath (colon_path segs) = bracket_path segs ∧
  normalizePath (brace_path segs) = bracket_path segs ∧
  normalizePath (bracket_path segs) = bracket_path segs.
Proof.
  intros Hsegs. rewrite !normalizePath_unfold.
  assert (Hb : ∀ o c, lbrace ∉ o → lbrace ∉ c →
                replace_all brace_param (render o c segs) = render o c segs).
  { intros o c Ho Hc. unfold replace_all.
    rewrite <- (app_nil_r (render o c segs)) at 1.
    rewrite (replace_no_head _ lbrace); [by rewrite app_nil_r|apply brace_param_head|].
    apply render_not_elem; auto. }
  assert (Hc : replace_all colon_param (bracket_path segs) = bracket_path segs).
  { unfold replace_all, bracket_path.
    rewrite <- (app_nil_r (render _ _ segs)) at 1.
    rewrite (replace_no_head _ colon); [by rewrite app_nil_r|apply colon_param_head|].
    apply render_not_elem; auto; set_solver. }
  split_and!.
  - unfold colon_path. rewrite Hb by set_solver. by apply colon_route.
  - rewrite brace_route by done. exact Hc.
  - unfold bracket_path at 1. rewrite Hb by set_solver. exact Hc.
Qed.

(** X20: for a route whose segment names are not empty and hold none
    of the characters "/", ":", "{" and "}", [normalizePath] maps the
    notation with ":name" parameters and the notation with "{name}"
    parameters to the same path, in which every parameter is written
    "[name]"; and it leaves that bracket notation as it is. *)
Theorem normalizePath_unifies_notations segs :
  Forall plain_segment segs →
  normalizePath (colon_path segs) = bracket_path segs ∧
  normalizePath (brace_path segs) = bracket_path segs ∧
  normalizePath (bracket_path segs) = bracket_path segs.
Proof.
  apply normalize_routes.
Qed.

Lemma route_product_plain : Forall plain_segment route_product.
Proof.
  unfold route_product, plain_segment, plain.
  repeat (constructor; [split; [done|]; vm_compute; repeat (constructor; [done|]);
                        constructor|]).
  constructor.
Qed.

(** X20 for the route [/api/products/:id]. *)
Lemma normalizePath_unifies_notations_witness :
  Forall plain_segment route_product ∧
  normalizePath (colon_path route_product) = bracket_path route_product ∧
  normalizePath (brace_path route_product) = bracket_path route_product ∧
  normalizePath (bracket_path route_product) = bracket_path route_product.
Proof.
  exact (conj route_product_plain
           (normalizePath_unifies_notations route_product route_product_plain)).
Defined.

(** ** The specification lookup of [generateBackendRoute] *)

Lemma strip_prefix_app (p l : JsString) : strip_prefix p (p ++ l) = l.
Proof.
  unfold strip_prefix. rewrite take_app_length, decide_True by done.
  by rewrite drop_app_length.
Qed.

Lemma strip_suffix_app (p l : JsString) : strip_suffix p (l ++ p) = l.
Proof.
  unfold strip_suffix. rewrite length_app.
  replace (length l + length p - length p) with (length l) by lia.
  rewrite drop_app_length, take_app_length, decide_True; [done|]. split; [done|lia].
Qed.

Lemma strip_suffix_None (p l : JsString) :
  (∀ a, l ≠ a ++ p) → strip_suffix p l = l.
Proof.
  intros Hno. unfold strip_suffix. case_decide as Hd; [|done].
  destruct Hd as [Hd _]. destruct (Hno (take (length l - length p) l)).
  pose proof (take_drop (length l - length p) l) as H. by rewrite Hd in H.
Qed.

(** Two strings that agree behind their last occurrence of [s]. *)
Lemma last_separator (s : N) (a b a' b' : JsString) :
  s ∉ b → s ∉ b' → a ++ s :: b = a' ++ s :: b' → a = a' ∧ b = b'.
Proof.
  intros Hb Hb'. revert a'. induction a as [|c a IH]; intros [|c' a'] H.
  - by injection H.
  - injection H as <- H. destruct Hb. rewrite H. set_solver.
  - injection H as -> H. destruct Hb'. rewrite <- H. set_solver.
  - injection H as -> H. destruct (IH _ H) as [-> ->]. done.
Qed.

Lemma render_snoc o c segs g :
  render o c (segs ++ [g]) = render o c segs ++ render o c [g].
Proof. unfold render. by rewrite fmap_app, join_app. Qed.

Lemma bracket_path_snoc segs g :
  bracket_path (segs ++ [g]) = bracket_path segs ++ slash :: bracket_body g.
Proof.
  unfold bracket_path. rewrite render_snoc. f_equal.
  destruct g; unfold render; simpl; by rewrite app_nil_r.
Qed.

Lemma bracket_body_no_slash g : plain_segment g → slash ∉ bracket_body g.
Proof.
  destruct g as [n|n]; simpl; intros Hg.
  - apply plain_not_elem; auto.
  - intros Hin. apply elem_of_cons in Hin as [?|Hin]; [done|].
    apply elem_of_app in Hin as [Hin|Hin]; [|set_solver].
    revert Hin. apply plain_not_elem; auto.
Qed.

Lemma bracket_body_nonempty g : plain_segment g → bracket_body g ≠ [].
Proof. destruct g as [n|n]; simpl; [by intros [? _]|done]. Qed.

(** A bracket route ends with "/name" exactly when its last segment is the
    fixed segment of that name. *)
Lemma bracket_path_ends segs name :
  Forall plain_segment segs → slash ∉ name → hd 0%N name ≠ lbracket →
  (∃ a, bracket_path segs = a ++ slash :: name) ↔ last segs = Some (Fixed name).
Proof.
  intros Hsegs Hname Hhd. destruct segs as [|g segs _] using rev_ind.
  { split; [|done]. intros [a Ha]. by destruct a. }
  rewrite last_snoc, bracket_path_snoc.
  apply Forall_app in Hsegs as [_ Hg]. rewrite Forall_singleton in Hg.
  split.
  - intros [a Ha].
    apply last_separator in Ha as [_ Hb];
      [|by apply bracket_body_no_slash|done].
    destruct g as [n|n]; simpl in Hb; [by rewrite Hb|].
    rewrite <- Hb in Hhd. done.
  - intros [= ->]. eauto.
Qed.

Lemma bracket_path_no_trailing_slash segs :
  Forall plain_segment segs → ∀ a, bracket_path segs ≠ a ++ [slash].
Proof.
  intros Hsegs a Ha. destruct segs as [|g segs _] using rev_ind.
  { by destruct a. }
  rewrite bracket_path_snoc in Ha.
  apply Forall_app in Hsegs as [_ Hg]. rewrite Forall_singleton in Hg.
  apply last_separator in Ha as [_ Hb];
    [|by apply bracket_body_no_slash|set_solver].
  by apply bracket_body_nonempty in Hg.
Qed.

Lemma routePath_route_file segs :
  Forall plain_segment segs →
  routePath (route_file segs) =
  strip_suffix (units "/index") (bracket_path segs).
Proof.
  intros Hsegs. unfold routePath, route_file.
  by rewrite strip_prefix_app, strip_suffix_app.
Qed.

Lemma bracket_path_length segs g :
  length (bracket_path segs) < length (bracket_path (segs ++ [g])).
Proof. rewrite bracket_path_snoc, length_app. simpl. lia. Qed.

(** X21: the file "app/<route>/route.ts" of a route whose segment names
    are not empty and hold none of "/", ":", "{" and "}" passes the filter
    of [generateBackendRoute] for the specification of its own route,
    written with ":name" or with "{name}" parameters, exactly when the last
    segment of the route is not the fixed segment "index": for such a
    route the worker finds at least that specification, and for a route
    that ends in "/index" the suffix is cut off and the route's own
    specification is not matched. *)
Theorem backend_route_lookup segs :
  Forall plain_segment segs →
  (spec_matches (route_file segs) (colon_path segs)
   ↔ last segs ≠ Some (Fixed (units "index"))) ∧
  (spec_matches (route_file segs) (brace_path segs)
   ↔ last segs ≠ Some (Fixed (units "index"))) ∧
  (last segs ≠ Some (Fixed (units "index")) →
   ∀ paths, colon_path segs ∈ paths ∨ brace_path segs ∈ paths →
            ∃ l, apiSpecs (route_file segs) paths = Some l).
Proof.
  intros Hsegs.
  destruct (normalize_routes segs Hsegs) as (Hc & Hb & Hk).
  assert (Hspec : ∀ p, normalizePath p = bracket_path segs →
            (spec_matches (route_file segs) p
             ↔ last segs ≠ Some (Fixed (units "index")))).
  { intros p Hp. unfold spec_matches.
    rewrite Hp, routePath_route_file by done.
    rewrite (strip_suffix_None [slash]) by (by apply bracket_path_no_trailing_slash).
    destruct (decide (last segs = Some (Fixed (units "index")))) as [Hl|Hl].
    - split; [|done]. intros Heq _.
      destruct segs as [|g segs' _] using rev_ind; [done|].
      rewrite last_snoc in Hl. injection Hl as ->.
      rewrite bracket_path_snoc in Heq. simpl in Heq.
      change (bracket_path segs' ++ slash :: units "index")
        with (bracket_path segs' ++ units "/index") in Heq.
      rewrite strip_suffix_app in Heq.
      apply Forall_app in Hsegs as [Hs' _].
      destruct (normalize_routes segs' Hs') as (_ & _ & Hk').
      rewrite Hk' in Heq.
      apply (f_equal length) in Heq. rewrite length_app in Heq. simpl in Heq. lia.
    - split; [done|]. intros _.
      rewrite strip_suffix_None; [by rewrite Hk|].
      intros a Ha. apply Hl.
      apply (bracket_path_ends segs (units "index")); [done|by vm_compute; set_solver|done|].
      exists a. exact Ha. }
  split_and!; [by apply Hspec|by apply Hspec|].
  intros Hl paths Hin. unfold apiSpecs.
  destruct (filter _ paths) as [|x l] eqn:Hf; [|eauto].
  assert (Hx : ∃ p, p ∈ paths ∧ spec_matches (route_file segs) p).
  { destruct Hin as [Hin|Hin]; eexists; (split; [exact Hin|]); by apply Hspec. }
  destruct Hx as (p & Hp & Hm).
  assert (Hpf : p ∈ filter (spec_matches (route_file segs)) paths)
    by (by apply list_elem_of_filter).
  rewrite Hf in Hpf. by apply elem_of_nil in Hpf.
Qed.

(** X21 for the route [/api/products/:id]. *)
Lemma backend_route_lookup_witness :
  Forall plain_segment route_product ∧
  (spec_matches (route_file route_product) (colon_path route_product)
   ↔ last route_product ≠ Some (Fixed (units "index"))) ∧
  (spec_matches (route_file route_product) (brace_path route_product)
   ↔ last route_product ≠ Some (Fixed (units "index"))) ∧
  (last route_product ≠ Some (Fixed (units "index")) →
   ∀ paths, colon_path route_product ∈ paths ∨ brace_path route_product ∈ paths →
            ∃ l, apiSpecs (route_file route_product) paths = Some l).
Proof.
  exact (conj route_product_plain (backend_route_lookup route_product route_product_plain)).
Defined.
